(** * Tic-tac-toe bot: the position evaluator and the minimax search

    A shallow embedding of [checkWinner], [getAvailableMoves], [makeMove]
    and [minimax] of [src/app/page.tsx], and the properties of the search
    that the game relies on; then of the handlers around them
    ([handlePlayerClick], [makeBotMove], [resetGame]) and of
    [bestChildIndex] of the tree display. *)

From Stdlib Require Import ZArith Lia.
From stdpp Require Import base option list gmap sorting.

Local Open Scope Z_scope.

(** ** Data model *)

(** [type Player = "X" | "O" | null]: a cell is [None] for [null]. *)
Inductive Mark := X | O.
Abbreviation Player := (option Mark).
Abbreviation BoardState := (list Player).

Global Instance Mark_eq_dec : EqDecision Mark.
Proof. solve_decision. Defined.

(** The numbers the search handles: the integer scores and the two
    infinities that initialise [alpha], [beta] and [bestScore]. *)
Inductive Num := NegInf | Fin (z : Z) | PosInf.

Global Instance Num_eq_dec : EqDecision Num.
Proof. solve_decision. Defined.

(** [a < b] on numbers. *)
Definition num_ltb (a b : Num) : bool :=
  match a, b with
  | NegInf, NegInf => false
  | NegInf, _ => true
  | Fin _, NegInf => false
  | Fin x, Fin y => x <? y
  | Fin _, PosInf => true
  | PosInf, _ => false
  end.

(** [a <= b] on numbers. *)
Definition num_leb (a b : Num) : bool := negb (num_ltb b a).

(** [Math.max] and [Math.min]. *)
Definition num_max (a b : Num) : Num := if num_ltb a b then b else a.
Definition num_min (a b : Num) : Num := if num_ltb b a then b else a.

(** [const SCORES = { X: -10, O: 10, tie: 0 }]. *)
Definition SCORES_X : Num := Fin (-10).
Definition SCORES_O : Num := Fin 10.
Definition SCORES_tie : Num := Fin 0.

(** [type TreeNode = { board; score; move?; children }]. *)
#[local] Unset Elimination Schemes.
Inductive TreeNode := mkTreeNode {
  node_board : BoardState;
  node_score : Num;
  node_move : option nat;
  node_children : list TreeNode
}.
#[local] Set Elimination Schemes.

(** ** The position evaluator *)

(** The table of [checkWinner], in its order. *)
Definition lines : list (nat * nat * nat) :=
  [ (0, 1, 2); (3, 4, 5); (6, 7, 8);
    (0, 3, 6); (1, 4, 7); (2, 5, 8);
    (0, 4, 8); (2, 4, 6) ]%nat.

(** A read [boardState[i]] is [b !! i]: [None] is [undefined] (out of
    range), [Some None] is [null].  Only a mark is truthy. *)
Definition truthy (v : option Player) : bool :=
  match v with
  | Some (Some _) => true
  | _ => false
  end.

(** The test of the [for] loop of [checkWinner] on one line. *)
Definition line_complete (boardState : BoardState) (l : nat * nat * nat) : bool :=
  let '(a, b, c) := l in
  truthy (boardState !! a)
  && bool_decide (boardState !! a = boardState !! b)
  && bool_decide (boardState !! a = boardState !! c).

Record WinnerResult := mkWinnerResult {
  winner : Player;
  line : option (list nat)
}.

Global Instance WinnerResult_eq_dec : EqDecision WinnerResult.
Proof. solve_decision. Defined.

(** The [for (const [a, b, c] of lines)] loop: the first complete line
    returns from the function. *)
Fixpoint checkWinner_loop (boardState : BoardState) (ls : list (nat * nat * nat))
  : option WinnerResult :=
  match ls with
  | [] => None
  | l :: rest =>
    if line_complete boardState l
    then let '(a, b, c) := l in
         Some {| winner := default None (boardState !! a);
                 line := Some [a; b; c] |}
    else checkWinner_loop boardState rest
  end.

(** [boardState.every((square) => square !== null)]. *)
Definition every_not_null (boardState : BoardState) : bool :=
  forallb (fun square => bool_decide (square <> None)) boardState.

Definition checkWinner (boardState : BoardState) : WinnerResult :=
  match checkWinner_loop boardState lines with
  | Some r => r
  | None =>
    (* Check for tie *)
    if every_not_null boardState
    then {| winner := None; line := None |}
    else {| winner := None; line := None |}
  end.

(** ** Candidate moves *)

(** [boardState.map((square, index) => square === null ? index : null)
      .filter((index) => index !== null)]. *)
Definition getAvailableMoves (boardState : BoardState) : list nat :=
  omap id
    (imap (fun index square =>
             match square with None => Some index | Some _ => None end)
          boardState).

(** ** The search *)

Record SearchResult := mkSearchResult {
  score : Num;
  move : option nat;
  tree : option TreeNode
}.

(** What the two [for (const move of availableMoves)] loops leave behind:
    [bestScore], [bestMove] and [node.children]. *)
Definition LoopResult : Type := Num * option nat * list TreeNode.

Section loops.
(** The recursive call. *)
Variable rec : BoardState -> Z -> bool -> Num -> Num -> option SearchResult.
Variable boardState : BoardState.
Variable depth : Z.

(** The loop of the maximizing branch; [alpha] is updated in place
    and [break] leaves the loop. *)
Fixpoint max_loop (availableMoves : list nat) (alpha beta bestScore : Num)
    (bestMove : option nat) (children : list TreeNode) : option LoopResult :=
  match availableMoves with
  | [] => Some (bestScore, bestMove, children)
  | move :: rest =>
    let newBoard := <[move := Some O]> boardState in
    match rec newBoard (depth - 1) false alpha beta with
    | None => None
    | Some r =>
      let childNode :=
        default (mkTreeNode newBoard (score r) (Some move) []) (tree r) in
      let children := children ++ [childNode] in
      let bestMove := if num_ltb bestScore (score r) then Some move else bestMove in
      let bestScore := if num_ltb bestScore (score r) then score r else bestScore in
      let alpha := num_max alpha bestScore in
      if num_leb beta alpha
      then Some (bestScore, bestMove, children)
      else max_loop rest alpha beta bestScore bestMove children
    end
  end.

(** The loop of the minimizing branch; [beta] is updated in place. *)
Fixpoint min_loop (availableMoves : list nat) (alpha beta bestScore : Num)
    (bestMove : option nat) (children : list TreeNode) : option LoopResult :=
  match availableMoves with
  | [] => Some (bestScore, bestMove, children)
  | move :: rest =>
    let newBoard := <[move := Some X]> boardState in
    match rec newBoard (depth - 1) true alpha beta with
    | None => None
    | Some r =>
      let childNode :=
        default (mkTreeNode newBoard (score r) (Some move) []) (tree r) in
      let children := children ++ [childNode] in
      let bestMove := if num_ltb (score r) bestScore then Some move else bestMove in
      let bestScore := if num_ltb (score r) bestScore then score r else bestScore in
      let beta := num_min beta bestScore in
      if num_leb beta alpha
      then Some (bestScore, bestMove, children)
      else min_loop rest alpha beta bestScore bestMove children
    end
  end.
End loops.

(** [minimax], by recursion on a bound on the number of nested calls.
    The source recurses without such a bound; every nested call is on a
    board with one more mark, so [S (number of empty cells)] is enough
    (see [minimax_fuel_enough] and [minimax_total]); [None] is "bound
    exhausted".  [depth] is any integer: a negative one never meets
    [depth === 0] and the search stops at the terminal boards only.
    [newBoard[move] = ...] writes inside the array, since [move] comes
    from [getAvailableMoves]. *)
Fixpoint minimax_fuel (fuel : nat) (boardState : BoardState) (depth : Z)
    (isMaximizing : bool) (alpha beta : Num) : option SearchResult :=
  match fuel with
  | 0%nat => None
  | S fuel' =>
    let w := winner (checkWinner boardState) in
    (* Terminal states *)
    if bool_decide (w = Some X) then Some (mkSearchResult SCORES_X None None)
    else if bool_decide (w = Some O) then Some (mkSearchResult SCORES_O None None)
    else if every_not_null boardState then Some (mkSearchResult SCORES_tie None None)
    else if bool_decide (depth = 0) then Some (mkSearchResult (Fin 0) None None)
    else
      let availableMoves := getAvailableMoves boardState in
      if isMaximizing then
        match max_loop (minimax_fuel fuel') boardState depth
                availableMoves alpha beta NegInf None [] with
        | None => None
        | Some (bestScore, bestMove, children) =>
          Some (mkSearchResult bestScore bestMove
                  (Some (mkTreeNode boardState bestScore bestMove children)))
        end
      else
        match min_loop (minimax_fuel fuel') boardState depth
                availableMoves alpha beta PosInf None [] with
        | None => None
        | Some (bestScore, bestMove, children) =>
          Some (mkSearchResult bestScore bestMove
                  (Some (mkTreeNode boardState bestScore bestMove children)))
        end
  end.

Definition minimax (boardState : BoardState) (depth : Z) (isMaximizing : bool)
    (alpha beta : Num) : option SearchResult :=
  minimax_fuel (S (length (getAvailableMoves boardState)))
    boardState depth isMaximizing alpha beta.

(** ** The search without pruning

    The same search with the bounds left at minus and plus infinity
    throughout: no bound is updated and no loop is left early.  Only the
    score and the move are kept. *)

Section noprune_loops.
Variable rec : BoardState -> Z -> bool -> option (Num * option nat).
Variable boardState : BoardState.
Variable depth : Z.

Fixpoint max_loop_noprune (availableMoves : list nat) (bestScore : Num)
    (bestMove : option nat) : option (Num * option nat) :=
  match availableMoves with
  | [] => Some (bestScore, bestMove)
  | move :: rest =>
    match rec (<[move := Some O]> boardState) (depth - 1) false with
    | None => None
    | Some (s, _) =>
      let bestMove := if num_ltb bestScore s then Some move else bestMove in
      let bestScore := if num_ltb bestScore s then s else bestScore in
      max_loop_noprune rest bestScore bestMove
    end
  end.

Fixpoint min_loop_noprune (availableMoves : list nat) (bestScore : Num)
    (bestMove : option nat) : option (Num * option nat) :=
  match availableMoves with
  | [] => Some (bestScore, bestMove)
  | move :: rest =>
    match rec (<[move := Some X]> boardState) (depth - 1) true with
    | None => None
    | Some (s, _) =>
      let bestMove := if num_ltb s bestScore then Some move else bestMove in
      let bestScore := if num_ltb s bestScore then s else bestScore in
      min_loop_noprune rest bestScore bestMove
    end
  end.
End noprune_loops.

Fixpoint minimax_noprune_fuel (fuel : nat) (boardState : BoardState) (depth : Z)
    (isMaximizing : bool) : option (Num * option nat) :=
  match fuel with
  | 0%nat => None
  | S fuel' =>
    let w := winner (checkWinner boardState) in
    if bool_decide (w = Some X) then Some (SCORES_X, None)
    else if bool_decide (w = Some O) then Some (SCORES_O, None)
    else if every_not_null boardState then Some (SCORES_tie, None)
    else if bool_decide (depth = 0) then Some (Fin 0, None)
    else
      let availableMoves := getAvailableMoves boardState in
      if isMaximizing
      then max_loop_noprune (minimax_noprune_fuel fuel') boardState depth
             availableMoves NegInf None
      else min_loop_noprune (minimax_noprune_fuel fuel') boardState depth
             availableMoves PosInf None
  end.

Definition minimax_noprune (boardState : BoardState) (depth : Z)
    (isMaximizing : bool) : option (Num * option nat) :=
  minimax_noprune_fuel (S (length (getAvailableMoves boardState)))
    boardState depth isMaximizing.

(** ** Legal play *)

Inductive GameStatus := playing | won | tie.

Global Instance GameStatus_eq_dec : EqDecision GameStatus.
Proof. solve_decision. Defined.

(** The state of the component that [makeMove] reads and sets. *)
Record Game := mkGame {
  board : BoardState;
  isXNext : bool;
  gameStatus : GameStatus;
  gameWinner : Player;
  winningLine : option (list nat)
}.

(** The state after [resetGame]. *)
Definition newGame : Game :=
  {| board := replicate 9 None; isXNext := true; gameStatus := playing;
     gameWinner := None; winningLine := None |}.

Definition makeMove (index : nat) (g : Game) : Game :=
  if truthy (board g !! index) || negb (bool_decide (gameStatus g = playing))
  then g
  else
    let newBoard := <[index := Some (if isXNext g then X else O)]> (board g) in
    let r := checkWinner newBoard in
    match winner r with
    | Some _ =>
      {| board := newBoard; isXNext := isXNext g; gameStatus := won;
         gameWinner := winner r; winningLine := line r |}
    | None =>
      if every_not_null newBoard
      then {| board := newBoard; isXNext := isXNext g; gameStatus := tie;
              gameWinner := gameWinner g; winningLine := winningLine g |}
      else {| board := newBoard; isXNext := negb (isXNext g);
              gameStatus := gameStatus g;
              gameWinner := gameWinner g; winningLine := winningLine g |}
    end.

(** The games reached from a new game by moves on the nine cells. *)
Inductive reachable : Game -> Prop :=
  | reachable_new : reachable newGame
  | reachable_move g index :
      reachable g -> (index < 9)%nat -> reachable (makeMove index g).

(** ** The search on a store of arrays

    In the source a board is an array that is passed by reference:
    [[...boardState]] allocates a new array, [newBoard[move] = "O"] writes
    into one, and a tree node keeps a reference to its board.  Here the
    arrays live in a store and boards are addresses. *)

Record Store := mkStore {
  arrays : gmap nat BoardState;
  (** The arrays [minimax] has been called on, oldest first.  Not a
      variable of the source: kept to state on which arrays the nested
      calls work. *)
  calls : list nat
}.

#[local] Unset Elimination Schemes.
Inductive TreeNodeRef := mkTreeNodeRef {
  ref_board : nat;
  ref_score : Num;
  ref_move : option nat;
  ref_children : list TreeNodeRef
}.
#[local] Set Elimination Schemes.

Record SearchResultRef := mkSearchResultRef {
  rscore : Num;
  rmove : option nat;
  rtree : option TreeNodeRef
}.

(** [[...arr]]: a new array with the cells of the array at [l]. *)
Definition copyArray (l : nat) (st : Store) : option (nat * Store) :=
  cells ← arrays st !! l;
  let l' := fresh (dom (arrays st)) in
  Some (l', mkStore (<[l' := cells]> (arrays st)) (calls st)).

(** [arr[i] = v]. *)
Definition setCell (l i : nat) (v : Player) (st : Store) : option Store :=
  cells ← arrays st !! l;
  Some (mkStore (<[l := <[i := v]> cells]> (arrays st)) (calls st)).

Definition logCall (l : nat) (st : Store) : Store :=
  mkStore (arrays st) (calls st ++ [l]).

Section loops_st.
Variable rec :
  nat -> Z -> bool -> Num -> Num -> Store -> option (SearchResultRef * Store).
Variable boardState : nat.
Variable depth : Z.

Fixpoint max_loop_st (availableMoves : list nat) (alpha beta bestScore : Num)
    (bestMove : option nat) (children : list TreeNodeRef) (st : Store)
  : option (Num * option nat * list TreeNodeRef * Store) :=
  match availableMoves with
  | [] => Some (bestScore, bestMove, children, st)
  | move :: rest =>
    '(newBoard, st) ← copyArray boardState st;
    st ← setCell newBoard move (Some O) st;
    '(r, st) ← rec newBoard (depth - 1) false alpha beta st;
    let childNode :=
      default (mkTreeNodeRef newBoard (rscore r) (Some move) []) (rtree r) in
    let children := children ++ [childNode] in
    let bestMove := if num_ltb bestScore (rscore r) then Some move else bestMove in
    let bestScore := if num_ltb bestScore (rscore r) then rscore r else bestScore in
    let alpha := num_max alpha bestScore in
    if num_leb beta alpha
    then Some (bestScore, bestMove, children, st)
    else max_loop_st rest alpha beta bestScore bestMove children st
  end.

Fixpoint min_loop_st (availableMoves : list nat) (alpha beta bestScore : Num)
    (bestMove : option nat) (children : list TreeNodeRef) (st : Store)
  : option (Num * option nat * list TreeNodeRef * Store) :=
  match availableMoves with
  | [] => Some (bestScore, bestMove, children, st)
  | move :: rest =>
    '(newBoard, st) ← copyArray boardState st;
    st ← setCell newBoard move (Some X) st;
    '(r, st) ← rec newBoard (depth - 1) true alpha beta st;
    let childNode :=
      default (mkTreeNodeRef newBoard (rscore r) (Some move) []) (rtree r) in
    let children := children ++ [childNode] in
    let bestMove := if num_ltb (rscore r) bestScore then Some move else bestMove in
    let bestScore := if num_ltb (rscore r) bestScore then rscore r else bestScore in
    let beta := num_min beta bestScore in
    if num_leb beta alpha
    then Some (bestScore, bestMove, children, st)
    else min_loop_st rest alpha beta bestScore bestMove children st
  end.
End loops_st.

Fixpoint minimax_st_fuel (fuel : nat) (boardState : nat) (depth : Z)
    (isMaximizing : bool) (alpha beta : Num) (st : Store)
  : option (SearchResultRef * Store) :=
  match fuel with
  | 0%nat => None
  | S fuel' =>
    let st := logCall boardState st in
    cells ← arrays st !! boardState;
    let w := winner (checkWinner cells) in
    if bool_decide (w = Some X) then Some (mkSearchResultRef SCORES_X None None, st)
    else if bool_decide (w = Some O) then Some (mkSearchResultRef SCORES_O None None, st)
    else if every_not_null cells then Some (mkSearchResultRef SCORES_tie None None, st)
    else if bool_decide (depth = 0) then Some (mkSearchResultRef (Fin 0) None None, st)
    else
      let availableMoves := getAvailableMoves cells in
      '(nodeBoard, st) ← copyArray boardState st;
      if isMaximizing then
        '(bestScore, bestMove, children, st) ←
          max_loop_st (minimax_st_fuel fuel') boardState depth
            availableMoves alpha beta NegInf None [] st;
        Some (mkSearchResultRef bestScore bestMove
                (Some (mkTreeNodeRef nodeBoard bestScore bestMove children)), st)
      else
        '(bestScore, bestMove, children, st) ←
          min_loop_st (minimax_st_fuel fuel') boardState depth
            availableMoves alpha beta PosInf None [] st;
        Some (mkSearchResultRef bestScore bestMove
                (Some (mkTreeNodeRef nodeBoard bestScore bestMove children)), st)
  end.

Definition minimax_st (boardState : nat) (depth : Z) (isMaximizing : bool)
    (alpha beta : Num) (st : Store) : option (SearchResultRef * Store) :=
  cells ← arrays st !! boardState;
  minimax_st_fuel (S (length (getAvailableMoves cells)))
    boardState depth isMaximizing alpha beta st.

(** The tree of boards that a tree of addresses stands for in a store. *)
Fixpoint deref (h : gmap nat BoardState) (t : TreeNodeRef) : option TreeNode :=
  cells ← h !! ref_board t;
  children ← mapM (deref h) (ref_children t);
  Some (mkTreeNode cells (ref_score t) (ref_move t) children).

(** ** Concrete boards *)

(** [Array(9).fill(null)]. *)
Definition emptyBoard : BoardState := replicate 9 None.

(** O has two in the top row, X two in the middle row. *)
Definition fixture : BoardState :=
  [Some O; Some O; None; Some X; Some X; None; None; None; None].

(** ** Notions used in the statements *)

(** The number of empty cells. *)
Fixpoint count_null (b : BoardState) : nat :=
  match b with
  | [] => 0
  | None :: b => S (count_null b)
  | Some _ :: b => count_null b
  end.

(** The three scores of [SCORES]. *)
Definition is_score (s : Num) : Prop :=
  s = Fin (-10) \/ s = Fin 0 \/ s = Fin 10.

(** The best score is one of the three scores and the best move is one
    of the candidates [M]. *)
Definition best_ok (M : list nat) (bs : Num) (bm : option nat) : Prop :=
  is_score bs /\ exists m, bm = Some m /\ m ∈ M.

(** The test that comes first in [minimax]: a winner, or a full board. *)
Definition terminal (b : BoardState) : bool :=
  bool_decide (winner (checkWinner b) = Some X)
  || bool_decide (winner (checkWinner b) = Some O)
  || every_not_null b.

(** A number as an integer, the infinities just outside [[lo, hi]]. *)
Definition emb (lo hi : Z) (a : Num) : Z :=
  match a with
  | NegInf => lo - 1
  | Fin z => z
  | PosInf => hi + 1
  end.

(** A finite number lies in [[lo, hi]]. *)
Definition bounded (lo hi : Z) (a : Num) : Prop :=
  match a with
  | Fin z => lo <= z <= hi
  | _ => True
  end.

(** What a search in the window [(alpha, beta)] with result [r] says of
    the score [v] of the search without pruning: [r] is [v] inside the
    window, an upper bound of [v] at or below [alpha], a lower bound at
    or above [beta]. *)
Definition ab_ok (alpha beta r v : Num) : Prop :=
  (num_leb r alpha = true -> num_leb v r = true) /\
  (num_leb beta r = true -> num_leb r v = true) /\
  (num_ltb alpha r = true -> num_ltb r beta = true -> r = v).

(** [ab_ok] on integers. *)
Definition ab_okZ (alpha beta r v : Z) : Prop :=
  (r <= alpha -> v <= r) /\
  (beta <= r -> r <= v) /\
  (alpha < r -> r < beta -> r = v).

(** The three cells of line [l] hold the mark [s]. *)
Definition three_in_row (b : BoardState) (l : nat * nat * nat) (s : Mark) : Prop :=
  b !! l.1.1 = Some (Some s) /\ b !! l.1.2 = Some (Some s) /\ b !! l.2 = Some (Some s).

(** The array [[a, b, c]] that [checkWinner] returns for a line. *)
Definition line_cells (l : nat * nat * nat) : list nat := [l.1.1; l.1.2; l.2].

(** Full, no line. *)
Definition tieBoard : BoardState :=
  [Some X; Some O; Some X; Some X; Some O; Some O; Some O; Some X; Some X].

(** The top row is O's, the middle row is X's. *)
Definition bothLinesBoard : BoardState :=
  [Some O; Some O; Some O; Some X; Some X; Some X; None; None; None].

(** The top row is X's. *)
Definition xWinsBoard : BoardState :=
  [Some X; Some X; Some X; Some O; Some O; None; None; None; None].

(** Two empty cells, O to move. *)
Definition lateBoard : BoardState :=
  [Some X; Some O; Some X; Some X; Some O; Some O; None; Some X; None].


(** Induction on trees of addresses, with the children of a node. *)
Fixpoint TreeNodeRef_nested_ind (P : TreeNodeRef -> Prop)
    (H : forall b s m ch, Forall P ch -> P (mkTreeNodeRef b s m ch))
    (t : TreeNodeRef) : P t :=
  match t with
  | mkTreeNodeRef b s m ch =>
    H b s m ch
      ((fix go (l : list TreeNodeRef) : Forall P l :=
          match l with
          | [] => @List.Forall_nil _ P
          | x :: l' => @List.Forall_cons _ P x l' (TreeNodeRef_nested_ind P H x) (go l')
          end) ch)
  end.

(** The result that a result over addresses stands for in a store. *)
Definition deref_result (h : gmap nat BoardState) (r : SearchResultRef)
  : option SearchResult :=
  match rtree r with
  | None => Some (mkSearchResult (rscore r) (rmove r) None)
  | Some t => t' ← deref h t; Some (mkSearchResult (rscore r) (rmove r) (Some t'))
  end.

(** What a call on the array [l] does to the store: the arrays that
    exist keep their cells, and after [l] itself only arrays that did not
    exist before are called on. *)
Definition call_frame (l : nat) (st st' : Store) : Prop :=
  arrays st ⊆ arrays st' /\
  exists ls, calls st' = calls st ++ l :: ls /\
             Forall (fun l' => arrays st !! l' = None) ls.

(** The same for the iterations of a loop. *)
Definition loop_frame (st st' : Store) : Prop :=
  arrays st ⊆ arrays st' /\
  exists ls, calls st' = calls st ++ ls /\
             Forall (fun l' => arrays st !! l' = None) ls.

(** A store with the fixture at address 0 and no call made yet. *)
Definition fixtureStore : Store := mkStore {[ 0%nat := fixture ]} [].

(** ** The player's click and the bot's turn *)

(** [type Difficulty = "Easy" | "Medium" | "Hard"]. *)
Inductive Difficulty := Easy | Medium | Hard.

(** The state of the component that the bot's turn reads and sets,
    around the state of the game. *)
Record App := mkApp {
  game : Game;
  difficulty : Difficulty;
  botTree : option TreeNode
}.

(** [handlePlayerClick]. *)
Definition handlePlayerClick (index : nat) (g : Game) : Game :=
  if isXNext g && bool_decide (gameStatus g = playing)
     && negb (truthy (board g !! index))
  then makeMove index g
  else g.

(** The [switch (difficulty)] of [makeBotMove]. *)
Definition botDepth (d : Difficulty) : Z :=
  match d with
  | Easy => 2
  | Medium => 3
  | Hard => 4
  end.

(** [makeBotMove].  [random] stands for the draw of [Math.random()]:
    [Math.floor(Math.random() * n)] is some index below [n], here
    [random mod n].  [None] is only the exhausted bound of [minimax]. *)
Definition makeBotMove (random : nat) (a : App) : option App :=
  if negb (bool_decide (gameStatus (game a) = playing)) then Some a
  else
    let availableMoves := getAvailableMoves (board (game a)) in
    if bool_decide (length availableMoves = 0%nat) then Some a
    else
      let depth := botDepth (difficulty a) in
      r ← minimax (board (game a)) depth true NegInf PosInf;
      match move r with
      | Some m =>
        Some (mkApp (makeMove m (game a)) (difficulty a) (tree r))
      | None =>
        if bool_decide (0 < length availableMoves)%nat
        then
          match availableMoves !! (random `mod` length availableMoves)%nat with
          | Some randomMove =>
            Some (mkApp (makeMove randomMove (game a)) (difficulty a) (tree r))
          | None => Some (mkApp (game a) (difficulty a) (tree r))
          end
        else Some (mkApp (game a) (difficulty a) (tree r))
      end.

(** The effect that runs the bot's turn once its delay has passed. *)
Definition botTurn (random : nat) (a : App) : option App :=
  if negb (isXNext (game a)) && bool_decide (gameStatus (game a) = playing)
  then makeBotMove random a
  else Some a.

(** [resetGame], behind the New Game button. *)
Definition resetGame (a : App) : App :=
  mkApp newGame (difficulty a) None.

(** The [onValueChange] of the difficulty buttons. *)
Definition changeDifficulty (d : Difficulty) (a : App) : App :=
  if negb (bool_decide (gameStatus (game a) = playing))
  then resetGame (mkApp (game a) d (botTree a))
  else mkApp (game a) d (botTree a).

(** The states of the component in use: from a new game, clicks on the
    nine cells, turns of the bot, new games and changes of difficulty. *)
Inductive playable : App -> Prop :=
  | playable_new d : playable (mkApp newGame d None)
  | playable_click a index :
      playable a -> (index < 9)%nat ->
      playable (mkApp (handlePlayerClick index (game a)) (difficulty a) (botTree a))
  | playable_bot a random a' :
      playable a -> botTurn random a = Some a' -> playable a'
  | playable_reset a : playable a -> playable (resetGame a)
  | playable_difficulty a d : playable a -> playable (changeDifficulty d a).

(** ** The display of the tree *)

(** [node.board.filter((cell) => cell !== null).length % 2 === 0]. *)
Definition isMaximizingNode (node : TreeNode) : bool :=
  bool_decide
    ((length (filter (fun cell => cell <> None) (node_board node)) `mod` 2)%nat = 0%nat).

(** The callback of the [reduce] of [bestChildIndex]; [None] is the
    [TypeError] of reading [.score] of a missing [arr[bestIdx]]. *)
Definition bestChildStep (node : TreeNode) (arr : list TreeNode)
    (bestIdx : option nat) (idx : nat) (child : TreeNode) : option nat :=
  bestIdx ← bestIdx;
  best ← arr !! bestIdx;
  if isMaximizingNode node
  then Some (if num_ltb (node_score best) (node_score child) then idx else bestIdx)
  else Some (if num_ltb (node_score child) (node_score best) then idx else bestIdx).

(** [arr.reduce(callback, 0)], from the element at [idx]. *)
Fixpoint reduceFrom (node : TreeNode) (arr : list TreeNode)
    (rest : list TreeNode) (idx : nat) (bestIdx : option nat) : option nat :=
  match rest with
  | [] => bestIdx
  | child :: rest' =>
    reduceFrom node arr rest' (S idx) (bestChildStep node arr bestIdx idx child)
  end.

(** [bestChildIndex] of the [TreeNode] component. *)
Definition bestChildIndex (node : TreeNode) : option Z :=
  if bool_decide (0 < length (node_children node))%nat
  then Z.of_nat <$> reduceFrom node (node_children node) (node_children node) 0 (Some 0%nat)
  else Some (-1).

(** The comparison of the callback: whether a child with score [y]
    replaces a best child with score [x]. *)
Definition replaces (node : TreeNode) (x y : Num) : bool :=
  if isMaximizingNode node then num_ltb x y else num_ltb y x.

(** ** Notions used in the further statements *)

(** The number of cells that hold the mark [s]. *)
Fixpoint count_mark (s : Mark) (b : BoardState) : nat :=
  match b with
  | [] => 0
  | Some s' :: b => (if bool_decide (s' = s) then 1 else 0) + count_mark s b
  | None :: b => count_mark s b
  end.

(** The mark that the maximizing ([true]) or minimizing side places. *)
Definition side_mark (isMaximizing : bool) : Mark :=
  if isMaximizing then O else X.

(** The depth budget [d] never runs out on [b]: it covers the empty
    cells, or it is negative and never meets zero. *)
Definition never_cut (b : BoardState) (d : Z) : Prop :=
  Z.of_nat (count_null b) <= d \/ d < 0.

(** What holds of the games of legal play. *)
Definition game_inv (g : Game) : Prop :=
  length (board g) = 9%nat /\
  match gameStatus g with
  | playing =>
    (forall l s, l ∈ lines -> ~ three_in_row (board g) l s) /\
    every_not_null (board g) = false /\
    count_mark X (board g)
    = (count_mark O (board g) + (if isXNext g then 0 else 1))%nat /\
    gameWinner g = None
  | won =>
    gameWinner g = Some (if isXNext g then X else O) /\
    checkWinner (board g) = {| winner := gameWinner g; line := winningLine g |} /\
    (forall l s, l ∈ lines -> three_in_row (board g) l s ->
                 s = if isXNext g then X else O) /\
    count_mark X (board g)
    = (count_mark O (board g) + (if isXNext g then 1 else 0))%nat
  | tie =>
    (forall l s, l ∈ lines -> ~ three_in_row (board g) l s) /\
    every_not_null (board g) = true /\
    count_mark X (board g)
    = (count_mark O (board g) + (if isXNext g then 1 else 0))%nat /\
    gameWinner g = None
  end.

(** The addresses of the boards of the nodes of a tree. *)
Fixpoint tree_addrs (t : TreeNodeRef) : list nat :=
  ref_board t :: flat_map tree_addrs (ref_children t).

(** The addresses [ls] are pairwise distinct, are not addresses of
    arrays of [st], and are addresses of arrays of [st']. *)
Definition new_addrs (st st' : Store) (ls : list nat) : Prop :=
  NoDup ls /\
  Forall (fun l' => arrays st !! l' = None /\ is_Some (arrays st' !! l')) ls.

(** A game that X wins on the top row with the fifth move. *)
Definition wonGame : Game :=
  makeMove 2 (makeMove 4 (makeMove 1 (makeMove 3 (makeMove 0 newGame)))).

(** A game played to a full board without a complete line. *)
Definition tiedGame : Game :=
  makeMove 8 (makeMove 6 (makeMove 7 (makeMove 5 (makeMove 3
    (makeMove 4 (makeMove 2 (makeMove 1 (makeMove 0 newGame)))))))).

(** * Properties *)

(** ** Candidate moves *)

Lemma getAvailableMoves_length_gen (g : nat -> nat) (b : BoardState) :
  length (omap id (imap (fun index (square : Player) =>
            match square with None => Some (g index) | Some _ => None end) b))
  = count_null b.
Proof.
  revert g. induction b as [|sq b IH]; intros g; [done|].
  cbn [imap]. specialize (IH (g ∘ S)). destruct sq as [mk|]; cbn.
  - exact IH.
  - f_equal. exact IH.
Qed.

Lemma getAvailableMoves_length (b : BoardState) :
  length (getAvailableMoves b) = count_null b.
Proof. apply (getAvailableMoves_length_gen (fun i => i)). Qed.

Lemma elem_of_getAvailableMoves (b : BoardState) (m : nat) :
  m ∈ getAvailableMoves b <-> b !! m = Some None.
Proof.
  unfold getAvailableMoves. rewrite list_elem_of_omap. split.
  - intros (x & Hx & Hid). apply elem_of_lookup_imap in Hx as (i & sq & -> & Hi).
    destruct sq; simplify_eq/=. done.
  - intros Hm. exists (Some m). split; [|done].
    apply elem_of_lookup_imap. exists m, None. done.
Qed.

Lemma count_null_insert (b : BoardState) (m : nat) (s : Mark) :
  b !! m = Some None ->
  S (count_null (<[m := Some s]> b)) = count_null b.
Proof.
  revert m. induction b as [|sq b IH]; intros m Hm; [done|].
  destruct m as [|m]; simplify_eq/=; [done|].
  destruct sq; cbn; rewrite <- (IH m Hm); done.
Qed.

Lemma every_not_null_false (b : BoardState) :
  every_not_null b = false <-> exists m, b !! m = Some None.
Proof.
  unfold every_not_null. induction b as [|sq b IH]; cbn.
  - split; [done|]. intros [m Hm]. done.
  - destruct sq as [mk|]; cbn.
    + rewrite IH. split.
      * intros [m Hm]. exists (S m). done.
      * intros [[|m] Hm]; simplify_eq/=. eauto.
    + split; [|done]. intros _. exists 0%nat. done.
Qed.

Lemma every_not_null_moves (b : BoardState) :
  every_not_null b = false -> getAvailableMoves b <> [].
Proof.
  intros [m Hm]%every_not_null_false Hnil.
  apply elem_of_getAvailableMoves in Hm. rewrite Hnil in Hm. by apply elem_of_nil in Hm.
Qed.

(** ** The loops depend on the nested calls they make *)

Section loop_ext.
Context (rec rec' : BoardState -> Z -> bool -> Num -> Num -> option SearchResult).
Context (b : BoardState) (d d' : Z).

Lemma max_loop_ext moves alpha beta bs bm ch :
  (forall m a be, m ∈ moves ->
     rec (<[m := Some O]> b) (d - 1) false a be
     = rec' (<[m := Some O]> b) (d' - 1) false a be) ->
  max_loop rec b d moves alpha beta bs bm ch
  = max_loop rec' b d' moves alpha beta bs bm ch.
Proof.
  revert alpha bs bm ch.
  induction moves as [|m moves IH]; intros alpha bs bm ch Hrec; [done|].
  cbn. rewrite (Hrec m alpha beta) by apply list_elem_of_here.
  destruct (rec' _ _ _ _ _) as [r|]; [|done].
  destruct (num_leb _ _); [done|].
  apply IH. intros m' a be Hm'. apply Hrec. by apply list_elem_of_further.
Qed.

Lemma min_loop_ext moves alpha beta bs bm ch :
  (forall m a be, m ∈ moves ->
     rec (<[m := Some X]> b) (d - 1) true a be
     = rec' (<[m := Some X]> b) (d' - 1) true a be) ->
  min_loop rec b d moves alpha beta bs bm ch
  = min_loop rec' b d' moves alpha beta bs bm ch.
Proof.
  revert beta bs bm ch.
  induction moves as [|m moves IH]; intros beta bs bm ch Hrec; [done|].
  cbn. rewrite (Hrec m alpha beta) by apply list_elem_of_here.
  destruct (rec' _ _ _ _ _) as [r|]; [|done].
  destruct (num_leb _ _); [done|].
  apply IH. intros m' a be Hm'. apply Hrec. by apply list_elem_of_further.
Qed.
End loop_ext.

Section loop_total.
Context (rec : BoardState -> Z -> bool -> Num -> Num -> option SearchResult).
Context (b : BoardState) (d : Z).

Lemma max_loop_total moves alpha beta bs bm ch :
  (forall m a be, m ∈ moves ->
     is_Some (rec (<[m := Some O]> b) (d - 1) false a be)) ->
  is_Some (max_loop rec b d moves alpha beta bs bm ch).
Proof.
  revert alpha bs bm ch.
  induction moves as [|m moves IH]; intros alpha bs bm ch Hrec; [by eexists|].
  cbn. destruct (Hrec m alpha beta) as [r ->]; [apply list_elem_of_here|].
  destruct (num_leb _ _); [by eexists|].
  apply IH. intros m' a be Hm'. apply Hrec. by apply list_elem_of_further.
Qed.

Lemma min_loop_total moves alpha beta bs bm ch :
  (forall m a be, m ∈ moves ->
     is_Some (rec (<[m := Some X]> b) (d - 1) true a be)) ->
  is_Some (min_loop rec b d moves alpha beta bs bm ch).
Proof.
  revert beta bs bm ch.
  induction moves as [|m moves IH]; intros beta bs bm ch Hrec; [by eexists|].
  cbn. destruct (Hrec m alpha beta) as [r ->]; [apply list_elem_of_here|].
  destruct (num_leb _ _); [by eexists|].
  apply IH. intros m' a be Hm'. apply Hrec. by apply list_elem_of_further.
Qed.
End loop_total.

(** ** The bound on nested calls is never reached *)

Lemma count_null_move (b : BoardState) (m : nat) (s : Mark) :
  m ∈ getAvailableMoves b ->
  S (count_null (<[m := Some s]> b)) = count_null b.
Proof. intros Hm. apply count_null_insert. by apply elem_of_getAvailableMoves. Qed.

Lemma minimax_fuel_indep (f1 f2 : nat) (b : BoardState) (d : Z) (isMax : bool)
    (alpha beta : Num) :
  (count_null b < f1)%nat -> (count_null b < f2)%nat ->
  minimax_fuel f1 b d isMax alpha beta = minimax_fuel f2 b d isMax alpha beta.
Proof.
  revert f2 b d isMax alpha beta.
  induction f1 as [|f1 IH]; intros f2 b d isMax alpha beta H1 H2; [lia|].
  destruct f2 as [|f2]; [lia|]. cbn.
  repeat (case_match; [done|]).
  destruct isMax.
  - rewrite (max_loop_ext (minimax_fuel f1) (minimax_fuel f2) b d d); [done|].
    intros m a be Hm. pose proof (count_null_move b m O Hm). apply IH; lia.
  - rewrite (min_loop_ext (minimax_fuel f1) (minimax_fuel f2) b d d); [done|].
    intros m a be Hm. pose proof (count_null_move b m X Hm). apply IH; lia.
Qed.

Lemma minimax_fuel_total (f : nat) (b : BoardState) (d : Z) (isMax : bool)
    (alpha beta : Num) :
  (count_null b < f)%nat -> is_Some (minimax_fuel f b d isMax alpha beta).
Proof.
  revert b d isMax alpha beta.
  induction f as [|f IH]; intros b d isMax alpha beta Hf; [lia|]. cbn.
  repeat (case_match; [by eexists|]).
  destruct isMax.
  - destruct (max_loop_total (minimax_fuel f) b d (getAvailableMoves b)
                alpha beta NegInf None []) as [[[bs bm] ch] ->]; [|by eexists].
    intros m a be Hm. pose proof (count_null_move b m O Hm). apply IH; lia.
  - destruct (min_loop_total (minimax_fuel f) b d (getAvailableMoves b)
                alpha beta PosInf None []) as [[[bs bm] ch] ->]; [|by eexists].
    intros m a be Hm. pose proof (count_null_move b m X Hm). apply IH; lia.
Qed.

(** With a bound above the number of empty cells the result is that of
    [minimax]. *)
Lemma minimax_fuel_enough (f : nat) (b : BoardState) (d : Z) (isMax : bool)
    (alpha beta : Num) :
  (count_null b < f)%nat ->
  minimax_fuel f b d isMax alpha beta = minimax b d isMax alpha beta.
Proof.
  intros Hf. unfold minimax. apply minimax_fuel_indep; [done|].
  rewrite getAvailableMoves_length. lia.
Qed.

Lemma minimax_total (b : BoardState) (d : Z) (isMax : bool) (alpha beta : Num) :
  is_Some (minimax b d isMax alpha beta).
Proof.
  apply minimax_fuel_total. rewrite getAvailableMoves_length. lia.
Qed.

(** The equation of [minimax]: the body of the source function, with
    [minimax] itself at the nested calls. *)
Lemma minimax_unfold (b : BoardState) (d : Z) (isMax : bool) (alpha beta : Num) :
  minimax b d isMax alpha beta =
  let w := winner (checkWinner b) in
  if bool_decide (w = Some X) then Some (mkSearchResult SCORES_X None None)
  else if bool_decide (w = Some O) then Some (mkSearchResult SCORES_O None None)
  else if every_not_null b then Some (mkSearchResult SCORES_tie None None)
  else if bool_decide (d = 0) then Some (mkSearchResult (Fin 0) None None)
  else if isMax then
    '(bestScore, bestMove, children) ←
      max_loop minimax b d (getAvailableMoves b) alpha beta NegInf None [];
    Some (mkSearchResult bestScore bestMove
            (Some (mkTreeNode b bestScore bestMove children)))
  else
    '(bestScore, bestMove, children) ←
      min_loop minimax b d (getAvailableMoves b) alpha beta PosInf None [];
    Some (mkSearchResult bestScore bestMove
            (Some (mkTreeNode b bestScore bestMove children))).
Proof.
  unfold minimax at 1. cbn.
  repeat (case_match; [done|]).
  destruct isMax.
  - rewrite (max_loop_ext _ minimax b d d); [by destruct (max_loop _ _ _ _ _ _ _ _ _) as [[[??]?]|]|].
    intros m a be Hm. apply minimax_fuel_enough.
    pose proof (count_null_move b m O Hm). rewrite getAvailableMoves_length. lia.
  - rewrite (min_loop_ext _ minimax b d d); [by destruct (min_loop _ _ _ _ _ _ _ _ _) as [[[??]?]|]|].
    intros m a be Hm. apply minimax_fuel_enough.
    pose proof (count_null_move b m X Hm). rewrite getAvailableMoves_length. lia.
Qed.

(** ** A depth budget that covers the empty cells is never exhausted *)

Lemma every_not_null_count (b : BoardState) :
  every_not_null b = false -> (0 < count_null b)%nat.
Proof.
  intros Hb%every_not_null_moves. rewrite <- getAvailableMoves_length.
  destruct (getAvailableMoves b); [done|cbn; lia].
Qed.

Lemma minimax_fuel_depth_sat (f : nat) (b : BoardState) (d1 d2 : Z)
    (isMax : bool) (alpha beta : Num) :
  Z.of_nat (count_null b) <= d1 -> Z.of_nat (count_null b) <= d2 ->
  minimax_fuel f b d1 isMax alpha beta = minimax_fuel f b d2 isMax alpha beta.
Proof.
  revert b d1 d2 isMax alpha beta.
  induction f as [|f IH]; intros b d1 d2 isMax alpha beta H1 H2; [done|]. cbn.
  repeat (case_match; [done|]).
  match goal with H : every_not_null b = false |- _ =>
    pose proof (every_not_null_count b H) end.
  rewrite !bool_decide_false by lia.
  destruct isMax.
  - rewrite (max_loop_ext (minimax_fuel f) (minimax_fuel f) b d1 d2); [done|].
    intros m a be Hm. pose proof (count_null_move b m O Hm). apply IH; lia.
  - rewrite (min_loop_ext (minimax_fuel f) (minimax_fuel f) b d1 d2); [done|].
    intros m a be Hm. pose proof (count_null_move b m X Hm). apply IH; lia.
Qed.

Lemma minimax_depth_sat (b : BoardState) (d1 d2 : Z) (isMax : bool)
    (alpha beta : Num) :
  Z.of_nat (count_null b) <= d1 -> Z.of_nat (count_null b) <= d2 ->
  minimax b d1 isMax alpha beta = minimax b d2 isMax alpha beta.
Proof. apply minimax_fuel_depth_sat. Qed.

(** ** Scores and moves that the search returns *)

Section loop_best.
Context (rec : BoardState -> Z -> bool -> Num -> Num -> option SearchResult).
Context (b : BoardState) (d : Z) (M : list nat).

Lemma max_loop_best moves alpha beta bs bm ch bs' bm' ch' :
  (forall m a be r, m ∈ moves ->
     rec (<[m := Some O]> b) (d - 1) false a be = Some r -> is_score (score r)) ->
  moves ⊆ M ->
  bs = NegInf \/ best_ok M bs bm ->
  moves <> [] \/ best_ok M bs bm ->
  max_loop rec b d moves alpha beta bs bm ch = Some (bs', bm', ch') ->
  best_ok M bs' bm'.
Proof.
  revert alpha bs bm ch.
  induction moves as [|m moves IH]; intros alpha bs bm ch Hrec HM Hst Hne Hloop.
  - cbn in Hloop. simplify_eq. by destruct Hne.
  - cbn in Hloop.
    destruct (rec _ _ _ _ _) as [r|] eqn:Hr; [|done].
    assert (is_score (score r)) as Hs.
    { eapply Hrec; [apply list_elem_of_here|exact Hr]. }
    assert (best_ok M (if num_ltb bs (score r) then score r else bs)
              (if num_ltb bs (score r) then Some m else bm)) as Hnew.
    { destruct (num_ltb bs (score r)) eqn:Hlt.
      - split; [done|]. exists m. split; [done|]. apply HM, list_elem_of_here.
      - destruct Hst as [->|Hok]; [|done].
        destruct Hs as [Hs|[Hs|Hs]]; rewrite Hs in Hlt; done. }
    destruct (num_leb _ _); [by simplify_eq|].
    eapply IH; [| |right; exact Hnew|right; exact Hnew|exact Hloop].
    + intros m' a be r' Hm'. apply Hrec. by apply list_elem_of_further.
    + intros m' Hm'. apply HM. by apply list_elem_of_further.
Qed.

Lemma min_loop_best moves alpha beta bs bm ch bs' bm' ch' :
  (forall m a be r, m ∈ moves ->
     rec (<[m := Some X]> b) (d - 1) true a be = Some r -> is_score (score r)) ->
  moves ⊆ M ->
  bs = PosInf \/ best_ok M bs bm ->
  moves <> [] \/ best_ok M bs bm ->
  min_loop rec b d moves alpha beta bs bm ch = Some (bs', bm', ch') ->
  best_ok M bs' bm'.
Proof.
  revert beta bs bm ch.
  induction moves as [|m moves IH]; intros beta bs bm ch Hrec HM Hst Hne Hloop.
  - cbn in Hloop. simplify_eq. by destruct Hne.
  - cbn in Hloop.
    destruct (rec _ _ _ _ _) as [r|] eqn:Hr; [|done].
    assert (is_score (score r)) as Hs.
    { eapply Hrec; [apply list_elem_of_here|exact Hr]. }
    assert (best_ok M (if num_ltb (score r) bs then score r else bs)
              (if num_ltb (score r) bs then Some m else bm)) as Hnew.
    { destruct (num_ltb (score r) bs) eqn:Hlt.
      - split; [done|]. exists m. split; [done|]. apply HM, list_elem_of_here.
      - destruct Hst as [->|Hok]; [|done].
        destruct Hs as [Hs|[Hs|Hs]]; rewrite Hs in Hlt; done. }
    destruct (num_leb _ _); [by simplify_eq|].
    eapply IH; [| |right; exact Hnew|right; exact Hnew|exact Hloop].
    + intros m' a be r' Hm'. apply Hrec. by apply list_elem_of_further.
    + intros m' Hm'. apply HM. by apply list_elem_of_further.
Qed.
End loop_best.

Lemma minimax_fuel_result (f : nat) (b : BoardState) (d : Z) (isMax : bool)
    (alpha beta : Num) (r : SearchResult) :
  minimax_fuel f b d isMax alpha beta = Some r ->
  is_score (score r) /\
  (if terminal b || bool_decide (d = 0)
   then move r = None /\ tree r = None
   else best_ok (getAvailableMoves b) (score r) (move r)).
Proof.
  revert b d isMax alpha beta r.
  induction f as [|f IH]; intros b d isMax alpha beta r Hr; [done|].
  cbn in Hr. unfold terminal.
  destruct (bool_decide (winner (checkWinner b) = Some X));
    [simplify_eq; cbn; unfold is_score, SCORES_X; auto|].
  destruct (bool_decide (winner (checkWinner b) = Some O));
    [simplify_eq; cbn; unfold is_score, SCORES_O; auto|].
  destruct (every_not_null b) eqn:Hfull;
    [simplify_eq; cbn; unfold is_score, SCORES_tie; auto|].
  destruct (bool_decide (d = 0));
    [simplify_eq; cbn; unfold is_score; auto|].
  cbn. apply every_not_null_moves in Hfull.
  destruct isMax.
  - destruct (max_loop _ _ _ _ _ _ _ _ _) as [[[bs bm] ch]|] eqn:Hloop; [|done].
    simplify_eq. cbn.
    assert (best_ok (getAvailableMoves b) bs bm) as Hok; [|by destruct Hok].
    eapply max_loop_best; [| |left; reflexivity|left; exact Hfull|exact Hloop].
    + intros m a be r _ Hr. by apply IH in Hr as [? _].
    + done.
  - destruct (min_loop _ _ _ _ _ _ _ _ _) as [[[bs bm] ch]|] eqn:Hloop; [|done].
    simplify_eq. cbn.
    assert (best_ok (getAvailableMoves b) bs bm) as Hok; [|by destruct Hok].
    eapply min_loop_best; [| |left; reflexivity|left; exact Hfull|exact Hloop].
    + intros m a be r _ Hr. by apply IH in Hr as [? _].
    + done.
Qed.

(** ** Comparisons of numbers as comparisons of integers

    Finitely many numbers are compared as integers once the two
    infinities are placed just outside the interval that holds them. *)

Lemma bounded_weaken (lo hi lo' hi' : Z) (a : Num) :
  lo' <= lo -> hi <= hi' -> bounded lo hi a -> bounded lo' hi' a.
Proof. destruct a; cbn; lia. Qed.

Lemma bounded_exists (l : list Num) :
  exists lo hi, lo <= hi /\ Forall (bounded lo hi) l.
Proof.
  induction l as [|a l (lo & hi & Hlh & IH)]; [by exists 0, 0|].
  exists (Z.min lo (emb 0 0 a)), (Z.max hi (emb 0 0 a)).
  split; [lia|]. constructor.
  - destruct a; cbn; lia.
  - eapply Forall_impl; [exact IH|]. intros b. apply bounded_weaken; lia.
Qed.

Section emb.
Context (lo hi : Z) (Hlh : lo <= hi).
Local Abbreviation e := (emb lo hi).
Local Abbreviation bd := (bounded lo hi).

Lemma emb_ltb (a b : Num) : bd a -> bd b -> num_ltb a b = true <-> e a < e b.
Proof. destruct a, b; cbn; rewrite ?Z.ltb_lt; intuition lia. Qed.

Lemma emb_ltb_false (a b : Num) : bd a -> bd b -> num_ltb a b = false <-> e b <= e a.
Proof. destruct a, b; cbn; rewrite ?Z.ltb_ge; intuition lia. Qed.

Lemma emb_leb (a b : Num) : bd a -> bd b -> num_leb a b = true <-> e a <= e b.
Proof. unfold num_leb. rewrite negb_true_iff. intros. by apply emb_ltb_false. Qed.

Lemma emb_leb_false (a b : Num) : bd a -> bd b -> num_leb a b = false <-> e b < e a.
Proof. unfold num_leb. rewrite negb_false_iff. intros. by apply emb_ltb. Qed.

Lemma emb_eq (a b : Num) : bd a -> bd b -> a = b <-> e a = e b.
Proof.
  destruct a, b; cbn; intros; split; intros; simplify_eq; try done; lia.
Qed.

Lemma bounded_max (a b : Num) : bd a -> bd b -> bd (num_max a b).
Proof. unfold num_max. by destruct (num_ltb a b). Qed.

Lemma bounded_min (a b : Num) : bd a -> bd b -> bd (num_min a b).
Proof. unfold num_min. by destruct (num_ltb b a). Qed.

Lemma emb_max (a b : Num) : bd a -> bd b -> e (num_max a b) = Z.max (e a) (e b).
Proof.
  intros Ha Hb. unfold num_max. destruct (num_ltb a b) eqn:Hlt.
  - apply emb_ltb in Hlt; [lia|done..].
  - apply emb_ltb_false in Hlt; [lia|done..].
Qed.

Lemma emb_min (a b : Num) : bd a -> bd b -> e (num_min a b) = Z.min (e a) (e b).
Proof.
  intros Ha Hb. unfold num_min. destruct (num_ltb b a) eqn:Hlt.
  - apply emb_ltb in Hlt; [lia|done..].
  - apply emb_ltb_false in Hlt; [lia|done..].
Qed.
End emb.

(** ** Pruning does not change the score *)

Lemma emb_ab_ok (lo hi : Z) (alpha beta r v : Num) :
  lo <= hi ->
  bounded lo hi alpha -> bounded lo hi beta ->
  bounded lo hi r -> bounded lo hi v ->
  ab_ok alpha beta r v <->
  ab_okZ (emb lo hi alpha) (emb lo hi beta) (emb lo hi r) (emb lo hi v).
Proof.
  intros. unfold ab_ok, ab_okZ.
  rewrite !(emb_leb lo hi), !(emb_ltb lo hi), (emb_eq lo hi) by done. done.
Qed.

Lemma ab_ok_refl (alpha beta r : Num) : ab_ok alpha beta r r.
Proof.
  assert (num_leb r r = true) as Hrefl.
  { unfold num_leb. destruct r; cbn; rewrite ?Z.ltb_irrefl; done. }
  unfold ab_ok. split_and!; done.
Qed.

Lemma ab_ok_widest (r v : Num) :
  is_score r -> ab_ok NegInf PosInf r v -> r = v.
Proof. intros [->|[->| ->]] (_ & _ & H); by apply H. Qed.

Ltac num_to_Z lo hi :=
  repeat match goal with
         | H : Forall _ (_ :: _) |- _ => apply Forall_cons in H as [? H]
         | H : Forall _ [] |- _ => clear H
         end;
  repeat match goal with
         | H : ab_ok _ _ _ _ |- _ =>
           apply (emb_ab_ok lo hi) in H; [|auto using bounded_max, bounded_min..]
         | H : num_ltb _ _ = true |- _ =>
           apply (emb_ltb lo hi) in H; [|auto using bounded_max, bounded_min..]
         | H : num_ltb _ _ = false |- _ =>
           apply (emb_ltb_false lo hi) in H; [|auto using bounded_max, bounded_min..]
         | H : num_leb _ _ = true |- _ =>
           apply (emb_leb lo hi) in H; [|auto using bounded_max, bounded_min..]
         | H : num_leb _ _ = false |- _ =>
           apply (emb_leb_false lo hi) in H; [|auto using bounded_max, bounded_min..]
         | |- _ /\ _ => split
         | |- ab_ok _ _ _ _ =>
           apply (emb_ab_ok lo hi); [auto using bounded_max, bounded_min..|]
         | |- num_ltb _ _ = true =>
           apply (emb_ltb lo hi); [auto using bounded_max, bounded_min..|]
         | |- @eq Num _ _ =>
           apply (emb_eq lo hi); [auto using bounded_max, bounded_min..|]
         end;
  rewrite ?(emb_max lo hi), ?(emb_min lo hi) in * by auto using bounded_max, bounded_min;
  unfold ab_okZ in *.

(** One more child in the maximizing loop, no cutoff. *)
Lemma ab_max_step (alpha0 beta bs V c v : Num) :
  num_ltb (num_max alpha0 bs) beta = true ->
  ab_ok alpha0 beta bs V ->
  ab_ok (num_max alpha0 bs) beta c v ->
  num_leb beta (num_max (num_max alpha0 bs) (num_max bs c)) = false ->
  num_max (num_max alpha0 bs) (num_max bs c) = num_max alpha0 (num_max bs c) /\
  num_ltb (num_max alpha0 (num_max bs c)) beta = true /\
  ab_ok alpha0 beta (num_max bs c) (num_max V v).
Proof.
  destruct (bounded_exists [alpha0; beta; bs; V; c; v]) as (lo & hi & Hlh & Hb).
  intros H1 H2 H3 H4. num_to_Z lo hi; lia.
Qed.

(** One more child in the maximizing loop, cutoff. *)
Lemma ab_max_cut (alpha0 beta bs V c v Vf : Num) :
  num_ltb (num_max alpha0 bs) beta = true ->
  ab_ok alpha0 beta bs V ->
  ab_ok (num_max alpha0 bs) beta c v ->
  num_leb beta (num_max (num_max alpha0 bs) (num_max bs c)) = true ->
  num_leb (num_max V v) Vf = true ->
  ab_ok alpha0 beta (num_max bs c) Vf.
Proof.
  destruct (bounded_exists [alpha0; beta; bs; V; c; v; Vf]) as (lo & hi & Hlh & Hb).
  intros H1 H2 H3 H4 H5. num_to_Z lo hi; lia.
Qed.

Lemma ab_min_step (alpha beta0 bs V c v : Num) :
  num_ltb alpha (num_min beta0 bs) = true ->
  ab_ok alpha beta0 bs V ->
  ab_ok alpha (num_min beta0 bs) c v ->
  num_leb (num_min (num_min beta0 bs) (num_min bs c)) alpha = false ->
  num_min (num_min beta0 bs) (num_min bs c) = num_min beta0 (num_min bs c) /\
  num_ltb alpha (num_min beta0 (num_min bs c)) = true /\
  ab_ok alpha beta0 (num_min bs c) (num_min V v).
Proof.
  destruct (bounded_exists [alpha; beta0; bs; V; c; v]) as (lo & hi & Hlh & Hb).
  intros H1 H2 H3 H4. num_to_Z lo hi; lia.
Qed.

Lemma ab_min_cut (alpha beta0 bs V c v Vf : Num) :
  num_ltb alpha (num_min beta0 bs) = true ->
  ab_ok alpha beta0 bs V ->
  ab_ok alpha (num_min beta0 bs) c v ->
  num_leb (num_min (num_min beta0 bs) (num_min bs c)) alpha = true ->
  num_leb Vf (num_min V v) = true ->
  ab_ok alpha beta0 (num_min bs c) Vf.
Proof.
  destruct (bounded_exists [alpha; beta0; bs; V; c; v; Vf]) as (lo & hi & Hlh & Hb).
  intros H1 H2 H3 H4 H5. num_to_Z lo hi; lia.
Qed.

Lemma num_leb_refl (a : Num) : num_leb a a = true.
Proof. unfold num_leb. destruct a; cbn; rewrite ?Z.ltb_irrefl; done. Qed.

Lemma num_leb_max_trans (a b c : Num) :
  num_leb (num_max a b) c = true -> num_leb a c = true.
Proof.
  destruct (bounded_exists [a; b; c]) as (lo & hi & Hlh & Hb).
  intros H. num_to_Z lo hi. apply (emb_leb lo hi); [done..|]. lia.
Qed.

Lemma num_leb_min_trans (a b c : Num) :
  num_leb c (num_min a b) = true -> num_leb c a = true.
Proof.
  destruct (bounded_exists [a; b; c]) as (lo & hi & Hlh & Hb).
  intros H. num_to_Z lo hi. apply (emb_leb lo hi); [done..|]. lia.
Qed.

Section noprune_loop_facts.
Context (recp : BoardState -> Z -> bool -> option (Num * option nat)).
Context (b : BoardState) (d : Z).

(** The loops without pruning only improve the best score. *)
Lemma max_loop_noprune_ge moves V Vm V' Vm' :
  max_loop_noprune recp b d moves V Vm = Some (V', Vm') ->
  num_leb V V' = true.
Proof.
  revert V Vm. induction moves as [|m moves IH]; intros V Vm Hloop; cbn in Hloop.
  - simplify_eq. apply num_leb_refl.
  - destruct (recp _ _ _) as [[v mv]|]; [|done].
    apply IH in Hloop. by apply num_leb_max_trans in Hloop.
Qed.

Lemma min_loop_noprune_le moves V Vm V' Vm' :
  min_loop_noprune recp b d moves V Vm = Some (V', Vm') ->
  num_leb V' V = true.
Proof.
  revert V Vm. induction moves as [|m moves IH]; intros V Vm Hloop; cbn in Hloop.
  - simplify_eq. apply num_leb_refl.
  - destruct (recp _ _ _) as [[v mv]|]; [|done].
    apply IH in Hloop.
    change (if num_ltb v V then v else V) with (num_min V v) in Hloop.
    by apply num_leb_min_trans in Hloop.
Qed.

Lemma max_loop_noprune_total moves V Vm :
  (forall m, m ∈ moves -> is_Some (recp (<[m := Some O]> b) (d - 1) false)) ->
  is_Some (max_loop_noprune recp b d moves V Vm).
Proof.
  revert V Vm. induction moves as [|m moves IH]; intros V Vm Hrec; [by eexists|].
  cbn. destruct (Hrec m) as [[v mv] ->]; [apply list_elem_of_here|].
  apply IH. intros m' Hm'. apply Hrec. by apply list_elem_of_further.
Qed.

Lemma min_loop_noprune_total moves V Vm :
  (forall m, m ∈ moves -> is_Some (recp (<[m := Some X]> b) (d - 1) true)) ->
  is_Some (min_loop_noprune recp b d moves V Vm).
Proof.
  revert V Vm. induction moves as [|m moves IH]; intros V Vm Hrec; [by eexists|].
  cbn. destruct (Hrec m) as [[v mv] ->]; [apply list_elem_of_here|].
  apply IH. intros m' Hm'. apply Hrec. by apply list_elem_of_further.
Qed.
End noprune_loop_facts.

Lemma minimax_noprune_total (b : BoardState) (d : Z) (isMax : bool) :
  is_Some (minimax_noprune b d isMax).
Proof.
  unfold minimax_noprune. rewrite getAvailableMoves_length.
  assert (forall f b d isMax, (count_null b < f)%nat ->
            is_Some (minimax_noprune_fuel f b d isMax)) as Hgen; [|apply Hgen; lia].
  clear. induction f as [|f IH]; intros b d isMax Hf; [lia|]. cbn.
  repeat (case_match; [by eexists|]).
  destruct isMax.
  - apply max_loop_noprune_total. intros m Hm.
    pose proof (count_null_move b m O Hm). apply IH; lia.
  - apply min_loop_noprune_total. intros m Hm.
    pose proof (count_null_move b m X Hm). apply IH; lia.
Qed.

Section loop_ab.
Context (rec : BoardState -> Z -> bool -> Num -> Num -> option SearchResult).
Context (recp : BoardState -> Z -> bool -> option (Num * option nat)).
Context (b : BoardState) (d : Z).

Lemma max_loop_ab moves alpha0 alpha beta bs bm ch V Vm res Vres Vmres :
  (forall m a be r v mv, m ∈ moves -> num_ltb a be = true ->
     rec (<[m := Some O]> b) (d - 1) false a be = Some r ->
     recp (<[m := Some O]> b) (d - 1) false = Some (v, mv) ->
     ab_ok a be (score r) v) ->
  alpha = num_max alpha0 bs ->
  num_ltb alpha beta = true ->
  ab_ok alpha0 beta bs V ->
  max_loop rec b d moves alpha beta bs bm ch = Some res ->
  max_loop_noprune recp b d moves V Vm = Some (Vres, Vmres) ->
  ab_ok alpha0 beta res.1.1 Vres.
Proof.
  revert alpha bs bm ch V Vm.
  induction moves as [|m moves IH];
    intros alpha bs bm ch V Vm Hrec -> Hwin Hst Hloop Hplain;
    cbn in Hloop, Hplain.
  - by simplify_eq.
  - destruct (rec _ _ _ _ _) as [r|] eqn:Hr; [|done].
    destruct (recp _ _ _) as [[v mv]|] eqn:Hv; [|done].
    assert (ab_ok (num_max alpha0 bs) beta (score r) v) as Hchild.
    { eapply Hrec; [apply list_elem_of_here|done..]. }
    change (if num_ltb bs (score r) then score r else bs)
      with (num_max bs (score r)) in Hloop.
    change (if num_ltb V v then v else V) with (num_max V v) in Hplain.
    destruct (num_leb beta _) eqn:Hcut.
    + simplify_eq. cbn.
      eapply ab_max_cut; [exact Hwin|exact Hst|exact Hchild|exact Hcut|].
      eapply max_loop_noprune_ge, Hplain.
    + destruct (ab_max_step _ _ _ _ _ _ Hwin Hst Hchild Hcut) as (Ha & Hwin' & Hst').
      eapply IH; [|exact Ha|by rewrite Ha|exact Hst'|exact Hloop|exact Hplain].
      intros m' a be r' v' mv' Hm'. apply Hrec. by apply list_elem_of_further.
Qed.

Lemma min_loop_ab moves alpha beta0 beta bs bm ch V Vm res Vres Vmres :
  (forall m a be r v mv, m ∈ moves -> num_ltb a be = true ->
     rec (<[m := Some X]> b) (d - 1) true a be = Some r ->
     recp (<[m := Some X]> b) (d - 1) true = Some (v, mv) ->
     ab_ok a be (score r) v) ->
  beta = num_min beta0 bs ->
  num_ltb alpha beta = true ->
  ab_ok alpha beta0 bs V ->
  min_loop rec b d moves alpha beta bs bm ch = Some res ->
  min_loop_noprune recp b d moves V Vm = Some (Vres, Vmres) ->
  ab_ok alpha beta0 res.1.1 Vres.
Proof.
  revert beta bs bm ch V Vm.
  induction moves as [|m moves IH];
    intros beta bs bm ch V Vm Hrec -> Hwin Hst Hloop Hplain;
    cbn in Hloop, Hplain.
  - by simplify_eq.
  - destruct (rec _ _ _ _ _) as [r|] eqn:Hr; [|done].
    destruct (recp _ _ _) as [[v mv]|] eqn:Hv; [|done].
    assert (ab_ok alpha (num_min beta0 bs) (score r) v) as Hchild.
    { eapply Hrec; [apply list_elem_of_here|done..]. }
    change (if num_ltb (score r) bs then score r else bs)
      with (num_min bs (score r)) in Hloop.
    change (if num_ltb v V then v else V) with (num_min V v) in Hplain.
    destruct (num_leb _ alpha) eqn:Hcut.
    + simplify_eq. cbn.
      eapply ab_min_cut; [exact Hwin|exact Hst|exact Hchild|exact Hcut|].
      eapply min_loop_noprune_le, Hplain.
    + destruct (ab_min_step _ _ _ _ _ _ Hwin Hst Hchild Hcut) as (Ha & Hwin' & Hst').
      eapply IH; [|exact Ha|by rewrite Ha|exact Hst'|exact Hloop|exact Hplain].
      intros m' a be r' v' mv' Hm'. apply Hrec. by apply list_elem_of_further.
Qed.
End loop_ab.

(** The score of the search in a window against the score of the search
    without pruning, at the same bound on nested calls. *)
Lemma minimax_fuel_ab (f : nat) (b : BoardState) (d : Z) (isMax : bool)
    (alpha beta : Num) (r : SearchResult) (v : Num) (mv : option nat) :
  num_ltb alpha beta = true ->
  minimax_fuel f b d isMax alpha beta = Some r ->
  minimax_noprune_fuel f b d isMax = Some (v, mv) ->
  ab_ok alpha beta (score r) v.
Proof.
  revert b d isMax alpha beta r v mv.
  induction f as [|f IH]; intros b d isMax alpha beta r v mv Hwin Hr Hv; [done|].
  cbn in Hr, Hv.
  repeat (case_match; [simplify_eq; apply ab_ok_refl|]).
  destruct isMax.
  - destruct (max_loop _ _ _ _ _ _ _ _ _) as [[[bs bm] ch]|] eqn:Hloop; [|done].
    simplify_eq. cbn.
    eapply (max_loop_ab _ _ _ _ _ alpha alpha beta NegInf None [] NegInf None
              (bs, bm, ch)); [|by destruct alpha|done|apply ab_ok_refl|exact Hloop|exact Hv].
    intros m a be r v' mv' _ Hlt Hr Hv'. by eapply IH.
  - destruct (min_loop _ _ _ _ _ _ _ _ _) as [[[bs bm] ch]|] eqn:Hloop; [|done].
    simplify_eq. cbn.
    eapply (min_loop_ab _ _ _ _ _ alpha beta beta PosInf None [] PosInf None
              (bs, bm, ch)); [|by destruct beta|done|apply ab_ok_refl|exact Hloop|exact Hv].
    intros m a be r v' mv' _ Hlt Hr Hv'. by eapply IH.
Qed.

(** With the widest window the score is the score without pruning, for
    every board, depth budget and side. *)
Lemma minimax_score_noprune (b : BoardState) (d : Z) (isMax : bool) :
  exists r v mv,
    minimax b d isMax NegInf PosInf = Some r /\
    minimax_noprune b d isMax = Some (v, mv) /\
    score r = v.
Proof.
  destruct (minimax_total b d isMax NegInf PosInf) as [r Hr].
  destruct (minimax_noprune_total b d isMax) as [[v mv] Hv].
  exists r, v, mv. split_and!; [done..|].
  apply ab_ok_widest.
  - by apply minimax_fuel_result in Hr as [? _].
  - by eapply minimax_fuel_ab.
Qed.

(** ** The evaluator returns the first complete line *)

Lemma line_complete_spec (b : BoardState) (l : nat * nat * nat) :
  line_complete b l = true <-> exists s, three_in_row b l s.
Proof.
  destruct l as [[a a'] c]. unfold line_complete, three_in_row. cbn [fst snd]. split.
  - intros [[Ha Hb]%andb_true_iff Hc]%andb_true_iff.
    apply bool_decide_eq_true in Hb, Hc.
    destruct (b !! a) as [[s|]|] eqn:Ea; try done. exists s. by rewrite <- Hb, <- Hc.
  - intros (s & -> & -> & ->). by rewrite !bool_decide_true by done.
Qed.

Lemma line_complete_false (b : BoardState) (l : nat * nat * nat) :
  line_complete b l = false <-> forall s, ~ three_in_row b l s.
Proof.
  rewrite <- not_true_iff_false, line_complete_spec. split.
  - intros Hn s Hs. apply Hn. by exists s.
  - intros Hn [s Hs]. by apply (Hn s).
Qed.

Lemma checkWinner_loop_first (b : BoardState) (pre post : list (nat * nat * nat))
    (l : nat * nat * nat) (s : Mark) :
  Forall (fun l' => line_complete b l' = false) pre ->
  three_in_row b l s ->
  checkWinner_loop b (pre ++ l :: post)
  = Some {| winner := Some s; line := Some (line_cells l) |}.
Proof.
  intros Hpre Hl. induction Hpre as [|l' pre Hl' _ IH]; cbn.
  - assert (line_complete b l = true) as -> by (apply line_complete_spec; eauto).
    destruct l as [[a a'] c]. destruct Hl as (Ha & _ & _). cbn [fst snd] in *. by rewrite Ha.
  - by rewrite Hl'.
Qed.

Lemma checkWinner_loop_none (b : BoardState) (ls : list (nat * nat * nat)) :
  Forall (fun l' => line_complete b l' = false) ls ->
  checkWinner_loop b ls = None.
Proof. induction 1 as [|l' ls Hl' _ IH]; cbn; [done|]. by rewrite Hl'. Qed.

Lemma checkWinner_first (b : BoardState) (pre post : list (nat * nat * nat))
    (l : nat * nat * nat) (s : Mark) :
  lines = pre ++ l :: post ->
  (forall l' s', l' ∈ pre -> ~ three_in_row b l' s') ->
  three_in_row b l s ->
  checkWinner b = {| winner := Some s; line := Some (line_cells l) |}.
Proof.
  intros Hlines Hpre Hl. unfold checkWinner. rewrite Hlines.
  rewrite (checkWinner_loop_first b pre post l s); [done| |done].
  apply Forall_forall. intros l' Hl'. apply line_complete_false. eauto.
Qed.

Lemma checkWinner_no_line (b : BoardState) :
  (forall l s, l ∈ lines -> ~ three_in_row b l s) ->
  checkWinner b = {| winner := None; line := None |}.
Proof.
  intros Hno. unfold checkWinner. rewrite checkWinner_loop_none.
  - by destruct (every_not_null b).
  - apply Forall_forall. intros l' Hl'. apply line_complete_false. eauto.
Qed.

(** ** The search on the store *)

Lemma copyArray_spec (l : nat) (st : Store) (l' : nat) (st' : Store) :
  copyArray l st = Some (l', st') ->
  exists cells,
    arrays st !! l = Some cells /\ arrays st !! l' = None /\
    arrays st' = <[l' := cells]> (arrays st) /\ calls st' = calls st.
Proof.
  unfold copyArray. destruct (arrays st !! l) as [cells|] eqn:Hl; [|done].
  cbn. intros [= <- <-]. exists cells. split_and!; [done| |done..].
  apply not_elem_of_dom, is_fresh.
Qed.

Lemma copyArray_Some (l : nat) (st : Store) (cells : BoardState) :
  arrays st !! l = Some cells -> is_Some (copyArray l st).
Proof. intros Hl. unfold copyArray. rewrite Hl. by eexists. Qed.

Lemma setCell_spec (l i : nat) (v : Player) (st st' : Store) :
  setCell l i v st = Some st' ->
  exists cells,
    arrays st !! l = Some cells /\
    arrays st' = <[l := <[i := v]> cells]> (arrays st) /\ calls st' = calls st.
Proof.
  unfold setCell. destruct (arrays st !! l) as [cells|] eqn:Hl; [|done].
  cbn. intros [= <-]. by exists cells.
Qed.

(** The first two statements of a loop body: [newBoard] is a new array
    that holds the board with the move made; no other array changes. *)
Lemma copy_set_spec (l : nat) (st : Store) (cells : BoardState) (m : nat) (v : Player) :
  arrays st !! l = Some cells ->
  exists nb st1 st2,
    copyArray l st = Some (nb, st1) /\ setCell nb m v st1 = Some st2 /\
    arrays st !! nb = None /\
    arrays st2 = <[nb := <[m := v]> cells]> (arrays st) /\
    calls st2 = calls st.
Proof.
  intros Hl. destruct (copyArray_Some l st cells Hl) as [[nb st1] Hc].
  destruct (copyArray_spec _ _ _ _ Hc) as (cells' & Hl' & Hnb & Ha1 & Hc1).
  simplify_eq. exists nb, st1.
  eexists (mkStore (<[nb := <[m := v]> cells]> (arrays st1)) (calls st1)).
  split_and!; [done| |done| |done].
  - unfold setCell. rewrite Ha1, lookup_insert_eq. done.
  - cbn. rewrite Ha1, insert_insert_eq. done.
Qed.

Lemma deref_unfold (h : gmap nat BoardState) (t : TreeNodeRef) :
  deref h t =
  cells ← h !! ref_board t;
  children ← mapM (deref h) (ref_children t);
  Some (mkTreeNode cells (ref_score t) (ref_move t) children).
Proof. by destruct t. Qed.

Lemma deref_mono (h h' : gmap nat BoardState) (t : TreeNodeRef) (t' : TreeNode) :
  h ⊆ h' -> deref h t = Some t' -> deref h' t = Some t'.
Proof.
  intros Hsub. revert t'.
  induction t as [b s m ch IH] using TreeNodeRef_nested_ind. intros t'.
  rewrite !deref_unfold. cbn.
  destruct (h !! b) as [cells|] eqn:Hb; [|done].
  rewrite (lookup_weaken _ _ _ _ Hb Hsub). cbn.
  destruct (mapM (deref h) ch) as [children|] eqn:Hch; [|done]. cbn.
  intros [= <-].
  assert (mapM (deref h') ch = Some children) as ->; [|done].
  apply mapM_Some. apply mapM_Some in Hch.
  clear Hb. induction Hch as [|x y ch children Hxy _ IHch]; [constructor|].
  apply Forall_cons in IH as [IHx IH]. constructor; [by apply IHx|by apply IHch].
Qed.

Lemma derefs_mono (h h' : gmap nat BoardState) (chR : list TreeNodeRef)
    (ch : list TreeNode) :
  h ⊆ h' ->
  Forall2 (fun tR t => deref h tR = Some t) chR ch ->
  Forall2 (fun tR t => deref h' tR = Some t) chR ch.
Proof.
  intros Hsub Hch. eapply Forall2_impl; [exact Hch|]. intros tR t. by apply deref_mono.
Qed.

Lemma loop_frame_refl (st : Store) : loop_frame st st.
Proof. split; [done|]. exists []. by rewrite app_nil_r. Qed.

Lemma loop_frame_trans (st1 st2 st3 : Store) :
  loop_frame st1 st2 -> loop_frame st2 st3 -> loop_frame st1 st3.
Proof.
  intros (Hs1 & ls1 & Hc1 & Hf1) (Hs2 & ls2 & Hc2 & Hf2).
  split; [by etrans|]. exists (ls1 ++ ls2). split.
  - by rewrite Hc2, Hc1, app_assoc.
  - apply Forall_app. split; [done|].
    eapply Forall_impl; [exact Hf2|]. intros l' Hl'.
    exact (lookup_weaken_None _ _ _ Hl' Hs1).
Qed.

(** One iteration: the copy, the write into the copy and the nested
    call on the copy. *)
Lemma body_frame (l nb : nat) (st st1 st2 st3 : Store) (m : nat) (v : Player) :
  copyArray l st = Some (nb, st1) ->
  setCell nb m v st1 = Some st2 ->
  call_frame nb st2 st3 ->
  loop_frame st st3.
Proof.
  intros (cells & _ & Hnb & Ha1 & Hc1)%copyArray_spec
         (cells1 & _ & Ha2 & Hc2)%setCell_spec (Hsub & ls & Hc3 & Hf).
  assert (arrays st ⊆ arrays st2) as Hsub2.
  { rewrite Ha2, Ha1, insert_insert_eq. by apply insert_subseteq. }
  split; [by etrans|]. exists (nb :: ls). split.
  - by rewrite Hc3, Hc2, Hc1.
  - constructor; [done|]. eapply Forall_impl; [exact Hf|].
    intros l' Hl'. exact (lookup_weaken_None _ _ _ Hl' Hsub2).
Qed.

Section loop_st_frame.
Context (rec_st :
  nat -> Z -> bool -> Num -> Num -> Store -> option (SearchResultRef * Store)).
Context (l : nat) (d : Z).
Context (Hframe : forall l' d' m a be st1 r st2,
  rec_st l' d' m a be st1 = Some (r, st2) -> call_frame l' st1 st2).

Lemma max_loop_st_frame moves alpha beta bs bm chR st res st' :
  max_loop_st rec_st l d moves alpha beta bs bm chR st = Some (res, st') ->
  loop_frame st st'.
Proof.
  revert alpha bs bm chR st.
  induction moves as [|m moves IH]; intros alpha bs bm chR st Hloop; cbn in Hloop.
  - simplify_eq. apply loop_frame_refl.
  - destruct (copyArray l st) as [[nb st1]|] eqn:Hc; [|done]. cbn in Hloop.
    destruct (setCell nb m (Some O) st1) as [st2|] eqn:Hs; [|done]. cbn in Hloop.
    destruct (rec_st _ _ _ _ _ _) as [[r st3]|] eqn:Hr; [|done]. cbn in Hloop.
    pose proof (body_frame _ _ _ _ _ _ _ _ Hc Hs (Hframe _ _ _ _ _ _ _ _ Hr)) as Hbody.
    destruct (num_leb _ _); [by simplify_eq|].
    eapply loop_frame_trans; [exact Hbody|]. eapply IH, Hloop.
Qed.

Lemma min_loop_st_frame moves alpha beta bs bm chR st res st' :
  min_loop_st rec_st l d moves alpha beta bs bm chR st = Some (res, st') ->
  loop_frame st st'.
Proof.
  revert beta bs bm chR st.
  induction moves as [|m moves IH]; intros beta bs bm chR st Hloop; cbn in Hloop.
  - simplify_eq. apply loop_frame_refl.
  - destruct (copyArray l st) as [[nb st1]|] eqn:Hc; [|done]. cbn in Hloop.
    destruct (setCell nb m (Some X) st1) as [st2|] eqn:Hs; [|done]. cbn in Hloop.
    destruct (rec_st _ _ _ _ _ _) as [[r st3]|] eqn:Hr; [|done]. cbn in Hloop.
    pose proof (body_frame _ _ _ _ _ _ _ _ Hc Hs (Hframe _ _ _ _ _ _ _ _ Hr)) as Hbody.
    destruct (num_leb _ _); [by simplify_eq|].
    eapply loop_frame_trans; [exact Hbody|]. eapply IH, Hloop.
Qed.
End loop_st_frame.

Lemma minimax_st_fuel_frame (f : nat) (l : nat) (d : Z) (isMax : bool)
    (alpha beta : Num) (st : Store) (r : SearchResultRef) (st' : Store) :
  minimax_st_fuel f l d isMax alpha beta st = Some (r, st') ->
  call_frame l st st'.
Proof.
  revert l d isMax alpha beta st r st'.
  induction f as [|f IH]; intros l d isMax alpha beta st r st' Hr; [done|].
  cbn in Hr.
  assert (call_frame l st (logCall l st)) as Hlog.
  { split; [done|]. exists []. done. }
  destruct (arrays st !! l) as [cells|] eqn:Hl; [|done]. cbn in Hr.
  repeat (case_match; [by simplify_eq|]).
  destruct (copyArray l (logCall l st)) as [[nodeBoard stA]|] eqn:Hc; [|done].
  cbn in Hr.
  apply copyArray_spec in Hc as (cells' & _ & Hnb & HaA & HcA). cbn in Hnb, HaA, HcA.
  assert (forall st'', loop_frame stA st'' -> call_frame l st st'') as Hfin.
  { intros st'' (Hsub & ls & Hcalls & Hf).
    assert (arrays st ⊆ arrays stA) as HsubA.
    { rewrite HaA. by apply insert_subseteq. }
    split; [by etrans|]. exists ls. split.
    - by rewrite Hcalls, HcA, <- app_assoc.
    - eapply Forall_impl; [exact Hf|]. intros l' Hl'.
      exact (lookup_weaken_None _ _ _ Hl' HsubA). }
  destruct isMax.
  - destruct (max_loop_st _ _ _ _ _ _ _ _ _ _) as [[[[bs bm] ch] st1]|] eqn:Hloop;
      [|done].
    cbn in Hr. simplify_eq. apply Hfin.
    eapply max_loop_st_frame; [|exact Hloop]. intros. by eapply IH.
  - destruct (min_loop_st _ _ _ _ _ _ _ _ _ _) as [[[[bs bm] ch] st1]|] eqn:Hloop;
      [|done].
    cbn in Hr. simplify_eq. apply Hfin.
    eapply min_loop_st_frame; [|exact Hloop]. intros. by eapply IH.
Qed.

(** ** The search on the store computes the search on boards *)

Lemma deref_result_inv (h : gmap nat BoardState) (r : SearchResultRef)
    (r' : SearchResult) :
  deref_result h r = Some r' ->
  score r' = rscore r /\ move r' = rmove r /\
  match rtree r with
  | None => tree r' = None
  | Some t => exists t', deref h t = Some t' /\ tree r' = Some t'
  end.
Proof.
  unfold deref_result. destruct (rtree r) as [t|].
  - destruct (deref h t) as [t'|]; [|done]. cbn. intros [= <-]. cbn. eauto.
  - intros [= <-]. done.
Qed.

(** The child node that a loop body appends. *)
Lemma child_deref (h : gmap nat BoardState) (nb : nat) (cells : BoardState)
    (m : nat) (r : SearchResultRef) (r' : SearchResult) :
  h !! nb = Some cells ->
  deref_result h r = Some r' ->
  deref h (default (mkTreeNodeRef nb (rscore r) (Some m) []) (rtree r))
  = Some (default (mkTreeNode cells (score r') (Some m) []) (tree r')).
Proof.
  intros Hnb (Hs & _ & Ht)%deref_result_inv.
  destruct (rtree r) as [t|].
  - destruct Ht as (t' & Ht' & ->). done.
  - rewrite Ht, Hs. cbn. rewrite Hnb. done.
Qed.

Section loop_st_sim.
Context (rec_st :
  nat -> Z -> bool -> Num -> Num -> Store -> option (SearchResultRef * Store)).
Context (rec : BoardState -> Z -> bool -> Num -> Num -> option SearchResult).
Context (l : nat) (d : Z).
Context (Hframe : forall l' d' m a be st1 r st2,
  rec_st l' d' m a be st1 = Some (r, st2) -> call_frame l' st1 st2).
Context (Hsim : forall l' cells' d' m a be st1,
  arrays st1 !! l' = Some cells' ->
  match rec_st l' d' m a be st1 with
  | Some (r, st2) =>
    exists r', rec cells' d' m a be = Some r' /\
               deref_result (arrays st2) r = Some r'
  | None => rec cells' d' m a be = None
  end).

Lemma max_loop_st_sim moves alpha beta bs bm chR ch st cells :
  arrays st !! l = Some cells ->
  Forall2 (fun tR t => deref (arrays st) tR = Some t) chR ch ->
  match max_loop_st rec_st l d moves alpha beta bs bm chR st with
  | Some (bs', bm', chR', st') =>
    exists ch',
      max_loop rec cells d moves alpha beta bs bm ch = Some (bs', bm', ch') /\
      Forall2 (fun tR t => deref (arrays st') tR = Some t) chR' ch'
  | None => max_loop rec cells d moves alpha beta bs bm ch = None
  end.
Proof.
  revert alpha bs bm chR ch st.
  induction moves as [|m moves IH]; intros alpha bs bm chR ch st Hl Hch; cbn.
  - eauto.
  - destruct (copy_set_spec l st cells m (Some O) Hl)
      as (nb & st1 & st2 & Hc & Hs & Hnb & Ha2 & Hc2).
    rewrite Hc. cbn. rewrite Hs. cbn.
    assert (arrays st2 !! nb = Some (<[m := Some O]> cells)) as Hnb2.
    { by rewrite Ha2, lookup_insert_eq. }
    assert (arrays st ⊆ arrays st2) as Hsub2.
    { rewrite Ha2. by apply insert_subseteq. }
    pose proof (Hsim nb _ (d - 1) false alpha beta st2 Hnb2) as Hcall.
    destruct (rec_st nb (d - 1) false alpha beta st2) as [[r st3]|] eqn:Hr; cbn.
    + destruct Hcall as (r' & -> & Hd).
      destruct (Hframe _ _ _ _ _ _ _ _ Hr) as [Hsub3 _].
      pose proof (child_deref _ nb _ m r r' (lookup_weaken _ _ _ _ Hnb2 Hsub3) Hd)
        as Hchild.
      apply deref_result_inv in Hd as (Hsc & _ & _).
      destruct r' as [s' mv' t']. cbn in Hsc, Hchild |- *. subst s'.
      assert (Forall2 (fun tR t => deref (arrays st3) tR = Some t)
                (chR ++ [default (mkTreeNodeRef nb (rscore r) (Some m) []) (rtree r)])
                (ch ++ [default (mkTreeNode (<[m := Some O]> cells) (rscore r)
                                   (Some m) []) t'])) as Hch'.
      { apply Forall2_app; [|constructor; [exact Hchild|constructor]].
        eapply derefs_mono; [|exact Hch]. by etrans. }
      destruct (num_leb _ _); [eauto|].
      apply IH; [|exact Hch'].
      eapply lookup_weaken; [exact Hl|]. by etrans.
    + by rewrite Hcall.
Qed.

Lemma min_loop_st_sim moves alpha beta bs bm chR ch st cells :
  arrays st !! l = Some cells ->
  Forall2 (fun tR t => deref (arrays st) tR = Some t) chR ch ->
  match min_loop_st rec_st l d moves alpha beta bs bm chR st with
  | Some (bs', bm', chR', st') =>
    exists ch',
      min_loop rec cells d moves alpha beta bs bm ch = Some (bs', bm', ch') /\
      Forall2 (fun tR t => deref (arrays st') tR = Some t) chR' ch'
  | None => min_loop rec cells d moves alpha beta bs bm ch = None
  end.
Proof.
  revert beta bs bm chR ch st.
  induction moves as [|m moves IH]; intros beta bs bm chR ch st Hl Hch; cbn.
  - eauto.
  - destruct (copy_set_spec l st cells m (Some X) Hl)
      as (nb & st1 & st2 & Hc & Hs & Hnb & Ha2 & Hc2).
    rewrite Hc. cbn. rewrite Hs. cbn.
    assert (arrays st2 !! nb = Some (<[m := Some X]> cells)) as Hnb2.
    { by rewrite Ha2, lookup_insert_eq. }
    assert (arrays st ⊆ arrays st2) as Hsub2.
    { rewrite Ha2. by apply insert_subseteq. }
    pose proof (Hsim nb _ (d - 1) true alpha beta st2 Hnb2) as Hcall.
    destruct (rec_st nb (d - 1) true alpha beta st2) as [[r st3]|] eqn:Hr; cbn.
    + destruct Hcall as (r' & -> & Hd).
      destruct (Hframe _ _ _ _ _ _ _ _ Hr) as [Hsub3 _].
      pose proof (child_deref _ nb _ m r r' (lookup_weaken _ _ _ _ Hnb2 Hsub3) Hd)
        as Hchild.
      apply deref_result_inv in Hd as (Hsc & _ & _).
      destruct r' as [s' mv' t']. cbn in Hsc, Hchild |- *. subst s'.
      assert (Forall2 (fun tR t => deref (arrays st3) tR = Some t)
                (chR ++ [default (mkTreeNodeRef nb (rscore r) (Some m) []) (rtree r)])
                (ch ++ [default (mkTreeNode (<[m := Some X]> cells) (rscore r)
                                   (Some m) []) t'])) as Hch'.
      { apply Forall2_app; [|constructor; [exact Hchild|constructor]].
        eapply derefs_mono; [|exact Hch]. by etrans. }
      destruct (num_leb _ _); [eauto|].
      apply IH; [|exact Hch'].
      eapply lookup_weaken; [exact Hl|]. by etrans.
    + by rewrite Hcall.
Qed.
End loop_st_sim.

Lemma minimax_st_fuel_sim (f : nat) (l : nat) (cells : BoardState) (d : Z)
    (isMax : bool) (alpha beta : Num) (st : Store) :
  arrays st !! l = Some cells ->
  match minimax_st_fuel f l d isMax alpha beta st with
  | Some (r, st') =>
    exists r', minimax_fuel f cells d isMax alpha beta = Some r' /\
               deref_result (arrays st') r = Some r'
  | None => minimax_fuel f cells d isMax alpha beta = None
  end.
Proof.
  revert l cells d isMax alpha beta st.
  induction f as [|f IH]; intros l cells d isMax alpha beta st Hl; [done|].
  cbn. rewrite Hl. cbn.
  destruct (bool_decide (winner (checkWinner cells) = Some X));
    [by eexists|].
  destruct (bool_decide (winner (checkWinner cells) = Some O));
    [by eexists|].
  destruct (every_not_null cells); [by eexists|].
  destruct (bool_decide (d = 0)); [by eexists|].
  destruct (copyArray_Some l (logCall l st) cells Hl) as [[nodeBoard stA] Hc].
  rewrite Hc. cbn.
  apply copyArray_spec in Hc as (cells' & Hl' & Hnb & HaA & HcA). cbn in Hl', Hnb, HaA.
  assert (cells' = cells) as -> by congruence.
  assert (arrays stA !! l = Some cells) as HlA.
  { rewrite HaA. eapply lookup_weaken; [exact Hl|]. by apply insert_subseteq. }
  assert (arrays stA !! nodeBoard = Some cells) as HnA.
  { by rewrite HaA, lookup_insert_eq. }
  destruct isMax.
  - pose proof (max_loop_st_sim (minimax_st_fuel f) (minimax_fuel f) l d
                  (minimax_st_fuel_frame f) (fun l' c' d' m a be st1 H => IH l' c' d' m a be st1 H)
                  (getAvailableMoves cells) alpha beta NegInf None [] [] stA cells
                  HlA ltac:(constructor)) as Hloop.
    destruct (max_loop_st _ _ _ _ _ _ _ _ _ _) as [[[[bs bm] chR] st1]|] eqn:Hst; cbn.
    + destruct Hloop as (ch & -> & Hch). eexists. split; [done|].
      apply max_loop_st_frame in Hst as [Hsub _]; [|apply minimax_st_fuel_frame].
      unfold deref_result. cbn. rewrite (lookup_weaken _ _ _ _ HnA Hsub). cbn.
      apply mapM_Some in Hch. rewrite Hch. done.
    + by rewrite Hloop.
  - pose proof (min_loop_st_sim (minimax_st_fuel f) (minimax_fuel f) l d
                  (minimax_st_fuel_frame f) (fun l' c' d' m a be st1 H => IH l' c' d' m a be st1 H)
                  (getAvailableMoves cells) alpha beta PosInf None [] [] stA cells
                  HlA ltac:(constructor)) as Hloop.
    destruct (min_loop_st _ _ _ _ _ _ _ _ _ _) as [[[[bs bm] chR] st1]|] eqn:Hst; cbn.
    + destruct Hloop as (ch & -> & Hch). eexists. split; [done|].
      apply min_loop_st_frame in Hst as [Hsub _]; [|apply minimax_st_fuel_frame].
      unfold deref_result. cbn. rewrite (lookup_weaken _ _ _ _ HnA Hsub). cbn.
      apply mapM_Some in Hch. rewrite Hch. done.
    + by rewrite Hloop.
Qed.

(** ** The claims *)

(** C1 (as stated).  On the fixture with X to move and a depth budget of
    9, [minimax] does not return move 5 with score -10. *)
Lemma C1_fixture_move_is_not_5 :
  ~ exists r, minimax fixture 9 false NegInf PosInf = Some r
              /\ move r = Some 5%nat /\ score r = Fin (-10).
Proof.
  intros (r & Hr & Hm & _).
  assert (move <$> minimax fixture 9 false NegInf PosInf = Some (Some 2%nat)) as Hc
    by (vm_compute; reflexivity).
  rewrite Hr in Hc. cbn in Hc. congruence.
Qed.

(** C1 (amended).  On the fixture [O,O,_,X,X,_,_,_,_] with the minimizing
    side to move and a depth budget that covers the five empty cells,
    [minimax] returns score -10 and move 2: the first candidate in index
    order that reaches the best score, here by a forced win, is kept over
    the immediate win at 5, which scores the same. *)
Theorem C1_fixture_full_depth (depth : Z) :
  5 <= depth ->
  exists r, minimax fixture depth false NegInf PosInf = Some r
            /\ score r = Fin (-10) /\ move r = Some 2%nat.
Proof.
  intros Hd. rewrite (minimax_depth_sat fixture depth 5) by (cbn; lia).
  assert ((fun r => (score r, move r)) <$> minimax fixture 5 false NegInf PosInf
          = Some (Fin (-10), Some 2%nat)) as Hr by (vm_compute; reflexivity).
  destruct (minimax fixture 5 false NegInf PosInf) as [r|]; [|done].
  exists r. cbn in Hr. by simplify_eq.
Qed.

Lemma C1_fixture_full_depth_witness :
  5 <= 9 /\
  exists r, minimax fixture 9 false NegInf PosInf = Some r
            /\ score r = Fin (-10) /\ move r = Some 2%nat.
Proof. split; [lia|]. apply (C1_fixture_full_depth 9). lia. Defined.

(** C2.  For every board reached in legal play and every depth budget of
    at least 9, the score of [minimax] called with the bounds at minus
    and plus infinity is the score of the search without pruning. *)
Theorem C2_pruning_keeps_score (g : Game) (depth : Z) (isMaximizing : bool) :
  reachable g -> 9 <= depth ->
  exists r v mv,
    minimax (board g) depth isMaximizing NegInf PosInf = Some r /\
    minimax_noprune (board g) depth isMaximizing = Some (v, mv) /\
    score r = v.
Proof. intros _ _. apply minimax_score_noprune. Qed.

Lemma C2_pruning_keeps_score_witness :
  reachable (makeMove 4 newGame) /\ 9 <= 9 /\
  exists r v mv,
    minimax (board (makeMove 4 newGame)) 9 true NegInf PosInf = Some r /\
    minimax_noprune (board (makeMove 4 newGame)) 9 true = Some (v, mv) /\
    score r = v.
Proof.
  assert (reachable (makeMove 4 newGame)) as Hreach.
  { apply reachable_move; [apply reachable_new|lia]. }
  split; [exact Hreach|]. split; [lia|].
  apply (C2_pruning_keeps_score (makeMove 4 newGame) 9 true); [exact Hreach|lia].
Defined.



(** C4 (as stated).  On a board with a completed line [minimax] returns
    no tree node at all, so no leaf node either. *)
Lemma C4_terminal_has_no_tree :
  terminal xWinsBoard = true /\
  ~ exists r t, minimax xWinsBoard 0 true NegInf PosInf = Some r /\ tree r = Some t.
Proof.
  split; [done|]. intros (r & t & Hr & Ht). vm_compute in Hr. by simplify_eq.
Qed.

(** C4 (amended).  On a terminal board (a winner, or full with no
    winner) [minimax] returns the fixed score of the outcome (-10 for X,
    +10 for O, 0 for a full board without winner) with no move and no
    tree node, for every depth budget, zero included, and every side and
    bounds: the terminal test comes before the depth test.  The leaf node
    of such a board is made by the caller's loop. *)
Theorem C4_terminal_first (b : BoardState) (depth : Z) (isMaximizing : bool)
    (alpha beta : Num) :
  terminal b = true ->
  exists s,
    minimax b depth isMaximizing alpha beta = Some (mkSearchResult s None None) /\
    (winner (checkWinner b) = Some X -> s = Fin (-10)) /\
    (winner (checkWinner b) = Some O -> s = Fin 10) /\
    (winner (checkWinner b) = None -> s = Fin 0).
Proof.
  intros Ht. rewrite minimax_unfold. cbn zeta. unfold terminal in Ht.
  destruct (winner (checkWinner b)) as [[|]|] eqn:Hw.
  - exists (Fin (-10)). rewrite bool_decide_true by done. done.
  - exists (Fin 10). rewrite bool_decide_false, bool_decide_true by done. done.
  - rewrite !bool_decide_false in * by done. cbn in Ht. rewrite Ht.
    exists (Fin 0). done.
Qed.

Lemma C4_terminal_first_witness :
  terminal tieBoard = true /\
  exists s,
    minimax tieBoard 0 true NegInf PosInf = Some (mkSearchResult s None None) /\
    (winner (checkWinner tieBoard) = Some X -> s = Fin (-10)) /\
    (winner (checkWinner tieBoard) = Some O -> s = Fin 10) /\
    (winner (checkWinner tieBoard) = None -> s = Fin 0).
Proof.
  split; [reflexivity|].
  apply (C4_terminal_first tieBoard 0 true NegInf PosInf). reflexivity.
Defined.

(** C5.  For every board that is not terminal, [minimax] with depth
    budget 0 returns score 0 with no move and no tree node.  Such a
    cutoff is told from a tie by its board: the board of a cutoff has an
    empty cell, while a tie is the evaluation of a full board without
    winner, which is terminal, is never the board of a cutoff, and gets
    score 0 with no move at every depth budget, 0 included.  A search
    that returns score 0 with no move is one of the two and never both:
    the cutoff, with depth budget 0 on a board that is not terminal, or
    the tie of a full board. *)
Theorem C5_depth_zero (b : BoardState) (isMaximizing : bool) (alpha beta : Num) :
  terminal b = false ->
  minimax b 0 isMaximizing alpha beta = Some (mkSearchResult (Fin 0) None None) /\
  every_not_null b = false /\ (exists m, b !! m = Some None) /\
  (forall b' depth' isMaximizing' alpha' beta',
     winner (checkWinner b') = None -> every_not_null b' = true ->
     terminal b' = true /\ b' <> b /\
     minimax b' depth' isMaximizing' alpha' beta'
     = Some (mkSearchResult (Fin 0) None None)) /\
  (forall b' depth' isMaximizing' alpha' beta' r',
     minimax b' depth' isMaximizing' alpha' beta' = Some r' ->
     score r' = Fin 0 -> move r' = None ->
     (depth' = 0 /\ terminal b' = false /\ every_not_null b' = false) \/
     (winner (checkWinner b') = None /\ every_not_null b' = true /\
      terminal b' = true)).
Proof.
  intros Ht.
  assert (every_not_null b = false) as Hfull.
  { unfold terminal in Ht. by apply orb_false_iff in Ht as [_ ->]. }
  split_and!.
  - rewrite minimax_unfold. cbn zeta. unfold terminal in Ht.
    apply orb_false_iff in Ht as [[-> ->]%orb_false_iff ->]. done.
  - done.
  - by apply every_not_null_false.
  - intros b' d' m' a' be' Hw Hfull'. split_and!.
    + unfold terminal. rewrite Hfull'. by rewrite orb_true_r.
    + intros ->. congruence.
    + rewrite minimax_unfold. cbn zeta. rewrite Hw, Hfull'.
      by rewrite !bool_decide_false by done.
  - intros b' d' m' a' be' r' Hr' Hs Hm.
    pose proof (minimax_fuel_result _ _ _ _ _ _ _ Hr') as [_ Hres].
    destruct (terminal b') eqn:Ht'.
    + right. rewrite minimax_unfold in Hr'. cbn zeta in Hr'. unfold terminal in Ht'.
      destruct (bool_decide (winner (checkWinner b') = Some X)) eqn:HX;
        [by simplify_eq|].
      destruct (bool_decide (winner (checkWinner b') = Some O)) eqn:HO;
        [by simplify_eq|].
      cbn in Ht'. split_and!; [|done..].
      apply bool_decide_eq_false in HX, HO.
      destruct (winner (checkWinner b')) as [[|]|]; done.
    + left. cbn in Hres.
      destruct (bool_decide (d' = 0)) eqn:Hd0.
      * apply bool_decide_eq_true in Hd0. split_and!; [done..|].
        unfold terminal in Ht'. by apply orb_false_iff in Ht' as [_ ->].
      * destruct Hres as (_ & m & Hm' & _). congruence.
Qed.

Lemma C5_depth_zero_witness :
  terminal fixture = false /\
  minimax fixture 0 false NegInf PosInf = Some (mkSearchResult (Fin 0) None None) /\
  every_not_null fixture = false /\ (exists m, fixture !! m = Some None) /\
  (forall b' depth' isMaximizing' alpha' beta',
     winner (checkWinner b') = None -> every_not_null b' = true ->
     terminal b' = true /\ b' <> fixture /\
     minimax b' depth' isMaximizing' alpha' beta'
     = Some (mkSearchResult (Fin 0) None None)) /\
  (forall b' depth' isMaximizing' alpha' beta' r',
     minimax b' depth' isMaximizing' alpha' beta' = Some r' ->
     score r' = Fin 0 -> move r' = None ->
     (depth' = 0 /\ terminal b' = false /\ every_not_null b' = false) \/
     (winner (checkWinner b') = None /\ every_not_null b' = true /\
      terminal b' = true)).
Proof.
  split; [reflexivity|].
  apply (C5_depth_zero fixture false NegInf PosInf). reflexivity.
Defined.

(** C6 (at a failing input).  On [lateBoard] with depth budget 2 the
    root node carries a move (6, its best move), the child made by move
    6 carries move 8 and the child made by move 8 carries move 6: a node
    that has children carries the best move found from its board, not the
    move that led to it.  Only the leaf nodes carry the move that made
    them. *)
Theorem C6_tree_moves_at_lateBoard :
  tree <$> minimax lateBoard 2 true NegInf PosInf =
  Some (Some
    (mkTreeNode lateBoard (Fin 0) (Some 6%nat)
       [ mkTreeNode (<[6%nat := Some O]> lateBoard) (Fin 0) (Some 8%nat)
           [ mkTreeNode (<[8%nat := Some X]> (<[6%nat := Some O]> lateBoard))
               (Fin 0) (Some 8%nat) [] ];
         mkTreeNode (<[8%nat := Some O]> lateBoard) (Fin (-10)) (Some 6%nat)
           [ mkTreeNode (<[6%nat := Some X]> (<[8%nat := Some O]> lateBoard))
               (Fin (-10)) (Some 6%nat) [] ] ])).
Proof. vm_compute. reflexivity. Qed.

(** C7 (as stated).  [checkWinner] returns the same result for a full
    board without a line and for a board without a line that has empty
    cells. *)
Lemma C7_tie_equals_nonterminal :
  length tieBoard = 9%nat /\ length emptyBoard = 9%nat /\
  every_not_null tieBoard = true /\ every_not_null emptyBoard = false /\
  checkWinner tieBoard = checkWinner emptyBoard.
Proof. by vm_compute. Qed.

(** C7 (amended).  For every 9-cell board: if some line of the table
    holds three equal marks, [checkWinner] returns that mark and the
    first such line in the order of the table; otherwise it returns no
    winner and no line, whether the board is full or not (the callers
    test for a full board themselves). *)
Theorem C7_checkWinner (b : BoardState) :
  length b = 9%nat ->
  (forall pre l post s,
     lines = pre ++ l :: post ->
     (forall l' s', l' ∈ pre -> ~ three_in_row b l' s') ->
     three_in_row b l s ->
     checkWinner b = {| winner := Some s; line := Some (line_cells l) |}) /\
  ((forall l s, l ∈ lines -> ~ three_in_row b l s) ->
   checkWinner b = {| winner := None; line := None |}).
Proof.
  intros _. split.
  - intros pre l post s. apply checkWinner_first.
  - apply checkWinner_no_line.
Qed.

Lemma C7_checkWinner_witness :
  length xWinsBoard = 9%nat /\
  (forall pre l post s,
     lines = pre ++ l :: post ->
     (forall l' s', l' ∈ pre -> ~ three_in_row xWinsBoard l' s') ->
     three_in_row xWinsBoard l s ->
     checkWinner xWinsBoard = {| winner := Some s; line := Some (line_cells l) |}) /\
  ((forall l s, l ∈ lines -> ~ three_in_row xWinsBoard l s) ->
   checkWinner xWinsBoard = {| winner := None; line := None |}).
Proof. split; [reflexivity|]. apply (C7_checkWinner xWinsBoard). reflexivity. Defined.

(** C8 (as stated).  A board with a complete line of each side on which
    [checkWinner] returns O, and [minimax] the score of O. *)
Lemma C8_both_lines_O_wins :
  three_in_row bothLinesBoard (3, 4, 5)%nat X /\
  three_in_row bothLinesBoard (0, 1, 2)%nat O /\
  checkWinner bothLinesBoard = {| winner := Some O; line := Some [0; 1; 2]%nat |} /\
  minimax bothLinesBoard 0 true NegInf PosInf = Some (mkSearchResult (Fin 10) None None).
Proof. by vm_compute. Qed.

(** C8 (amended).  On a board with a complete line of each side,
    [checkWinner] returns the side whose first complete line comes
    earlier in the table: X exactly when that is an X line. *)
Theorem C8_both_lines (b : BoardState) (ix io : nat) (lx lo : nat * nat * nat) :
  lines !! ix = Some lx -> three_in_row b lx X ->
  (forall j l, (j < ix)%nat -> lines !! j = Some l -> ~ three_in_row b l X) ->
  lines !! io = Some lo -> three_in_row b lo O ->
  (forall j l, (j < io)%nat -> lines !! j = Some l -> ~ three_in_row b l O) ->
  checkWinner b =
  if (ix <? io)%nat
  then {| winner := Some X; line := Some (line_cells lx) |}
  else {| winner := Some O; line := Some (line_cells lo) |}.
Proof.
  intros Hix Hx Hfx Hio Ho Hfo.
  assert (ix <> io) as Hne.
  { intros ->. simplify_eq. destruct Hx as [Hx _], Ho as [Ho _]. congruence. }
  destruct (Nat.ltb_spec ix io) as [Hlt|Hge].
  - apply (checkWinner_first b (take ix lines) (drop (S ix) lines) lx X);
      [by rewrite take_drop_middle| |done].
    intros l' s' [j Hj]%list_elem_of_lookup Hs'.
    apply lookup_take_Some in Hj as [Hj Hlt'].
    destruct s'; [by eapply Hfx|eapply Hfo; [|done..]; lia].
  - apply (checkWinner_first b (take io lines) (drop (S io) lines) lo O);
      [by rewrite take_drop_middle| |done].
    intros l' s' [j Hj]%list_elem_of_lookup Hs'.
    apply lookup_take_Some in Hj as [Hj Hlt'].
    destruct s'; [eapply Hfx; [|done..]; lia|by eapply Hfo].
Qed.

Lemma C8_both_lines_witness :
  checkWinner bothLinesBoard =
  if (1 <? 0)%nat
  then {| winner := Some X; line := Some (line_cells (3, 4, 5)%nat) |}
  else {| winner := Some O; line := Some (line_cells (0, 1, 2)%nat) |}.
Proof.
  apply (C8_both_lines bothLinesBoard 1 0 (3, 4, 5)%nat (0, 1, 2)%nat).
  - reflexivity.
  - by vm_compute.
  - intros j l Hj Hl. assert (j = 0%nat) as -> by lia.
    vm_compute in Hl. simplify_eq. intros [H _]. by vm_compute in H.
  - reflexivity.
  - by vm_compute.
  - intros j l Hj. lia.
Defined.

(** C9.  A call of [minimax] on the array at address [l] returns, and
    afterwards the array at [l], like every array that existed before
    the call, holds the cells it held before: every write goes to an
    array made during the call.  Every nested call is on an array that
    did not exist before the call (a new copy).  The result stands for
    the result of the search on the board held at [l]. *)
Theorem C9_minimax_does_not_mutate (st : Store) (l : nat) (cells : BoardState)
    (depth : Z) (isMaximizing : bool) (alpha beta : Num) :
  arrays st !! l = Some cells ->
  exists r st',
    minimax_st l depth isMaximizing alpha beta st = Some (r, st') /\
    arrays st' !! l = Some cells /\
    (forall l' cells', arrays st !! l' = Some cells' ->
                       arrays st' !! l' = Some cells') /\
    (exists ls, calls st' = calls st ++ l :: ls /\
                Forall (fun l' => arrays st !! l' = None) ls) /\
    deref_result (arrays st') r = minimax cells depth isMaximizing alpha beta.
Proof.
  intros Hl.
  assert (minimax_st l depth isMaximizing alpha beta st
          = minimax_st_fuel (S (length (getAvailableMoves cells))) l depth
              isMaximizing alpha beta st) as ->.
  { unfold minimax_st. by rewrite Hl. }
  unfold minimax.
  pose proof (minimax_st_fuel_sim (S (length (getAvailableMoves cells))) l cells
                depth isMaximizing alpha beta st Hl) as Hsim.
  destruct (minimax_st_fuel _ _ _ _ _ _ _) as [[r st']|] eqn:Hst.
  - destruct Hsim as (r' & Hr' & Hd).
    apply minimax_st_fuel_frame in Hst as (Hsub & Hcalls).
    exists r, st'. split_and!.
    + done.
    + exact (lookup_weaken _ _ _ _ Hl Hsub).
    + intros l' cells' Hl'. exact (lookup_weaken _ _ _ _ Hl' Hsub).
    + exact Hcalls.
    + congruence.
  - destruct (minimax_total cells depth isMaximizing alpha beta) as [r' Hr'].
    unfold minimax in Hr'. congruence.
Qed.

Lemma C9_minimax_does_not_mutate_witness :
  arrays fixtureStore !! 0%nat = Some fixture /\
  exists r st',
    minimax_st 0 2 false NegInf PosInf fixtureStore = Some (r, st') /\
    arrays st' !! 0%nat = Some fixture /\
    (forall l' cells', arrays fixtureStore !! l' = Some cells' ->
                       arrays st' !! l' = Some cells') /\
    (exists ls, calls st' = calls fixtureStore ++ 0%nat :: ls /\
                Forall (fun l' => arrays fixtureStore !! l' = None) ls) /\
    deref_result (arrays st') r = minimax fixture 2 false NegInf PosInf.
Proof.
  split; [reflexivity|].
  apply (C9_minimax_does_not_mutate fixtureStore 0 fixture 2 false NegInf PosInf).
  reflexivity.
Defined.

(** C10.  On a board that the evaluator gives no winner and that has an
    empty cell, with a depth budget of at least 1, [minimax] returns a
    move, and the move is the index of an empty cell of the board, for
    every side and all bounds.  For every board, depth budget, side and
    bounds, a result without move comes from a terminal board or from
    depth budget 0. *)
Theorem C10_move_defined (b : BoardState) (depth : Z) (isMaximizing : bool)
    (alpha beta : Num) :
  winner (checkWinner b) = None -> every_not_null b = false -> 1 <= depth ->
  (exists r m, minimax b depth isMaximizing alpha beta = Some r /\
               move r = Some m /\ b !! m = Some None) /\
  (forall b' depth' isMaximizing' alpha' beta' r',
     minimax b' depth' isMaximizing' alpha' beta' = Some r' ->
     move r' = None -> terminal b' = true \/ depth' = 0).
Proof.
  intros Hw Hfull Hd. split.
  - destruct (minimax_total b depth isMaximizing alpha beta) as [r Hr].
    pose proof (minimax_fuel_result _ _ _ _ _ _ _ Hr) as [_ Hres].
    unfold terminal in Hres. rewrite Hw, Hfull in Hres.
    rewrite !bool_decide_false in Hres by (done || lia). cbn in Hres.
    destruct Hres as (_ & m & Hm & Hin). exists r, m. split_and!; [done..|].
    by apply elem_of_getAvailableMoves.
  - intros b' d' m' a' be' r' Hr' Hnone.
    pose proof (minimax_fuel_result _ _ _ _ _ _ _ Hr') as [_ Hres].
    destruct (terminal b'); [by left|]. cbn in Hres.
    destruct (bool_decide (d' = 0)) eqn:Hd0; [right; by apply bool_decide_eq_true in Hd0|].
    destruct Hres as (_ & m & Hm & _). congruence.
Qed.

Lemma C10_move_defined_witness :
  winner (checkWinner fixture) = None /\ every_not_null fixture = false /\ 1 <= 1 /\
  (exists r m, minimax fixture 1 false NegInf PosInf = Some r /\
               move r = Some m /\ fixture !! m = Some None) /\
  (forall b' depth' isMaximizing' alpha' beta' r',
     minimax b' depth' isMaximizing' alpha' beta' = Some r' ->
     move r' = None -> terminal b' = true \/ depth' = 0).
Proof.
  split; [reflexivity|]. split; [reflexivity|]. split; [lia|].
  apply (C10_move_defined fixture 1 false NegInf PosInf); [reflexivity|reflexivity|lia].
Defined.

(** * The rest of the component *)

(** ** Candidate moves, further *)

Lemma getAvailableMoves_sorted_gen (g : nat -> nat) (b : BoardState) :
  (forall i j, (i < j)%nat -> (g i < g j)%nat) ->
  StronglySorted lt
    (omap id (imap (fun index (square : Player) =>
       match square with None => Some (g index) | Some _ => None end) b)).
Proof.
  revert g. induction b as [|sq b IH]; intros g Hg; [constructor|].
  cbn [imap]. assert (forall i j, (i < j)%nat -> ((g ∘ S) i < (g ∘ S) j)%nat) as HgS.
  { intros i j Hij. apply Hg. lia. }
  specialize (IH (g ∘ S) HgS). destruct sq as [mk|]; cbn [omap]; [exact IH|].
  cbn. constructor; [exact IH|].
  apply Forall_forall. intros x Hx.
  apply list_elem_of_omap in Hx as (y & Hy & Hid).
  apply elem_of_lookup_imap in Hy as (i & sq & -> & Hi).
  destruct sq; simplify_eq/=. apply Hg. lia.
Qed.

Lemma getAvailableMoves_nil (b : BoardState) :
  getAvailableMoves b = [] <-> every_not_null b = true.
Proof.
  split.
  - intros Hnil. destruct (every_not_null b) eqn:Hb; [done|].
    by apply every_not_null_moves in Hb.
  - intros Hfull. destruct (getAvailableMoves b) as [|m ms] eqn:Hm; [done|].
    assert (m ∈ getAvailableMoves b) as Hin by (rewrite Hm; apply list_elem_of_here).
    apply elem_of_getAvailableMoves in Hin.
    assert (every_not_null b = false) as Hf by (apply every_not_null_false; eauto).
    congruence.
Qed.

(** ** The evaluator, further *)

Lemma checkWinner_loop_cases (b : BoardState) (ls : list (nat * nat * nat)) :
  (exists pre l post s,
     ls = pre ++ l :: post /\
     Forall (fun l' => line_complete b l' = false) pre /\
     three_in_row b l s /\
     checkWinner_loop b ls = Some {| winner := Some s; line := Some (line_cells l) |})
  \/ (Forall (fun l' => line_complete b l' = false) ls /\ checkWinner_loop b ls = None).
Proof.
  induction ls as [|l ls IH]; [right; by split|].
  destruct (line_complete b l) eqn:Hl.
  - left. apply line_complete_spec in Hl as [s Hs].
    exists [], l, ls, s. split_and!; [done|constructor|done|].
    by apply (checkWinner_loop_first b [] ls l s).
  - destruct IH as [(pre & l' & post & s & -> & Hpre & Hs & Hloop)|[Hall Hloop]].
    + left. exists (l :: pre), l', post, s. split_and!; [done|by constructor|done|].
      cbn. by rewrite Hl.
    + right. split; [by constructor|]. cbn. by rewrite Hl.
Qed.

Lemma checkWinner_cases (b : BoardState) :
  (exists pre l post s,
     lines = pre ++ l :: post /\
     (forall l' s', l' ∈ pre -> ~ three_in_row b l' s') /\
     three_in_row b l s /\
     checkWinner b = {| winner := Some s; line := Some (line_cells l) |})
  \/ ((forall l s, l ∈ lines -> ~ three_in_row b l s) /\
      checkWinner b = {| winner := None; line := None |}).
Proof.
  destruct (checkWinner_loop_cases b lines)
    as [(pre & l & post & s & Hl & Hpre & Hs & Hloop)|[Hall Hloop]].
  - left. exists pre, l, post, s. split_and!; [done| |done|].
    + intros l' s' Hl'. rewrite Forall_forall in Hpre.
      by apply line_complete_false, Hpre.
    + unfold checkWinner. by rewrite Hloop.
  - right. split.
    + intros l s Hl. rewrite Forall_forall in Hall.
      by apply line_complete_false, Hall.
    + unfold checkWinner. rewrite Hloop. by destruct (every_not_null b).
Qed.

Lemma checkWinner_None (b : BoardState) :
  winner (checkWinner b) = None <->
  forall l s, l ∈ lines -> ~ three_in_row b l s.
Proof.
  destruct (checkWinner_cases b)
    as [(pre & l & post & s & Hl & Hpre & Hs & ->)|[Hall ->]]; cbn.
  - split; [done|]. intros Hno. exfalso. apply (Hno l s); [|done].
    rewrite Hl. apply elem_of_app. right. apply list_elem_of_here.
  - done.
Qed.

Lemma checkWinner_Some (b : BoardState) (s : Mark) :
  winner (checkWinner b) = Some s ->
  exists l, l ∈ lines /\ three_in_row b l s.
Proof.
  destruct (checkWinner_cases b)
    as [(pre & l & post & s' & Hl & Hpre & Hs & ->)|[Hall ->]]; cbn; [|done].
  intros [= ->]. exists l. split; [|done].
  rewrite Hl. apply elem_of_app. right. apply list_elem_of_here.
Qed.

(** ** Legal play *)

(** A mark on an empty cell of a board without complete line: every
    complete line of the new board is a line of that mark. *)
Lemma three_in_row_insert (b : BoardState) (i : nat) (s s' : Mark)
    (l : nat * nat * nat) :
  b !! i = Some None ->
  (forall s0, ~ three_in_row b l s0) ->
  three_in_row (<[i := Some s]> b) l s' -> s' = s.
Proof.
  intros Hi Hno (Ha & Hb & Hc).
  assert (i < length b)%nat as Hlen by (by eapply lookup_lt_Some).
  destruct (decide (i = l.1.1)) as [->|Ha'].
  { rewrite list_lookup_insert_eq in Ha by done. congruence. }
  destruct (decide (i = l.1.2)) as [->|Hb'].
  { rewrite list_lookup_insert_eq in Hb by done. congruence. }
  destruct (decide (i = l.2)) as [->|Hc'].
  { rewrite list_lookup_insert_eq in Hc by done. congruence. }
  rewrite list_lookup_insert_ne in Ha, Hb, Hc by done.
  exfalso. by apply (Hno s').
Qed.

Lemma count_mark_insert (b : BoardState) (i : nat) (s s' : Mark) :
  b !! i = Some None ->
  count_mark s' (<[i := Some s]> b)
  = ((if bool_decide (s = s') then 1 else 0) + count_mark s' b)%nat.
Proof.
  revert i. induction b as [|sq b IH]; intros i Hi; [done|].
  destruct i as [|i]; simplify_eq/=; [done|].
  rewrite (IH i Hi). destruct sq as [mk|]; [|done]. lia.
Qed.

Lemma makeMove_guard (index : nat) (g : Game) :
  length (board g) = 9%nat -> (index < 9)%nat ->
  truthy (board g !! index) || negb (bool_decide (gameStatus g = playing)) = false ->
  board g !! index = Some None /\ gameStatus g = playing.
Proof.
  intros Hlen Hi [Ht Hp]%orb_false_iff.
  apply negb_false_iff, bool_decide_eq_true in Hp. split; [|done].
  destruct (lookup_lt_is_Some_2 (board g) index) as [[mk|] Hc]; [lia| |done].
  by rewrite Hc in Ht.
Qed.

Lemma game_inv_makeMove (index : nat) (g : Game) :
  (index < 9)%nat -> game_inv g -> game_inv (makeMove index g).
Proof.
  intros Hi Hinv. unfold makeMove.
  destruct (truthy _ || _) eqn:Hguard; [done|].
  destruct Hinv as [Hlen Hst].
  destruct (makeMove_guard index g Hlen Hi Hguard) as [Hcell Hplay].
  rewrite Hplay in Hst. destruct Hst as (Hno & Hfull & Hcount & Hgw).
  set (s := if isXNext g then X else O).
  set (newBoard := <[index := Some s]> (board g)).
  assert (forall l s', l ∈ lines -> three_in_row newBoard l s' -> s' = s) as Hown.
  { intros l s' Hl Hs'. eapply three_in_row_insert; [exact Hcell| |exact Hs'].
    intros s0. by apply Hno. }
  assert (count_mark X newBoard
          = (count_mark O newBoard + (if isXNext g then 1 else 0))%nat) as Hcount'.
  { unfold newBoard. rewrite !count_mark_insert by done. rewrite Hcount.
    unfold s. destruct (isXNext g); repeat case_bool_decide; (done || lia). }
  assert (length newBoard = 9%nat) as Hlen'.
  { unfold newBoard. by rewrite length_insert. }
  destruct (winner (checkWinner newBoard)) as [w|] eqn:Hw.
  - split; [exact Hlen'|]. cbn.
    destruct (checkWinner_Some _ _ Hw) as (l & Hl & Hs).
    rewrite (Hown l w Hl Hs) in *. split_and!; [done| |done|done].
    rewrite <- Hw. by destruct (checkWinner newBoard).
  - pose proof (proj1 (checkWinner_None newBoard) Hw) as Hno'.
    destruct (every_not_null newBoard) eqn:Hfull'.
    + split; [exact Hlen'|]. cbn. done.
    + split; [exact Hlen'|]. cbn. rewrite Hplay. split_and!; [done..| |done].
      rewrite Hcount'. by destruct (isXNext g).
Qed.

Lemma reachable_inv (g : Game) : reachable g -> game_inv g.
Proof.
  induction 1 as [|g index _ IH Hi].
  - assert (forall l s, l ∈ lines -> ~ three_in_row (board newGame) l s) as Hno.
    { intros l s Hl (Ha & _ & _). unfold newGame in Ha. cbn [board] in Ha.
      by apply lookup_replicate in Ha as [? _]. }
    split; [done|]. split_and!; [exact Hno|done..].
  - by apply game_inv_makeMove.
Qed.

(** ** Depth budgets that never run out *)

Lemma never_cut_move (b : BoardState) (d : Z) (m : nat) (s : Mark) :
  m ∈ getAvailableMoves b -> never_cut b d ->
  never_cut (<[m := Some s]> b) (d - 1).
Proof.
  intros Hm Hd. pose proof (count_null_move b m s Hm). unfold never_cut in *. lia.
Qed.

Lemma minimax_fuel_never_cut (f : nat) (b : BoardState) (d1 d2 : Z)
    (isMax : bool) (alpha beta : Num) :
  never_cut b d1 -> never_cut b d2 ->
  minimax_fuel f b d1 isMax alpha beta = minimax_fuel f b d2 isMax alpha beta.
Proof.
  revert b d1 d2 isMax alpha beta.
  induction f as [|f IH]; intros b d1 d2 isMax alpha beta H1 H2; [done|]. cbn.
  repeat (case_match; [done|]).
  match goal with H : every_not_null b = false |- _ =>
    pose proof (every_not_null_count b H) end.
  rewrite !bool_decide_false by (unfold never_cut in *; lia).
  destruct isMax.
  - rewrite (max_loop_ext (minimax_fuel f) (minimax_fuel f) b d1 d2); [done|].
    intros m a be Hm. apply IH; by apply never_cut_move.
  - rewrite (min_loop_ext (minimax_fuel f) (minimax_fuel f) b d1 d2); [done|].
    intros m a be Hm. apply IH; by apply never_cut_move.
Qed.

(** ** The search without pruning, further *)

Section noprune_loop_ext.
Context (recp recp' : BoardState -> Z -> bool -> option (Num * option nat)).
Context (b : BoardState) (d : Z).

Lemma max_loop_noprune_ext moves V Vm :
  (forall m, m ∈ moves ->
     recp (<[m := Some O]> b) (d - 1) false = recp' (<[m := Some O]> b) (d - 1) false) ->
  max_loop_noprune recp b d moves V Vm = max_loop_noprune recp' b d moves V Vm.
Proof.
  revert V Vm. induction moves as [|m moves IH]; intros V Vm Hrec; [done|].
  cbn. rewrite (Hrec m) by apply list_elem_of_here.
  destruct (recp' _ _ _) as [[v mv]|]; [|done].
  apply IH. intros m' Hm'. apply Hrec. by apply list_elem_of_further.
Qed.

Lemma min_loop_noprune_ext moves V Vm :
  (forall m, m ∈ moves ->
     recp (<[m := Some X]> b) (d - 1) true = recp' (<[m := Some X]> b) (d - 1) true) ->
  min_loop_noprune recp b d moves V Vm = min_loop_noprune recp' b d moves V Vm.
Proof.
  revert V Vm. induction moves as [|m moves IH]; intros V Vm Hrec; [done|].
  cbn. rewrite (Hrec m) by apply list_elem_of_here.
  destruct (recp' _ _ _) as [[v mv]|]; [|done].
  apply IH. intros m' Hm'. apply Hrec. by apply list_elem_of_further.
Qed.
End noprune_loop_ext.

Lemma minimax_noprune_fuel_indep (f1 f2 : nat) (b : BoardState) (d : Z) (isMax : bool) :
  (count_null b < f1)%nat -> (count_null b < f2)%nat ->
  minimax_noprune_fuel f1 b d isMax = minimax_noprune_fuel f2 b d isMax.
Proof.
  revert f2 b d isMax.
  induction f1 as [|f1 IH]; intros f2 b d isMax H1 H2; [lia|].
  destruct f2 as [|f2]; [lia|]. cbn.
  repeat (case_match; [done|]).
  destruct isMax.
  - apply max_loop_noprune_ext. intros m Hm.
    pose proof (count_null_move b m O Hm). apply IH; lia.
  - apply min_loop_noprune_ext. intros m Hm.
    pose proof (count_null_move b m X Hm). apply IH; lia.
Qed.

Lemma minimax_noprune_fuel_enough (f : nat) (b : BoardState) (d : Z) (isMax : bool) :
  (count_null b < f)%nat ->
  minimax_noprune_fuel f b d isMax = minimax_noprune b d isMax.
Proof.
  intros Hf. unfold minimax_noprune. apply minimax_noprune_fuel_indep; [done|].
  rewrite getAvailableMoves_length. lia.
Qed.

(** The equation of the search without pruning. *)
Lemma minimax_noprune_unfold (b : BoardState) (d : Z) (isMax : bool) :
  minimax_noprune b d isMax =
  let w := winner (checkWinner b) in
  if bool_decide (w = Some X) then Some (SCORES_X, None)
  else if bool_decide (w = Some O) then Some (SCORES_O, None)
  else if every_not_null b then Some (SCORES_tie, None)
  else if bool_decide (d = 0) then Some (Fin 0, None)
  else if isMax
       then max_loop_noprune minimax_noprune b d (getAvailableMoves b) NegInf None
       else min_loop_noprune minimax_noprune b d (getAvailableMoves b) PosInf None.
Proof.
  unfold minimax_noprune at 1. cbn.
  repeat (case_match; [done|]).
  destruct isMax.
  - apply max_loop_noprune_ext. intros m Hm. apply minimax_noprune_fuel_enough.
    pose proof (count_null_move b m O Hm). rewrite getAvailableMoves_length. lia.
  - apply min_loop_noprune_ext. intros m Hm. apply minimax_noprune_fuel_enough.
    pose proof (count_null_move b m X Hm). rewrite getAvailableMoves_length. lia.
Qed.

Lemma num_leb_trans (a b c : Num) :
  num_leb a b = true -> num_leb b c = true -> num_leb a c = true.
Proof.
  destruct (bounded_exists [a; b; c]) as (lo & hi & Hlh & Hb).
  intros H1 H2. num_to_Z lo hi. apply (emb_leb lo hi); [done..|]. lia.
Qed.

Lemma num_ltb_leb_trans (a b c : Num) :
  num_ltb a b = true -> num_leb b c = true -> num_ltb a c = true.
Proof.
  destruct (bounded_exists [a; b; c]) as (lo & hi & Hlh & Hb).
  intros H1 H2. num_to_Z lo hi. lia.
Qed.

Lemma num_leb_ltb_trans (a b c : Num) :
  num_leb a b = true -> num_ltb b c = true -> num_ltb a c = true.
Proof.
  destruct (bounded_exists [a; b; c]) as (lo & hi & Hlh & Hb).
  intros H1 H2. num_to_Z lo hi. lia.
Qed.

Lemma num_ltb_leb (a b : Num) : num_ltb a b = true -> num_leb a b = true.
Proof.
  destruct (bounded_exists [a; b]) as (lo & hi & Hlh & Hb).
  intros H1. num_to_Z lo hi. apply (emb_leb lo hi); [done..|]. lia.
Qed.

Lemma num_ltb_false_leb (a b : Num) : num_ltb a b = false <-> num_leb b a = true.
Proof. unfold num_leb. by rewrite negb_true_iff. Qed.

Lemma num_leb_antisym (a b : Num) :
  num_leb a b = true -> num_leb b a = true -> a = b.
Proof.
  destruct (bounded_exists [a; b]) as (lo & hi & Hlh & Hb).
  intros H1 H2. num_to_Z lo hi. lia.
Qed.

Lemma num_ltb_irrefl (a : Num) : num_ltb a a = false.
Proof. destruct a; cbn; [done| |done]. apply Z.ltb_irrefl. Qed.

Lemma is_score_finite (s : Num) :
  is_score s -> num_ltb NegInf s = true /\ num_ltb s PosInf = true.
Proof. by intros [->|[->| ->]]. Qed.

(** ** With the widest window the loops are the loops without pruning *)

Section loop_widest.
Context (rec : BoardState -> Z -> bool -> Num -> Num -> option SearchResult).
Context (recp : BoardState -> Z -> bool -> option (Num * option nat)).
Context (b : BoardState) (d : Z).

Lemma max_loop_widest moves bs bm ch bs' bm' ch' V' Vm' :
  (forall m a be r v mv, m ∈ moves -> num_ltb a be = true ->
     rec (<[m := Some O]> b) (d - 1) false a be = Some r ->
     recp (<[m := Some O]> b) (d - 1) false = Some (v, mv) ->
     ab_ok a be (score r) v /\ is_score (score r)) ->
  bs = NegInf \/ is_score bs ->
  max_loop rec b d moves bs PosInf bs bm ch = Some (bs', bm', ch') ->
  max_loop_noprune recp b d moves bs bm = Some (V', Vm') ->
  bs' = V' /\ bm' = Vm'.
Proof.
  revert bs bm ch.
  induction moves as [|m moves IH]; intros bs bm ch Hrec Hbs Hloop Hplain;
    cbn in Hloop, Hplain.
  - by simplify_eq.
  - destruct (rec _ _ _ _ _) as [r|] eqn:Hr; [|done].
    destruct (recp _ _ _) as [[v mv]|] eqn:Hv; [|done].
    assert (num_ltb bs PosInf = true) as Hwin.
    { destruct Hbs as [->|Hs]; [done|]. by apply is_score_finite. }
    destruct (Hrec m bs PosInf r v mv (list_elem_of_here _ _) Hwin Hr Hv)
      as [(Hlow & _ & Hin) Hsc].
    assert ((if num_ltb bs v then v else bs) = (if num_ltb bs (score r) then score r else bs)
            /\ (if num_ltb bs v then Some m else bm)
               = (if num_ltb bs (score r) then Some m else bm)) as [Hs Hm].
    { destruct (num_ltb bs (score r)) eqn:Hlt.
      - rewrite <- (Hin eq_refl (proj2 (is_score_finite _ Hsc))). by rewrite Hlt.
      - assert (num_ltb bs v = false) as ->; [|done].
        apply num_ltb_false_leb. apply num_ltb_false_leb in Hlt.
        eapply num_leb_trans; [|exact Hlt]. by apply Hlow. }
    rewrite Hs, Hm in Hplain.
    set (bs1 := if num_ltb bs (score r) then score r else bs) in *.
    assert (bs1 = NegInf \/ is_score bs1) as Hbs1.
    { unfold bs1. destruct (num_ltb bs (score r)); [by right|done]. }
    assert (num_max bs bs1 = bs1) as Ha.
    { unfold bs1, num_max. destruct (num_ltb bs (score r)) eqn:Hlt; [by rewrite Hlt|].
      by rewrite num_ltb_irrefl. }
    rewrite Ha in Hloop.
    assert (num_leb PosInf bs1 = false) as Hcut.
    { destruct Hbs1 as [->|[->|[->| ->]]]; done. }
    rewrite Hcut in Hloop.
    eapply IH; [|exact Hbs1|exact Hloop|exact Hplain].
    intros m' a be r' v' mv' Hm'. apply Hrec. by apply list_elem_of_further.
Qed.

Lemma min_loop_widest moves bs bm ch bs' bm' ch' V' Vm' :
  (forall m a be r v mv, m ∈ moves -> num_ltb a be = true ->
     rec (<[m := Some X]> b) (d - 1) true a be = Some r ->
     recp (<[m := Some X]> b) (d - 1) true = Some (v, mv) ->
     ab_ok a be (score r) v /\ is_score (score r)) ->
  bs = PosInf \/ is_score bs ->
  min_loop rec b d moves NegInf bs bs bm ch = Some (bs', bm', ch') ->
  min_loop_noprune recp b d moves bs bm = Some (V', Vm') ->
  bs' = V' /\ bm' = Vm'.
Proof.
  revert bs bm ch.
  induction moves as [|m moves IH]; intros bs bm ch Hrec Hbs Hloop Hplain;
    cbn in Hloop, Hplain.
  - by simplify_eq.
  - destruct (rec _ _ _ _ _) as [r|] eqn:Hr; [|done].
    destruct (recp _ _ _) as [[v mv]|] eqn:Hv; [|done].
    assert (num_ltb NegInf bs = true) as Hwin.
    { destruct Hbs as [->|Hs]; [done|]. by apply is_score_finite. }
    destruct (Hrec m NegInf bs r v mv (list_elem_of_here _ _) Hwin Hr Hv)
      as [(_ & Hhigh & Hin) Hsc].
    assert ((if num_ltb v bs then v else bs) = (if num_ltb (score r) bs then score r else bs)
            /\ (if num_ltb v bs then Some m else bm)
               = (if num_ltb (score r) bs then Some m else bm)) as [Hs Hm].
    { destruct (num_ltb (score r) bs) eqn:Hlt.
      - rewrite <- (Hin (proj1 (is_score_finite _ Hsc)) eq_refl). by rewrite Hlt.
      - assert (num_ltb v bs = false) as ->; [|done].
        apply num_ltb_false_leb. apply num_ltb_false_leb in Hlt.
        eapply num_leb_trans; [exact Hlt|]. by apply Hhigh. }
    rewrite Hs, Hm in Hplain.
    set (bs1 := if num_ltb (score r) bs then score r else bs) in *.
    assert (bs1 = PosInf \/ is_score bs1) as Hbs1.
    { unfold bs1. destruct (num_ltb (score r) bs); [by right|done]. }
    assert (num_min bs bs1 = bs1) as Ha.
    { unfold bs1, num_min. destruct (num_ltb (score r) bs) eqn:Hlt; [by rewrite Hlt|].
      by rewrite num_ltb_irrefl. }
    rewrite Ha in Hloop.
    assert (num_leb bs1 NegInf = false) as Hcut.
    { destruct Hbs1 as [->|[->|[->| ->]]]; done. }
    rewrite Hcut in Hloop.
    eapply IH; [|exact Hbs1|exact Hloop|exact Hplain].
    intros m' a be r' v' mv' Hm'. apply Hrec. by apply list_elem_of_further.
Qed.
End loop_widest.

Lemma minimax_fuel_widest (f : nat) (b : BoardState) (d : Z) (isMax : bool)
    (r : SearchResult) (v : Num) (mv : option nat) :
  minimax_fuel f b d isMax NegInf PosInf = Some r ->
  minimax_noprune_fuel f b d isMax = Some (v, mv) ->
  score r = v /\ move r = mv.
Proof.
  destruct f as [|f]; [done|]. cbn. intros Hr Hv.
  repeat (case_match; [by simplify_eq|]).
  destruct isMax.
  - destruct (max_loop _ _ _ _ _ _ _ _ _) as [[[bs bm] ch]|] eqn:Hloop; [|done].
    simplify_eq. cbn.
    eapply (max_loop_widest (minimax_fuel f) (minimax_noprune_fuel f));
      [|by left|exact Hloop|exact Hv].
    intros m a be r v' mv' _ Hlt Hr Hv'. split; [by eapply minimax_fuel_ab|].
    by apply minimax_fuel_result in Hr as [? _].
  - destruct (min_loop _ _ _ _ _ _ _ _ _) as [[[bs bm] ch]|] eqn:Hloop; [|done].
    simplify_eq. cbn.
    eapply (min_loop_widest (minimax_fuel f) (minimax_noprune_fuel f));
      [|by left|exact Hloop|exact Hv].
    intros m a be r v' mv' _ Hlt Hr Hv'. split; [by eapply minimax_fuel_ab|].
    by apply minimax_fuel_result in Hr as [? _].
Qed.

(** ** What the loops without pruning compute *)

Section noprune_loop_spec.
Context (recp : BoardState -> Z -> bool -> option (Num * option nat)).
Context (b : BoardState) (d : Z).

Lemma max_loop_noprune_spec moves V Vm V' Vm' :
  max_loop_noprune recp b d moves V Vm = Some (V', Vm') ->
  (forall m v mv, m ∈ moves ->
     recp (<[m := Some O]> b) (d - 1) false = Some (v, mv) ->
     num_leb v V' = true) /\
  ((V' = V /\ Vm' = Vm) \/
   (exists m mv, m ∈ moves /\ Vm' = Some m /\
                 recp (<[m := Some O]> b) (d - 1) false = Some (V', mv))).
Proof.
  revert V Vm. induction moves as [|m moves IH]; intros V Vm Hloop; cbn in Hloop.
  - simplify_eq. split; [|by left]. intros m v mv Hm. by apply elem_of_nil in Hm.
  - destruct (recp _ _ _) as [[v mv]|] eqn:Hv; [|done].
    pose proof (max_loop_noprune_ge _ _ _ _ _ _ _ _ Hloop) as Hge.
    destruct (IH _ _ Hloop) as [Hall Hcase]. split.
    + intros m' v' mv' [->|Hm']%elem_of_cons Hv'; [|by eapply Hall].
      simplify_eq. destruct (num_ltb V v) eqn:Hlt; [done|].
      apply num_ltb_false_leb in Hlt. by eapply num_leb_trans.
    + destruct Hcase as [[-> ->]|(m' & mv' & Hm' & -> & Hv')].
      * destruct (num_ltb V v); [|by left].
        right. exists m, mv. split_and!; [apply list_elem_of_here|done..].
      * right. exists m', mv'. split_and!; [by apply list_elem_of_further|done..].
Qed.

Lemma min_loop_noprune_spec moves V Vm V' Vm' :
  min_loop_noprune recp b d moves V Vm = Some (V', Vm') ->
  (forall m v mv, m ∈ moves ->
     recp (<[m := Some X]> b) (d - 1) true = Some (v, mv) ->
     num_leb V' v = true) /\
  ((V' = V /\ Vm' = Vm) \/
   (exists m mv, m ∈ moves /\ Vm' = Some m /\
                 recp (<[m := Some X]> b) (d - 1) true = Some (V', mv))).
Proof.
  revert V Vm. induction moves as [|m moves IH]; intros V Vm Hloop; cbn in Hloop.
  - simplify_eq. split; [|by left]. intros m v mv Hm. by apply elem_of_nil in Hm.
  - destruct (recp _ _ _) as [[v mv]|] eqn:Hv; [|done].
    pose proof (min_loop_noprune_le _ _ _ _ _ _ _ _ Hloop) as Hle.
    destruct (IH _ _ Hloop) as [Hall Hcase]. split.
    + intros m' v' mv' [->|Hm']%elem_of_cons Hv'; [|by eapply Hall].
      simplify_eq. destruct (num_ltb v V) eqn:Hlt; [done|].
      apply num_ltb_false_leb in Hlt. by eapply num_leb_trans.
    + destruct Hcase as [[-> ->]|(m' & mv' & Hm' & -> & Hv')].
      * destruct (num_ltb v V); [|by left].
        right. exists m, mv. split_and!; [apply list_elem_of_here|done..].
      * right. exists m', mv'. split_and!; [by apply list_elem_of_further|done..].
Qed.
End noprune_loop_spec.

Lemma num_max_absorb (a b c : Num) :
  num_leb b c = true -> num_max (num_max a b) c = num_max a c.
Proof.
  destruct (bounded_exists [a; b; c]) as (lo & hi & Hlh & Hb).
  intros H1. num_to_Z lo hi. lia.
Qed.

Lemma num_min_absorb (a b c : Num) :
  num_leb c b = true -> num_min (num_min a b) c = num_min a c.
Proof.
  destruct (bounded_exists [a; b; c]) as (lo & hi & Hlh & Hb).
  intros H1. num_to_Z lo hi. lia.
Qed.

Lemma num_leb_max_r (a b : Num) : num_leb b (num_max a b) = true.
Proof.
  destruct (bounded_exists [a; b]) as (lo & hi & Hlh & Hb).
  num_to_Z lo hi. apply (emb_leb lo hi); [auto using bounded_max..|].
  rewrite (emb_max lo hi) by done. lia.
Qed.

Lemma num_leb_max_l (a b : Num) : num_leb a (num_max a b) = true.
Proof.
  destruct (bounded_exists [a; b]) as (lo & hi & Hlh & Hb).
  num_to_Z lo hi. apply (emb_leb lo hi); [auto using bounded_max..|].
  rewrite (emb_max lo hi) by done. lia.
Qed.

Lemma num_leb_min_r (a b : Num) : num_leb (num_min a b) b = true.
Proof.
  destruct (bounded_exists [a; b]) as (lo & hi & Hlh & Hb).
  num_to_Z lo hi. apply (emb_leb lo hi); [auto using bounded_min..|].
  rewrite (emb_min lo hi) by done. lia.
Qed.

Lemma num_leb_min_l (a b : Num) : num_leb (num_min a b) a = true.
Proof.
  destruct (bounded_exists [a; b]) as (lo & hi & Hlh & Hb).
  num_to_Z lo hi. apply (emb_leb lo hi); [auto using bounded_min..|].
  rewrite (emb_min lo hi) by done. lia.
Qed.

(** ** The children that the loops append *)

Lemma minimax_fuel_tree_root (f : nat) (b : BoardState) (d : Z) (isMax : bool)
    (alpha beta : Num) (r : SearchResult) (t : TreeNode) :
  minimax_fuel f b d isMax alpha beta = Some r -> tree r = Some t ->
  node_board t = b /\ node_score t = score r /\ node_move t = move r.
Proof.
  destruct f as [|f]; [done|]. cbn. intros Hr Ht.
  repeat (case_match; [by simplify_eq|]).
  destruct isMax.
  - destruct (max_loop _ _ _ _ _ _ _ _ _) as [[[bs bm] ch]|]; by simplify_eq/=.
  - destruct (min_loop _ _ _ _ _ _ _ _ _) as [[[bs bm] ch]|]; by simplify_eq/=.
Qed.

Section loop_children.
Context (rec : BoardState -> Z -> bool -> Num -> Num -> option SearchResult).
Context (b : BoardState) (d : Z).
Context (Htree : forall bd dd mm a be r t,
  rec bd dd mm a be = Some r -> tree r = Some t ->
  node_board t = bd /\ node_score t = score r).

Lemma child_node_spec bd dd mm a be r m :
  rec bd dd mm a be = Some r ->
  node_board (default (mkTreeNode bd (score r) (Some m) []) (tree r)) = bd /\
  node_score (default (mkTreeNode bd (score r) (Some m) []) (tree r)) = score r.
Proof.
  intros Hr. destruct (tree r) as [t|] eqn:Ht; [|done]. by eapply Htree.
Qed.

Lemma max_loop_children moves alpha beta bs bm ch bs' bm' ch' :
  max_loop rec b d moves alpha beta bs bm ch = Some (bs', bm', ch') ->
  exists new,
    ch' = ch ++ new /\
    (length new <= length moves)%nat /\
    (moves <> [] -> new <> []) /\
    (forall i c, new !! i = Some c ->
       exists m, moves !! i = Some m /\ node_board c = <[m := Some O]> b) /\
    ((length new < length moves)%nat -> num_leb beta (num_max alpha bs') = true) /\
    num_leb bs bs' = true /\
    (forall i c, new !! i = Some c -> num_leb (node_score c) bs' = true) /\
    ((bs' = bs /\ bm' = bm) \/
     (exists i m c,
        moves !! i = Some m /\ new !! i = Some c /\ bm' = Some m /\
        node_score c = bs' /\ num_ltb bs bs' = true /\
        forall j c', (j < i)%nat -> new !! j = Some c' ->
                     num_ltb (node_score c') bs' = true)).
Proof.
  revert alpha bs bm ch.
  induction moves as [|m moves IH]; intros alpha bs bm ch Hloop; cbn in Hloop.
  - simplify_eq. exists []. rewrite app_nil_r.
    split_and!; [done..|cbn; lia|apply num_leb_refl|done|by left].
  - destruct (rec _ _ _ _ _) as [r|] eqn:Hr; [|done].
    destruct (child_node_spec _ _ _ _ _ r m Hr) as [Hcb Hcs].
    set (c0 := default (mkTreeNode (<[m := Some O]> b) (score r) (Some m) []) (tree r)) in *.
    change (if num_ltb bs (score r) then score r else bs)
      with (num_max bs (score r)) in Hloop.
    set (bs1 := num_max bs (score r)) in *.
    assert (num_leb bs bs1 = true) as Hbs1 by apply num_leb_max_l.
    assert (num_leb (node_score c0) bs1 = true) as Hc0.
    { rewrite Hcs. apply num_leb_max_r. }
    assert ((bs1 = bs /\ (if num_ltb bs (score r) then Some m else bm) = bm) \/
            (bs1 = node_score c0 /\ num_ltb bs bs1 = true /\
             (if num_ltb bs (score r) then Some m else bm) = Some m)) as Hfirst.
    { unfold bs1, num_max. rewrite Hcs.
      destruct (num_ltb bs (score r)) eqn:Hlt; [by right|by left]. }
    destruct (num_leb beta _) eqn:Hcut.
    + simplify_eq. exists [c0]. split_and!; [done|cbn; lia|done| | |done| |].
      * intros [|i] c Hc; simplify_eq/=. by exists m.
      * intros _. exact Hcut.
      * intros [|i] c Hc; simplify_eq/=. done.
      * destruct Hfirst as [[? ?]|(Hs & Hlt & Hm)]; [by left|].
        right. exists 0%nat, m, c0. split_and!; [done..|]. intros j c' Hj. lia.
    + destruct (IH _ _ _ _ Hloop)
        as (new & -> & Hlen & Hne & Hboards & Hstop & Hle & Hall & Hbest).
      exists (c0 :: new). split_and!.
      * by rewrite <- app_assoc.
      * cbn. lia.
      * done.
      * intros [|i] c Hc; simplify_eq/=; [by exists m|]. by apply Hboards.
      * intros Hlt. rewrite <- (num_max_absorb alpha bs1 bs') by done.
        apply Hstop. cbn in Hlt. lia.
      * by eapply num_leb_trans.
      * intros [|i] c Hc; simplify_eq/=; [by eapply num_leb_trans|]. by eapply Hall.
      * destruct Hbest as [[-> ->]|(i & m' & c & Hm' & Hc & -> & Hs & Hlt & Hearlier)].
        -- destruct Hfirst as [[? ?]|(Hs & Hlt & Hm)]; [by left|].
           right. exists 0%nat, m, c0. split_and!; [done..|]. intros j c' Hj. lia.
        -- right. exists (S i), m', c. split_and!; [done..|by eapply num_leb_ltb_trans|].
           intros [|j] c' Hj Hc'; simplify_eq/=.
           ++ by eapply num_leb_ltb_trans.
           ++ eapply Hearlier; [|done]. lia.
Qed.

Lemma min_loop_children moves alpha beta bs bm ch bs' bm' ch' :
  min_loop rec b d moves alpha beta bs bm ch = Some (bs', bm', ch') ->
  exists new,
    ch' = ch ++ new /\
    (length new <= length moves)%nat /\
    (moves <> [] -> new <> []) /\
    (forall i c, new !! i = Some c ->
       exists m, moves !! i = Some m /\ node_board c = <[m := Some X]> b) /\
    ((length new < length moves)%nat -> num_leb (num_min beta bs') alpha = true) /\
    num_leb bs' bs = true /\
    (forall i c, new !! i = Some c -> num_leb bs' (node_score c) = true) /\
    ((bs' = bs /\ bm' = bm) \/
     (exists i m c,
        moves !! i = Some m /\ new !! i = Some c /\ bm' = Some m /\
        node_score c = bs' /\ num_ltb bs' bs = true /\
        forall j c', (j < i)%nat -> new !! j = Some c' ->
                     num_ltb bs' (node_score c') = true)).
Proof.
  revert beta bs bm ch.
  induction moves as [|m moves IH]; intros beta bs bm ch Hloop; cbn in Hloop.
  - simplify_eq. exists []. rewrite app_nil_r.
    split_and!; [done..|cbn; lia|apply num_leb_refl|done|by left].
  - destruct (rec _ _ _ _ _) as [r|] eqn:Hr; [|done].
    destruct (child_node_spec _ _ _ _ _ r m Hr) as [Hcb Hcs].
    set (c0 := default (mkTreeNode (<[m := Some X]> b) (score r) (Some m) []) (tree r)) in *.
    change (if num_ltb (score r) bs then score r else bs)
      with (num_min bs (score r)) in Hloop.
    set (bs1 := num_min bs (score r)) in *.
    assert (num_leb bs1 bs = true) as Hbs1 by apply num_leb_min_l.
    assert (num_leb bs1 (node_score c0) = true) as Hc0.
    { rewrite Hcs. apply num_leb_min_r. }
    assert ((bs1 = bs /\ (if num_ltb (score r) bs then Some m else bm) = bm) \/
            (bs1 = node_score c0 /\ num_ltb bs1 bs = true /\
             (if num_ltb (score r) bs then Some m else bm) = Some m)) as Hfirst.
    { unfold bs1, num_min. rewrite Hcs.
      destruct (num_ltb (score r) bs) eqn:Hlt; [by right|by left]. }
    destruct (num_leb _ alpha) eqn:Hcut.
    + simplify_eq. exists [c0]. split_and!; [done|cbn; lia|done| | |done| |].
      * intros [|i] c Hc; simplify_eq/=. by exists m.
      * intros _. exact Hcut.
      * intros [|i] c Hc; simplify_eq/=. done.
      * destruct Hfirst as [[? ?]|(Hs & Hlt & Hm)]; [by left|].
        right. exists 0%nat, m, c0. split_and!; [done..|]. intros j c' Hj. lia.
    + destruct (IH _ _ _ _ Hloop)
        as (new & -> & Hlen & Hne & Hboards & Hstop & Hle & Hall & Hbest).
      exists (c0 :: new). split_and!.
      * by rewrite <- app_assoc.
      * cbn. lia.
      * done.
      * intros [|i] c Hc; simplify_eq/=; [by exists m|]. by apply Hboards.
      * intros Hlt. rewrite <- (num_min_absorb beta bs1 bs') by done.
        apply Hstop. cbn in Hlt. lia.
      * by eapply num_leb_trans.
      * intros [|i] c Hc; simplify_eq/=; [by eapply num_leb_trans|]. by eapply Hall.
      * destruct Hbest as [[-> ->]|(i & m' & c & Hm' & Hc & -> & Hs & Hlt & Hearlier)].
        -- destruct Hfirst as [[? ?]|(Hs & Hlt & Hm)]; [by left|].
           right. exists 0%nat, m, c0. split_and!; [done..|]. intros j c' Hj. lia.
        -- right. exists (S i), m', c. split_and!; [done..|by eapply num_ltb_leb_trans|].
           intros [|j] c' Hj Hc'; simplify_eq/=.
           ++ by eapply num_ltb_leb_trans.
           ++ eapply Hearlier; [|done]. lia.
Qed.
End loop_children.

(** ** The bot's turn *)

Lemma minimax_move_available (b : BoardState) (d : Z) (isMax : bool)
    (alpha beta : Num) (r : SearchResult) (m : nat) :
  minimax b d isMax alpha beta = Some r -> move r = Some m ->
  b !! m = Some None.
Proof.
  intros Hr Hm. apply minimax_fuel_result in Hr as [_ Hres].
  destruct (terminal b || bool_decide (d = 0)).
  - destruct Hres as [Hnone _]. congruence.
  - destruct Hres as (_ & m' & Hm' & Hin). simplify_eq.
    by apply elem_of_getAvailableMoves.
Qed.

Lemma game_inv_playing_terminal (g : Game) :
  game_inv g -> gameStatus g = playing -> terminal (board g) = false.
Proof.
  intros [_ Hst] Hp. rewrite Hp in Hst. destruct Hst as (Hno & Hfull & _).
  apply checkWinner_None in Hno. unfold terminal. rewrite Hno, Hfull.
  by rewrite !bool_decide_false.
Qed.

Lemma makeMove_board (m : nat) (g : Game) :
  board g !! m = Some None -> gameStatus g = playing ->
  board (makeMove m g) = <[m := Some (if isXNext g then X else O)]> (board g).
Proof.
  intros Hm Hp. unfold makeMove. rewrite Hm, Hp. cbn.
  rewrite bool_decide_true by done. cbn.
  destruct (winner (checkWinner _)); [done|]. by destruct (every_not_null _).
Qed.

Lemma botDepth_pos (d : Difficulty) : 2 <= botDepth d <= 4.
Proof. destruct d; cbn; lia. Qed.

(** What the bot's search returns in a game that goes on. *)
Lemma bot_search (g : Game) (d : Difficulty) :
  game_inv g -> gameStatus g = playing ->
  exists r m,
    minimax (board g) (botDepth d) true NegInf PosInf = Some r /\
    move r = Some m /\ board g !! m = Some None /\ is_Some (tree r).
Proof.
  intros Hinv Hp. pose proof (game_inv_playing_terminal g Hinv Hp) as Hterm.
  destruct (minimax_total (board g) (botDepth d) true NegInf PosInf) as [r Hr].
  pose proof (minimax_fuel_result _ _ _ _ _ _ _ Hr) as [_ Hres].
  rewrite Hterm in Hres. pose proof (botDepth_pos d).
  rewrite bool_decide_false in Hres by lia. cbn in Hres.
  destruct Hres as (_ & m & Hm & Hin). exists r, m. split_and!; [done..| |].
  - by apply elem_of_getAvailableMoves.
  - rewrite minimax_unfold in Hr. cbn zeta in Hr. unfold terminal in Hterm.
    apply orb_false_iff in Hterm as [[H1 H2]%orb_false_iff H3].
    rewrite H1, H2, H3, bool_decide_false in Hr by lia.
    destruct (max_loop _ _ _ _ _ _ _ _ _) as [[[bs bm] ch]|]; simplify_eq/=. by eexists.
Qed.

Lemma makeBotMove_playing (random : nat) (a : App) :
  game_inv (game a) -> gameStatus (game a) = playing ->
  exists r m,
    minimax (board (game a)) (botDepth (difficulty a)) true NegInf PosInf = Some r /\
    move r = Some m /\ board (game a) !! m = Some None /\ is_Some (tree r) /\
    makeBotMove random a = Some (mkApp (makeMove m (game a)) (difficulty a) (tree r)).
Proof.
  intros Hinv Hp.
  destruct (bot_search (game a) (difficulty a) Hinv Hp) as (r & m & Hr & Hm & Hcell & Ht).
  exists r, m. split_and!; [done..|].
  unfold makeBotMove. cbv zeta. rewrite Hr, Hp.
  rewrite bool_decide_true by done. rewrite bool_decide_false.
  - cbn. by rewrite Hm.
  - intros Hlen. apply nil_length_inv in Hlen.
    apply elem_of_getAvailableMoves in Hcell. rewrite Hlen in Hcell.
    by apply elem_of_nil in Hcell.
Qed.

Lemma handlePlayerClick_reachable (index : nat) (g : Game) :
  (index < 9)%nat -> reachable g -> reachable (handlePlayerClick index g).
Proof.
  intros Hi Hg. unfold handlePlayerClick.
  destruct (_ && _); [by apply reachable_move|done].
Qed.

Lemma botTurn_reachable (random : nat) (a a' : App) :
  reachable (game a) -> botTurn random a = Some a' -> reachable (game a').
Proof.
  intros Hg. unfold botTurn.
  destruct (negb (isXNext (game a)) && bool_decide (gameStatus (game a) = playing))
    eqn:Hturn; [|by intros [= <-]].
  apply andb_true_iff in Hturn as [_ Hp%bool_decide_eq_true].
  pose proof (reachable_inv _ Hg) as Hinv.
  destruct (makeBotMove_playing random a Hinv Hp) as (r & m & _ & _ & Hcell & _ & ->).
  intros [= <-]. cbn. apply reachable_move; [done|].
  destruct Hinv as [Hlen _]. rewrite <- Hlen. by eapply lookup_lt_Some.
Qed.

Lemma playable_reachable (a : App) : playable a -> reachable (game a).
Proof.
  induction 1 as [d|a index _ IH Hi|a random a' _ IH Hbot|a _ IH|a d _ IH]; cbn.
  - apply reachable_new.
  - by apply handlePlayerClick_reachable.
  - by eapply botTurn_reachable.
  - apply reachable_new.
  - unfold changeDifficulty. destruct (negb _); cbn; [apply reachable_new|done].
Qed.

(** ** The display of the tree *)

Lemma marks_length (b : BoardState) :
  length (filter (fun cell : Player => cell <> None) b)
  = (count_mark X b + count_mark O b)%nat.
Proof.
  induction b as [|sq b IH]; [done|].
  rewrite filter_cons. destruct sq as [[|]|]; cbn.
  - rewrite decide_True by done. cbn. rewrite IH.
    repeat case_bool_decide; (done || lia).
  - rewrite decide_True by done. cbn. rewrite IH.
    repeat case_bool_decide; (done || lia).
  - rewrite decide_False by (intros H; by apply H). done.
Qed.

Lemma replaces_irrefl node x : replaces node x x = false.
Proof. unfold replaces. destruct (isMaximizingNode node); apply num_ltb_irrefl. Qed.

Lemma num_ltb_trans (a b c : Num) :
  num_ltb a b = true -> num_ltb b c = true -> num_ltb a c = true.
Proof. intros H1 H2. eapply num_ltb_leb_trans; [exact H1|]. by apply num_ltb_leb. Qed.

Lemma replaces_trans node x y z :
  replaces node x y = true -> replaces node y z = true -> replaces node x z = true.
Proof.
  unfold replaces. destruct (isMaximizingNode node); intros H1 H2.
  - by eapply num_ltb_trans.
  - by eapply num_ltb_trans.
Qed.

(** [y] does not replace [x] and [z] does: [z] replaces [y]. *)
Lemma replaces_neg_trans node x y z :
  replaces node x y = false -> replaces node x z = true -> replaces node y z = true.
Proof.
  unfold replaces. destruct (isMaximizingNode node); intros H1 H2.
  - apply num_ltb_false_leb in H1. by eapply num_leb_ltb_trans.
  - apply num_ltb_false_leb in H1. by eapply num_ltb_leb_trans.
Qed.

Lemma bestChildStep_Some node arr bi idx child best :
  arr !! bi = Some best ->
  bestChildStep node arr (Some bi) idx child
  = Some (if replaces node (node_score best) (node_score child) then idx else bi).
Proof.
  intros Hb. unfold bestChildStep, replaces. cbn. rewrite Hb. cbn.
  by destruct (isMaximizingNode node).
Qed.

Lemma reduceFrom_spec (node : TreeNode) (arr pre rest : list TreeNode)
    (bi : nat) (best : TreeNode) :
  arr = pre ++ rest ->
  arr !! bi = Some best ->
  (forall j c, (j < length pre)%nat -> arr !! j = Some c ->
               replaces node (node_score best) (node_score c) = false) ->
  (forall j c, (j < bi)%nat -> arr !! j = Some c ->
               replaces node (node_score c) (node_score best) = true) ->
  exists i c,
    reduceFrom node arr rest (length pre) (Some bi) = Some i /\
    arr !! i = Some c /\
    (forall j c', arr !! j = Some c' ->
                  replaces node (node_score c) (node_score c') = false) /\
    (forall j c', (j < i)%nat -> arr !! j = Some c' ->
                  replaces node (node_score c') (node_score c) = true).
Proof.
  revert pre bi best. induction rest as [|child rest IH];
    intros pre bi best Harr Hbest Hdone Hfirst; cbn [reduceFrom].
  - exists bi, best. split_and!; [done..| |done].
    intros j c' Hj. eapply Hdone; [|done].
    apply lookup_lt_Some in Hj. rewrite Harr, app_nil_r in Hj. done.
  - rewrite (bestChildStep_Some _ _ _ _ _ best Hbest).
    assert (arr !! length pre = Some child) as Hchild.
    { rewrite Harr. by rewrite list_lookup_middle. }
    assert (arr = (pre ++ [child]) ++ rest) as Harr' by (by rewrite <- app_assoc).
    replace (S (length pre)) with (length (pre ++ [child]))
      by (rewrite length_app; cbn; lia).
    destruct (replaces node (node_score best) (node_score child)) eqn:Hrep.
    + apply (IH (pre ++ [child]) (length pre) child Harr' Hchild).
      * intros j c Hj Hc. rewrite length_app in Hj. cbn in Hj.
        destruct (decide (j = length pre)) as [->|Hne].
        -- simplify_eq. apply replaces_irrefl.
        -- destruct (replaces node (node_score child) (node_score c)) eqn:Hcc; [|done].
           rewrite <- (Hdone j c); [|lia|done].
           symmetry. by eapply replaces_trans.
      * intros j c Hj Hc. eapply replaces_neg_trans; [|exact Hrep].
        by eapply Hdone.
    + apply (IH (pre ++ [child]) bi best Harr' Hbest); [|done].
      intros j c Hj Hc. rewrite length_app in Hj. cbn in Hj.
      destruct (decide (j = length pre)) as [->|Hne]; [by simplify_eq|].
      eapply Hdone; [|done]. lia.
Qed.

Lemma bestChildIndex_spec (node : TreeNode) :
  node_children node <> [] ->
  exists i c,
    bestChildIndex node = Some (Z.of_nat i) /\
    node_children node !! i = Some c /\
    (forall j c', node_children node !! j = Some c' ->
                  replaces node (node_score c) (node_score c') = false) /\
    (forall j c', (j < i)%nat -> node_children node !! j = Some c' ->
                  replaces node (node_score c') (node_score c) = true).
Proof.
  intros Hne. unfold bestChildIndex.
  destruct (node_children node) as [|c0 cs] eqn:Hch; [done|].
  rewrite bool_decide_true by (cbn; lia).
  destruct (reduceFrom_spec node (c0 :: cs) [] (c0 :: cs) 0 c0)
    as (i & c & Hred & Hc & Hall & Hfirst); [done|done|cbn; lia|lia|].
  cbn [length] in Hred. rewrite Hred. exists i, c. done.
Qed.

(** ** A move that completes a line *)

Lemma minimax_noprune_win (b : BoardState) (d : Z) (isMax : bool) (s : Mark) :
  winner (checkWinner b) = Some s ->
  minimax_noprune b d isMax
  = Some (match s with X => SCORES_X | O => SCORES_O end, None).
Proof.
  intros Hw. rewrite minimax_noprune_unfold. cbn zeta. rewrite Hw.
  destruct s; [by rewrite bool_decide_true|].
  by rewrite bool_decide_false, bool_decide_true.
Qed.

Lemma minimax_widest (b : BoardState) (d : Z) (isMax : bool) :
  exists r, minimax b d isMax NegInf PosInf = Some r /\
            minimax_noprune b d isMax = Some (score r, move r).
Proof.
  destruct (minimax_total b d isMax NegInf PosInf) as [r Hr].
  destruct (minimax_noprune_total b d isMax) as [[v mv] Hv].
  exists r. split; [done|].
  destruct (minimax_fuel_widest _ _ _ _ _ _ _ Hr Hv) as [-> ->]. done.
Qed.

Lemma minimax_noprune_loops (b : BoardState) (d : Z) (isMax : bool) :
  terminal b = false -> d <> 0 ->
  minimax_noprune b d isMax =
  if isMax
  then max_loop_noprune minimax_noprune b d (getAvailableMoves b) NegInf None
  else min_loop_noprune minimax_noprune b d (getAvailableMoves b) PosInf None.
Proof.
  intros Hterm Hd. rewrite minimax_noprune_unfold. cbn zeta.
  unfold terminal in Hterm.
  apply orb_false_iff in Hterm as [[-> ->]%orb_false_iff ->].
  by rewrite bool_decide_false.
Qed.

Lemma minimax_loops (b : BoardState) (d : Z) (isMax : bool) (alpha beta : Num) :
  terminal b = false -> d <> 0 ->
  minimax b d isMax alpha beta =
  if isMax then
    '(bestScore, bestMove, children) ←
      max_loop minimax b d (getAvailableMoves b) alpha beta NegInf None [];
    Some (mkSearchResult bestScore bestMove
            (Some (mkTreeNode b bestScore bestMove children)))
  else
    '(bestScore, bestMove, children) ←
      min_loop minimax b d (getAvailableMoves b) alpha beta PosInf None [];
    Some (mkSearchResult bestScore bestMove
            (Some (mkTreeNode b bestScore bestMove children))).
Proof.
  intros Hterm Hd. rewrite minimax_unfold. cbn zeta.
  unfold terminal in Hterm.
  apply orb_false_iff in Hterm as [[-> ->]%orb_false_iff ->].
  by rewrite bool_decide_false.
Qed.

Lemma minimax_tree_root (bd : BoardState) (dd : Z) (mm : bool) (a be : Num)
    (r : SearchResult) (t : TreeNode) :
  minimax bd dd mm a be = Some r -> tree r = Some t ->
  node_board t = bd /\ node_score t = score r.
Proof.
  intros Hr Ht. destruct (minimax_fuel_tree_root _ _ _ _ _ _ _ _ Hr Ht) as (? & ? & _).
  done.
Qed.

Lemma minimax_loop_result (b : BoardState) (d : Z) (isMax : bool) (alpha beta : Num) :
  terminal b = false -> d <> 0 ->
  exists bs bm ch,
    (if isMax
     then max_loop minimax b d (getAvailableMoves b) alpha beta NegInf None []
     else min_loop minimax b d (getAvailableMoves b) alpha beta PosInf None [])
    = Some (bs, bm, ch) /\
    minimax b d isMax alpha beta
    = Some (mkSearchResult bs bm (Some (mkTreeNode b bs bm ch))).
Proof.
  intros Hterm Hd.
  destruct (minimax_total b d isMax alpha beta) as [r Hr].
  rewrite (minimax_loops b d isMax alpha beta Hterm Hd) in Hr |- *.
  destruct isMax.
  - destruct (max_loop _ _ _ _ _ _ _ _ _) as [[[bs bm] ch]|]; [|done].
    by exists bs, bm, ch.
  - destruct (min_loop _ _ _ _ _ _ _ _ _) as [[[bs bm] ch]|]; [|done].
    by exists bs, bm, ch.
Qed.

Lemma terminal_moves (b : BoardState) :
  terminal b = false -> getAvailableMoves b <> [].
Proof.
  intros Hterm. apply every_not_null_moves. unfold terminal in Hterm.
  by apply orb_false_iff in Hterm as [_ ?].
Qed.

(** ** The boards of the tree on the store *)

Lemma new_addrs_nil (st st' : Store) : new_addrs st st' [].
Proof. split; constructor. Qed.

Lemma new_addrs_weaken (st0 st st' st1 : Store) (ls : list nat) :
  arrays st0 ⊆ arrays st -> arrays st' ⊆ arrays st1 ->
  new_addrs st st' ls -> new_addrs st0 st1 ls.
Proof.
  intros H0 H1 [Hnd Hall]. split; [done|].
  eapply Forall_impl; [exact Hall|]. intros l' [Hn Hs]. split.
  - exact (lookup_weaken_None _ _ _ Hn H0).
  - exact (lookup_weaken_is_Some _ _ _ Hs H1).
Qed.

(** Addresses made up to [st1] followed by addresses made after it. *)
Lemma new_addrs_app (st st1 st' : Store) (ls1 ls2 : list nat) :
  arrays st ⊆ arrays st1 -> arrays st1 ⊆ arrays st' ->
  new_addrs st st1 ls1 -> new_addrs st1 st' ls2 ->
  new_addrs st st' (ls1 ++ ls2).
Proof.
  intros H0 H1 [Hnd1 Hall1] [Hnd2 Hall2]. split.
  - apply NoDup_app. split_and!; [done| |done].
    intros l' Hl1 Hl2. rewrite Forall_forall in Hall1, Hall2.
    destruct (Hall1 l' Hl1) as [_ [x Hx]]. destruct (Hall2 l' Hl2) as [Hn _]. congruence.
  - apply Forall_app. split.
    + eapply Forall_impl; [exact Hall1|]. intros l' [Hn Hs]. split; [done|].
      exact (lookup_weaken_is_Some _ _ _ Hs H1).
    + eapply Forall_impl; [exact Hall2|]. intros l' [Hn Hs]. split; [|done].
      exact (lookup_weaken_None _ _ _ Hn H0).
Qed.

Lemma loop_frame_sub (st st' : Store) : loop_frame st st' -> arrays st ⊆ arrays st'.
Proof. by intros [? _]. Qed.

Section loop_st_addrs.
Context (rec_st :
  nat -> Z -> bool -> Num -> Num -> Store -> option (SearchResultRef * Store)).
Context (l : nat) (d : Z).
Context (Hframe : forall l' d' m a be st1 r st2,
  rec_st l' d' m a be st1 = Some (r, st2) -> call_frame l' st1 st2).
Context (Haddrs : forall l' d' m a be st1 r st2 t,
  rec_st l' d' m a be st1 = Some (r, st2) -> rtree r = Some t ->
  new_addrs st1 st2 (tree_addrs t)).

(** The child that one iteration appends. *)
Lemma body_addrs (nb : nat) (st st1 st2 st3 : Store) (m : nat) (v : Player)
    (mm : bool) (a be : Num) (r : SearchResultRef) :
  copyArray l st = Some (nb, st1) ->
  setCell nb m v st1 = Some st2 ->
  rec_st nb (d - 1) mm a be st2 = Some (r, st3) ->
  new_addrs st st3
    (tree_addrs (default (mkTreeNodeRef nb (rscore r) (Some m) []) (rtree r))).
Proof.
  intros Hc Hs Hr.
  pose proof (Hframe _ _ _ _ _ _ _ _ Hr) as [Hsub3 _].
  apply copyArray_spec in Hc as (cells & _ & Hnb & Ha1 & _).
  apply setCell_spec in Hs as (cells1 & _ & Ha2 & _).
  assert (arrays st ⊆ arrays st2) as Hsub2.
  { rewrite Ha2, Ha1, insert_insert_eq. by apply insert_subseteq. }
  destruct (rtree r) as [t|] eqn:Ht; cbn [default].
  - eapply new_addrs_weaken; [exact Hsub2|reflexivity|]. by eapply Haddrs.
  - cbn. split; [apply NoDup_singleton|]. constructor; [|constructor].
    split; [done|]. eapply lookup_weaken_is_Some; [|exact Hsub3].
    rewrite Ha2, lookup_insert_eq. by eexists.
Qed.

Lemma max_loop_st_addrs moves alpha beta bs bm chR st bs' bm' chR' st' :
  max_loop_st rec_st l d moves alpha beta bs bm chR st = Some (bs', bm', chR', st') ->
  exists new, chR' = chR ++ new /\ new_addrs st st' (flat_map tree_addrs new).
Proof.
  revert alpha bs bm chR st.
  induction moves as [|m moves IH]; intros alpha bs bm chR st Hloop; cbn in Hloop.
  - simplify_eq. exists []. rewrite app_nil_r. split; [done|]. apply new_addrs_nil.
  - destruct (copyArray l st) as [[nb st1]|] eqn:Hc; [|done]. cbn in Hloop.
    destruct (setCell nb m (Some O) st1) as [st2|] eqn:Hs; [|done]. cbn in Hloop.
    destruct (rec_st _ _ _ _ _ _) as [[r st3]|] eqn:Hr; [|done]. cbn in Hloop.
    pose proof (body_addrs _ _ _ _ _ _ _ _ _ _ _ Hc Hs Hr) as Hchild.
    pose proof (loop_frame_sub _ _
      (body_frame _ _ _ _ _ _ _ _ Hc Hs (Hframe _ _ _ _ _ _ _ _ Hr))) as Hsub.
    destruct (num_leb _ _).
    + simplify_eq. eexists [_]. split; [done|]. cbn. by rewrite app_nil_r.
    + pose proof (loop_frame_sub _ _ (max_loop_st_frame _ _ _ Hframe _ _ _ _ _ _ _ _ _ Hloop))
        as Hsub'.
      destruct (IH _ _ _ _ _ Hloop) as (new & -> & Hnew).
      eexists (_ :: new). split; [by rewrite <- app_assoc|]. cbn.
      by eapply new_addrs_app.
Qed.

Lemma min_loop_st_addrs moves alpha beta bs bm chR st bs' bm' chR' st' :
  min_loop_st rec_st l d moves alpha beta bs bm chR st = Some (bs', bm', chR', st') ->
  exists new, chR' = chR ++ new /\ new_addrs st st' (flat_map tree_addrs new).
Proof.
  revert beta bs bm chR st.
  induction moves as [|m moves IH]; intros beta bs bm chR st Hloop; cbn in Hloop.
  - simplify_eq. exists []. rewrite app_nil_r. split; [done|]. apply new_addrs_nil.
  - destruct (copyArray l st) as [[nb st1]|] eqn:Hc; [|done]. cbn in Hloop.
    destruct (setCell nb m (Some X) st1) as [st2|] eqn:Hs; [|done]. cbn in Hloop.
    destruct (rec_st _ _ _ _ _ _) as [[r st3]|] eqn:Hr; [|done]. cbn in Hloop.
    pose proof (body_addrs _ _ _ _ _ _ _ _ _ _ _ Hc Hs Hr) as Hchild.
    pose proof (loop_frame_sub _ _
      (body_frame _ _ _ _ _ _ _ _ Hc Hs (Hframe _ _ _ _ _ _ _ _ Hr))) as Hsub.
    destruct (num_leb _ _).
    + simplify_eq. eexists [_]. split; [done|]. cbn. by rewrite app_nil_r.
    + pose proof (loop_frame_sub _ _ (min_loop_st_frame _ _ _ Hframe _ _ _ _ _ _ _ _ _ Hloop))
        as Hsub'.
      destruct (IH _ _ _ _ _ Hloop) as (new & -> & Hnew).
      eexists (_ :: new). split; [by rewrite <- app_assoc|]. cbn.
      by eapply new_addrs_app.
Qed.
End loop_st_addrs.

Lemma minimax_st_fuel_addrs (f : nat) (l : nat) (d : Z) (isMax : bool)
    (alpha beta : Num) (st : Store) (r : SearchResultRef) (st' : Store)
    (t : TreeNodeRef) :
  minimax_st_fuel f l d isMax alpha beta st = Some (r, st') ->
  rtree r = Some t ->
  new_addrs st st' (tree_addrs t).
Proof.
  revert l d isMax alpha beta st r st' t.
  induction f as [|f IH]; intros l d isMax alpha beta st r st' t Hr Ht; [done|].
  cbn in Hr.
  destruct (arrays st !! l) as [cells|] eqn:Hl; [|done]. cbn in Hr.
  repeat (case_match; [by simplify_eq|]).
  destruct (copyArray l (logCall l st)) as [[nodeBoard stA]|] eqn:Hc; [|done].
  cbn in Hr.
  apply copyArray_spec in Hc as (cells' & _ & Hnb & HaA & _). cbn in Hnb, HaA.
  assert (new_addrs st stA [nodeBoard]) as Hnode.
  { split; [apply NoDup_singleton|]. constructor; [|constructor].
    split; [done|]. rewrite HaA, lookup_insert_eq. by eexists. }
  assert (arrays st ⊆ arrays stA) as HsubA.
  { rewrite HaA. by apply insert_subseteq. }
  destruct isMax.
  - destruct (max_loop_st _ _ _ _ _ _ _ _ _ _) as [[[[bs bm] ch] st1]|] eqn:Hloop;
      [|done].
    cbn in Hr. simplify_eq. cbn in Ht. simplify_eq. cbn.
    pose proof (loop_frame_sub _ _
      (max_loop_st_frame _ _ _ (minimax_st_fuel_frame f) _ _ _ _ _ _ _ _ _ Hloop)) as Hsub.
    apply (max_loop_st_addrs _ _ _ (minimax_st_fuel_frame f) (IH)) in Hloop
      as (new & -> & Hnew).
    by apply (new_addrs_app st stA _ [nodeBoard]).
  - destruct (min_loop_st _ _ _ _ _ _ _ _ _ _) as [[[[bs bm] ch] st1]|] eqn:Hloop;
      [|done].
    cbn in Hr. simplify_eq. cbn in Ht. simplify_eq. cbn.
    pose proof (loop_frame_sub _ _
      (min_loop_st_frame _ _ _ (minimax_st_fuel_frame f) _ _ _ _ _ _ _ _ _ Hloop)) as Hsub.
    apply (min_loop_st_addrs _ _ _ (minimax_st_fuel_frame f) (IH)) in Hloop
      as (new & -> & Hnew).
    by apply (new_addrs_app st stA _ [nodeBoard]).
Qed.

Lemma minimax_st_total (st : Store) (l : nat) (cells : BoardState)
    (d : Z) (isMax : bool) (alpha beta : Num) :
  arrays st !! l = Some cells ->
  exists r st',
    minimax_st_fuel (S (length (getAvailableMoves cells))) l d isMax alpha beta st
    = Some (r, st') /\
    minimax_st l d isMax alpha beta st = Some (r, st').
Proof.
  intros Hl.
  assert (minimax_st l d isMax alpha beta st
          = minimax_st_fuel (S (length (getAvailableMoves cells))) l d
              isMax alpha beta st) as ->.
  { unfold minimax_st. by rewrite Hl. }
  pose proof (minimax_st_fuel_sim (S (length (getAvailableMoves cells))) l cells
                d isMax alpha beta st Hl) as Hsim.
  destruct (minimax_st_fuel _ _ _ _ _ _ _) as [[r st']|]; [by eexists _, _|].
  destruct (minimax_total cells d isMax alpha beta) as [r' Hr'].
  unfold minimax in Hr'. congruence.
Qed.

(** ** The bot on Easy *)

(** A line of O on a board where X has just been placed was a line of O
    before. *)
Lemma three_in_row_other (b : BoardState) (i : nat) (l : nat * nat * nat) :
  three_in_row (<[i := Some X]> b) l O -> three_in_row b l O.
Proof.
  assert (forall j, <[i := Some X]> b !! j = Some (Some O) -> b !! j = Some (Some O))
    as Hcell.
  { intros j Hj. destruct (decide (i = j)) as [->|Hne].
    - destruct (decide (j < length b)%nat) as [Hlt|Hge].
      + rewrite list_lookup_insert_eq in Hj by done. congruence.
      + by rewrite list_insert_ge in Hj by lia.
    - by rewrite list_lookup_insert_ne in Hj. }
  intros (Ha & Hb & Hc). split_and!; by apply Hcell.
Qed.

Lemma minimax_noprune_depth0 (b : BoardState) (isMax : bool) (mv : option nat) :
  minimax_noprune b 0 isMax = Some (Fin 10, mv) ->
  winner (checkWinner b) = Some O.
Proof.
  rewrite minimax_noprune_unfold. cbn zeta.
  destruct (winner (checkWinner b)) as [[|]|]; [|done|].
  - rewrite bool_decide_true by done. done.
  - rewrite !bool_decide_false by done. destruct (every_not_null b); [done|].
    rewrite bool_decide_true by done. done.
Qed.

(** With one ply left and X to move, a board is worth 10 only when O
    has won on it. *)
Lemma minimax_noprune_depth1_win (c : BoardState) (mv : option nat) :
  minimax_noprune c 1 false = Some (Fin 10, mv) ->
  winner (checkWinner c) = Some O.
Proof.
  rewrite minimax_noprune_unfold. cbn zeta.
  destruct (winner (checkWinner c)) as [[|]|] eqn:Hw; [|done|].
  - rewrite bool_decide_true by done. done.
  - rewrite !bool_decide_false by done. destruct (every_not_null c); [done|].
    intros Hloop.
    apply min_loop_noprune_spec in Hloop as [_ [[? _]|(m2 & mv2 & _ & _ & Hv)]]; [done|].
    change (1 - 1) with 0 in Hv. apply minimax_noprune_depth0 in Hv.
    apply checkWinner_Some in Hv as (l & Hl & Hs%three_in_row_other).
    pose proof (proj1 (checkWinner_None c) Hw) as Hno. by destruct (Hno l O Hl).
Qed.

Lemma makeMove_win (m : nat) (g : Game) (s : Mark) :
  board g !! m = Some None -> gameStatus g = playing ->
  winner (checkWinner (<[m := Some (if isXNext g then X else O)]> (board g))) = Some s ->
  gameStatus (makeMove m g) = won /\ gameWinner (makeMove m g) = Some s.
Proof.
  intros Hm Hp Hw. unfold makeMove. rewrite Hm, Hp. cbn.
  rewrite bool_decide_true by done. cbn. by rewrite Hw.
Qed.

Lemma minimax_noprune_depth0_X (b : BoardState) (isMax : bool) (v : Num)
    (mv : option nat) :
  minimax_noprune b 0 isMax = Some (v, mv) ->
  (winner (checkWinner b) = Some X -> v = Fin (-10)) /\
  (winner (checkWinner b) <> Some X -> num_leb (Fin 0) v = true).
Proof.
  rewrite minimax_noprune_unfold. cbn zeta.
  destruct (winner (checkWinner b)) as [[|]|].
  - rewrite bool_decide_true by done. intros [= <- <-]. done.
  - rewrite bool_decide_false, bool_decide_true by done. intros [= <- <-]. done.
  - rewrite !bool_decide_false by done. destruct (every_not_null b).
    + intros [= <- <-]. done.
    + rewrite bool_decide_true by done. intros [= <- <-]. done.
Qed.

(** With one ply left and X to move, a board that X has not won is
    worth at least 0 exactly when no reply of X wins. *)
Lemma minimax_noprune_depth1_nonneg (c : BoardState) (v : Num) (mv : option nat) :
  winner (checkWinner c) <> Some X ->
  (terminal c = false ->
   forall m2, c !! m2 = Some None ->
              winner (checkWinner (<[m2 := Some X]> c)) <> Some X) ->
  minimax_noprune c 1 false = Some (v, mv) ->
  num_leb (Fin 0) v = true.
Proof.
  intros HnX Hsafe. destruct (terminal c) eqn:Hterm.
  - rewrite minimax_noprune_unfold. cbn zeta. unfold terminal in Hterm.
    destruct (winner (checkWinner c)) as [[|]|]; [done| |].
    + rewrite bool_decide_false, bool_decide_true by done. intros [= <- <-]. done.
    + rewrite !bool_decide_false in * by done. cbn in Hterm. rewrite Hterm.
      intros [= <- <-]. done.
  - rewrite (minimax_noprune_loops c 1 false Hterm) by done. intros Hloop.
    apply min_loop_noprune_spec in Hloop as [_ [[-> _]|(m2 & mv2 & Hm2 & _ & Hv)]]; [done|].
    change (1 - 1) with 0 in Hv. apply minimax_noprune_depth0_X in Hv as [_ Hv].
    apply Hv. apply Hsafe; [done|]. by apply elem_of_getAvailableMoves.
Qed.

Lemma minimax_noprune_depth1_safe (c : BoardState) (v : Num) (mv : option nat)
    (m2 : nat) :
  terminal c = false ->
  minimax_noprune c 1 false = Some (v, mv) ->
  num_leb (Fin 0) v = true ->
  c !! m2 = Some None ->
  winner (checkWinner (<[m2 := Some X]> c)) <> Some X.
Proof.
  intros Hterm Hv Hge Hm2 Hw.
  rewrite (minimax_noprune_loops c 1 false Hterm) in Hv by done.
  apply min_loop_noprune_spec in Hv as [Hall _].
  destruct (minimax_noprune_total (<[m2 := Some X]> c) 0 true) as [[v2 mv2] Hv2].
  pose proof (Hall m2 v2 mv2 (proj2 (elem_of_getAvailableMoves c m2) Hm2) Hv2) as Hle.
  apply minimax_noprune_depth0_X in Hv2 as [Hv2 _]. rewrite (Hv2 Hw) in Hle.
  pose proof (num_leb_trans _ _ _ Hge Hle). done.
Qed.

Lemma makeMove_step (index : nat) (g : Game) :
  truthy (board g !! index) = false -> gameStatus g = playing ->
  makeMove index g =
  let newBoard := <[index := Some (if isXNext g then X else O)]> (board g) in
  let r := checkWinner newBoard in
  match winner r with
  | Some _ =>
    {| board := newBoard; isXNext := isXNext g; gameStatus := won;
       gameWinner := winner r; winningLine := line r |}
  | None =>
    if every_not_null newBoard
    then {| board := newBoard; isXNext := isXNext g; gameStatus := tie;
            gameWinner := gameWinner g; winningLine := winningLine g |}
    else {| board := newBoard; isXNext := negb (isXNext g);
            gameStatus := gameStatus g;
            gameWinner := gameWinner g; winningLine := winningLine g |}
  end.
Proof.
  intros Ht Hp. unfold makeMove. rewrite Ht, Hp.
  by rewrite bool_decide_true by done.
Qed.

Section bot_move.
Context (g : Game) (m : nat).
Context (Hinv : game_inv g) (Hp : gameStatus g = playing) (Hx : isXNext g = false).
Context (Hm : board g !! m = Some None).

Lemma bot_move_no_X_line :
  winner (checkWinner (<[m := Some O]> (board g))) <> Some X.
Proof.
  intros (l & Hl & Hs)%checkWinner_Some.
  destruct Hinv as [_ Hst]. rewrite Hp in Hst. destruct Hst as (Hno & _).
  assert (X = O); [|done].
  eapply three_in_row_insert; [exact Hm| |exact Hs]. intros s0. by apply Hno.
Qed.

(** What a click can make of the winner after the bot has placed an O
    at [m]. *)
Lemma click_after_bot (index : nat) :
  gameWinner (handlePlayerClick index (makeMove m g)) = Some X ->
  terminal (<[m := Some O]> (board g)) = false /\
  <[m := Some O]> (board g) !! index = Some None /\
  winner (checkWinner (<[index := Some X]> (<[m := Some O]> (board g)))) = Some X.
Proof.
  pose proof bot_move_no_X_line as HnX.
  destruct Hinv as [_ Hst]. rewrite Hp in Hst. destruct Hst as (_ & _ & _ & Hgw).
  rewrite makeMove_step by (by rewrite ?Hm). cbn zeta. rewrite Hx.
  set (c := <[m := Some O]> (board g)) in *.
  destruct (winner (checkWinner c)) as [w|] eqn:Hw.
  { unfold handlePlayerClick. cbn. intros [= ->]. done. }
  destruct (every_not_null c) eqn:Hfull.
  { unfold handlePlayerClick. cbn. congruence. }
  assert (terminal c = false) as Hterm.
  { unfold terminal. rewrite Hw, Hfull. by rewrite !bool_decide_false. }
  unfold handlePlayerClick. cbn [isXNext gameStatus board negb andb]. rewrite Hp.
  rewrite bool_decide_true by done. cbn [andb].
  destruct (truthy (c !! index)) eqn:Ht; cbn [negb].
  { cbn. congruence. }
  rewrite makeMove_step by done. cbn.
  destruct (c !! index) as [[mk|]|] eqn:Hc; [done| |].
  - destruct (winner (checkWinner (<[index := Some X]> c))) as [w'|] eqn:Hw'.
    + cbn. intros [= ->]. done.
    + destruct (every_not_null (<[index := Some X]> c)); cbn; congruence.
  - apply lookup_ge_None in Hc. rewrite list_insert_ge by done. rewrite Hw.
    destruct (every_not_null c); cbn; congruence.
Qed.

Lemma click_after_bot_wins (index : nat) :
  terminal (<[m := Some O]> (board g)) = false ->
  <[m := Some O]> (board g) !! index = Some None ->
  winner (checkWinner (<[index := Some X]> (<[m := Some O]> (board g)))) = Some X ->
  gameWinner (handlePlayerClick index (makeMove m g)) = Some X.
Proof.
  intros Hterm Hc Hw'.
  rewrite makeMove_step by (by rewrite ?Hm). cbn zeta. rewrite Hx.
  set (c := <[m := Some O]> (board g)) in *.
  unfold terminal in Hterm.
  apply orb_false_iff in Hterm as [[H1 H2]%orb_false_iff Hfull].
  destruct (winner (checkWinner c)) as [[|]|] eqn:Hw;
    [by rewrite bool_decide_true in H1|by rewrite bool_decide_true in H2|].
  rewrite Hfull.
  unfold handlePlayerClick. cbn [isXNext gameStatus board negb andb]. rewrite Hp.
  rewrite bool_decide_true by done. rewrite Hc. cbn [andb truthy negb].
  rewrite makeMove_step by (cbn [board gameStatus]; by rewrite ?Hc). cbn. rewrite Hw'. done.
Qed.
End bot_move.

(** ** Further properties of the code *)

(** X1.  [getAvailableMoves] returns exactly the indices of the [null]
    cells, in strictly ascending order. *)
Theorem X1_getAvailableMoves_empty_cells (b : BoardState) :
  (forall m, m ∈ getAvailableMoves b <-> b !! m = Some None) /\
  StronglySorted lt (getAvailableMoves b).
Proof.
  split; [apply elem_of_getAvailableMoves|].
  apply (getAvailableMoves_sorted_gen (fun i => i)). auto.
Qed.

(** X2.  [getAvailableMoves] returns the empty array exactly on the
    boards that [every((square) => square !== null)] accepts: the early
    return of [makeBotMove] and the tie test of [minimax] agree. *)
Theorem X2_getAvailableMoves_nil_iff_full (b : BoardState) :
  getAvailableMoves b = [] <-> every_not_null b = true.
Proof. apply getAvailableMoves_nil. Qed.

(** X3.  What [checkWinner] returns is true of the board: a winner
    comes with one of the eight lines, whose three cells hold the
    winner's mark; no winner comes with no line, and then no line of the
    table holds three equal marks. *)
Theorem X3_checkWinner_sound (b : BoardState) :
  match winner (checkWinner b) with
  | Some s =>
    exists l, l ∈ lines /\ line (checkWinner b) = Some (line_cells l) /\
              three_in_row b l s
  | None =>
    line (checkWinner b) = None /\
    forall l s, l ∈ lines -> ~ three_in_row b l s
  end.
Proof.
  destruct (checkWinner_cases b)
    as [(pre & l & post & s & Hl & Hpre & Hs & ->)|[Hall ->]]; cbn; [|done].
  exists l. split_and!; [|done..].
  rewrite Hl. apply elem_of_app. right. apply list_elem_of_here.
Qed.

(** X4.  In legal play the board always has nine cells, X has as many
    marks as O or one more, and while the game goes on it is X's turn
    exactly when the two have as many. *)
Theorem X4_reachable_board_shape (g : Game) :
  reachable g ->
  length (board g) = 9%nat /\
  (count_mark X (board g) = count_mark O (board g) \/
   count_mark X (board g) = S (count_mark O (board g))) /\
  (gameStatus g = playing ->
   (isXNext g = true <-> count_mark X (board g) = count_mark O (board g))).
Proof.
  intros [Hlen Hst]%reachable_inv. split; [done|].
  destruct (gameStatus g), (isXNext g); destruct_and!; split; try done; lia.
Qed.

Lemma X4_reachable_board_shape_witness :
  reachable (makeMove 4 newGame) /\
  length (board (makeMove 4 newGame)) = 9%nat /\
  (count_mark X (board (makeMove 4 newGame)) = count_mark O (board (makeMove 4 newGame)) \/
   count_mark X (board (makeMove 4 newGame))
   = S (count_mark O (board (makeMove 4 newGame)))) /\
  (gameStatus (makeMove 4 newGame) = playing ->
   (isXNext (makeMove 4 newGame) = true <->
    count_mark X (board (makeMove 4 newGame)) = count_mark O (board (makeMove 4 newGame)))).
Proof.
  assert (reachable (makeMove 4 newGame)) as Hreach.
  { apply reachable_move; [apply reachable_new|lia]. }
  split; [exact Hreach|]. apply (X4_reachable_board_shape (makeMove 4 newGame) Hreach).
Defined.

(** X5.  In legal play the status of the game agrees with the board:
    the game goes on exactly when [checkWinner] gives no winner and a
    cell is empty, it is won exactly when [checkWinner] gives a winner,
    tied exactly when the board is full without winner; and a won game
    records the winner and the line that [checkWinner] gives. *)
Theorem X5_reachable_status (g : Game) :
  reachable g ->
  (gameStatus g = playing <->
   winner (checkWinner (board g)) = None /\ every_not_null (board g) = false) /\
  (gameStatus g = won <-> winner (checkWinner (board g)) <> None) /\
  (gameStatus g = tie <->
   winner (checkWinner (board g)) = None /\ every_not_null (board g) = true) /\
  (gameStatus g = won ->
   gameWinner g = winner (checkWinner (board g)) /\
   winningLine g = line (checkWinner (board g))).
Proof.
  intros [_ Hst]%reachable_inv. destruct (gameStatus g).
  - destruct Hst as (Hno%checkWinner_None & Hfull & _).
    split_and!; try done; split; try done; intros [? ?]; congruence.
  - destruct Hst as (Hw & Hcw & _). rewrite Hcw. cbn. rewrite Hw.
    split_and!; try done; split; try done; intros [? ?]; congruence.
  - destruct Hst as (Hno%checkWinner_None & Hfull & _).
    split_and!; try done; split; try done; intros [? ?]; congruence.
Qed.

Lemma X5_reachable_status_witness :
  (reachable wonGame /\
   gameStatus wonGame = won /\ gameWinner wonGame = Some X /\
   winningLine wonGame = Some [0; 1; 2]%nat /\
   (gameStatus wonGame = playing <->
    winner (checkWinner (board wonGame)) = None /\ every_not_null (board wonGame) = false) /\
   (gameStatus wonGame = won <-> winner (checkWinner (board wonGame)) <> None) /\
   (gameStatus wonGame = tie <->
    winner (checkWinner (board wonGame)) = None /\ every_not_null (board wonGame) = true) /\
   (gameStatus wonGame = won ->
    gameWinner wonGame = winner (checkWinner (board wonGame)) /\
    winningLine wonGame = line (checkWinner (board wonGame)))) /\
  (reachable tiedGame /\
   gameStatus tiedGame = tie /\
   (gameStatus tiedGame = playing <->
    winner (checkWinner (board tiedGame)) = None /\ every_not_null (board tiedGame) = false) /\
   (gameStatus tiedGame = won <-> winner (checkWinner (board tiedGame)) <> None) /\
   (gameStatus tiedGame = tie <->
    winner (checkWinner (board tiedGame)) = None /\ every_not_null (board tiedGame) = true) /\
   (gameStatus tiedGame = won ->
    gameWinner tiedGame = winner (checkWinner (board tiedGame)) /\
    winningLine tiedGame = line (checkWinner (board tiedGame)))).
Proof.
  assert (reachable wonGame) as Hwon.
  { unfold wonGame. repeat (apply reachable_move; [|lia]). apply reachable_new. }
  assert (reachable tiedGame) as Htied.
  { unfold tiedGame. repeat (apply reachable_move; [|lia]). apply reachable_new. }
  split.
  - split; [exact Hwon|]. split; [reflexivity|]. split; [reflexivity|].
    split; [reflexivity|]. apply (X5_reachable_status wonGame Hwon).
  - split; [exact Htied|]. split; [reflexivity|].
    apply (X5_reachable_status tiedGame Htied).
Defined.

(** X6.  In legal play the two sides never both have a complete line,
    and in a won game the winner is the side that moved last, whose are
    all the complete lines. *)
Theorem X6_reachable_one_winner (g : Game) :
  reachable g ->
  (forall lx lo, lx ∈ lines -> lo ∈ lines ->
     ~ (three_in_row (board g) lx X /\ three_in_row (board g) lo O)) /\
  (gameStatus g = won ->
   gameWinner g = Some (if isXNext g then X else O) /\
   forall l s, l ∈ lines -> three_in_row (board g) l s -> gameWinner g = Some s).
Proof.
  intros [_ Hst]%reachable_inv. destruct (gameStatus g).
  - destruct Hst as (Hno & _). split; [|done].
    intros lx lo Hlx _ [Hx _]. by apply (Hno lx X).
  - destruct Hst as (Hw & _ & Hown & _). split.
    + intros lx lo Hlx Hlo [Hx Ho].
      pose proof (Hown lx X Hlx Hx). pose proof (Hown lo O Hlo Ho). congruence.
    + intros _. split; [done|]. intros l s Hl Hs. rewrite Hw. f_equal.
      symmetry. by eapply Hown.
  - destruct Hst as (Hno & _). split; [|done].
    intros lx lo Hlx _ [Hx _]. by apply (Hno lx X).
Qed.

Lemma X6_reachable_one_winner_witness :
  reachable wonGame /\
  gameStatus wonGame = won /\ isXNext wonGame = true /\
  three_in_row (board wonGame) (0, 1, 2)%nat X /\
  (forall lx lo, lx ∈ lines -> lo ∈ lines ->
     ~ (three_in_row (board wonGame) lx X /\ three_in_row (board wonGame) lo O)) /\
  (gameStatus wonGame = won ->
   gameWinner wonGame = Some (if isXNext wonGame then X else O) /\
   forall l s, l ∈ lines -> three_in_row (board wonGame) l s -> gameWinner wonGame = Some s).
Proof.
  assert (reachable wonGame) as Hwon.
  { unfold wonGame. repeat (apply reachable_move; [|lia]). apply reachable_new. }
  split; [exact Hwon|]. split; [reflexivity|]. split; [reflexivity|].
  split; [by vm_compute|].
  apply (X6_reachable_one_winner wonGame Hwon).
Defined.

(** X7.  [makeMove] on a cell of the board keeps the number of cells,
    changes no other cell, and never changes a cell that holds a mark. *)
Theorem X7_makeMove_keeps_marks (index : nat) (g : Game) :
  (index < length (board g))%nat ->
  length (board (makeMove index g)) = length (board g) /\
  (forall j, j <> index -> board (makeMove index g) !! j = board g !! j) /\
  (forall j s, board g !! j = Some (Some s) ->
               board (makeMove index g) !! j = Some (Some s)).
Proof.
  intros Hi. unfold makeMove.
  destruct (truthy (board g !! index)) eqn:Ht; cbn [orb]; [done|].
  destruct (negb _); [done|].
  assert (forall g', board g' = <[index := Some (if isXNext g then X else O)]> (board g) ->
            length (board g') = length (board g) /\
            (forall j, j <> index -> board g' !! j = board g !! j) /\
            (forall j s, board g !! j = Some (Some s) ->
                         board g' !! j = Some (Some s))) as Hgen.
  { intros g' ->. split_and!.
    - by rewrite length_insert.
    - intros j Hj. by rewrite list_lookup_insert_ne.
    - intros j s Hs. destruct (decide (j = index)) as [->|Hj].
      + by rewrite Hs in Ht.
      + by rewrite list_lookup_insert_ne. }
  destruct (winner (checkWinner _)); [by apply Hgen|].
  destruct (every_not_null _); by apply Hgen.
Qed.

Lemma X7_makeMove_keeps_marks_witness :
  (4 < length (board newGame))%nat /\
  length (board (makeMove 4 newGame)) = length (board newGame) /\
  (forall j, j <> 4%nat -> board (makeMove 4 newGame) !! j = board newGame !! j) /\
  (forall j s, board newGame !! j = Some (Some s) ->
               board (makeMove 4 newGame) !! j = Some (Some s)).
Proof.
  assert (4 < length (board newGame))%nat as Hlt by (cbn; lia).
  split; [exact Hlt|]. apply (X7_makeMove_keeps_marks 4 newGame Hlt).
Defined.

(** X8.  For every board, depth budget, side and bounds, [minimax]
    returns, and its score is -10, 0 or 10: never one of the infinities
    that initialise the best score. *)
Theorem X8_minimax_score_range (b : BoardState) (d : Z) (isMax : bool)
    (alpha beta : Num) :
  exists r, minimax b d isMax alpha beta = Some r /\
            (score r = Fin (-10) \/ score r = Fin 0 \/ score r = Fin 10).
Proof.
  destruct (minimax_total b d isMax alpha beta) as [r Hr]. exists r. split; [done|].
  by apply minimax_fuel_result in Hr as [? _].
Qed.

(** X9.  Two depth budgets that never run out on a board (each covers
    the empty cells, or is negative) give the same result: score, move
    and tree. *)
Theorem X9_minimax_depth_never_cut (b : BoardState) (d1 d2 : Z) (isMax : bool)
    (alpha beta : Num) :
  never_cut b d1 -> never_cut b d2 ->
  minimax b d1 isMax alpha beta = minimax b d2 isMax alpha beta.
Proof. apply minimax_fuel_never_cut. Qed.

Lemma X9_minimax_depth_never_cut_witness :
  never_cut fixture 5 /\ never_cut fixture (-1) /\
  minimax fixture 5 false NegInf PosInf = minimax fixture (-1) false NegInf PosInf.
Proof.
  assert (never_cut fixture 5) as H1 by (left; cbn; lia).
  assert (never_cut fixture (-1)) as H2 by (right; lia).
  split; [exact H1|]. split; [exact H2|].
  apply (X9_minimax_depth_never_cut fixture 5 (-1) false NegInf PosInf H1 H2).
Defined.

(** X10.  In a window [alpha < beta] the score of [minimax] bounds the
    score [v] of the search without pruning: it is [v] when it lies
    strictly inside the window, at least [v] when it is at or below
    [alpha], at most [v] when it is at or above [beta]. *)
Theorem X10_minimax_window (b : BoardState) (d : Z) (isMax : bool)
    (alpha beta : Num) :
  num_ltb alpha beta = true ->
  exists r v mv,
    minimax b d isMax alpha beta = Some r /\
    minimax_noprune b d isMax = Some (v, mv) /\
    (num_leb (score r) alpha = true -> num_leb v (score r) = true) /\
    (num_leb beta (score r) = true -> num_leb (score r) v = true) /\
    (num_ltb alpha (score r) = true -> num_ltb (score r) beta = true -> score r = v).
Proof.
  intros Hwin.
  destruct (minimax_total b d isMax alpha beta) as [r Hr].
  destruct (minimax_noprune_total b d isMax) as [[v mv] Hv].
  exists r, v, mv. split; [done|]. split; [done|].
  by apply (minimax_fuel_ab _ _ _ _ _ _ _ _ _ Hwin Hr Hv).
Qed.

Lemma X10_minimax_window_witness :
  num_ltb (Fin (-10)) (Fin 0) = true /\
  exists r v mv,
    minimax fixture 3 false (Fin (-10)) (Fin 0) = Some r /\
    minimax_noprune fixture 3 false = Some (v, mv) /\
    (num_leb (score r) (Fin (-10)) = true -> num_leb v (score r) = true) /\
    (num_leb (Fin 0) (score r) = true -> num_leb (score r) v = true) /\
    (num_ltb (Fin (-10)) (score r) = true -> num_ltb (score r) (Fin 0) = true ->
     score r = v).
Proof.
  split; [reflexivity|].
  apply (X10_minimax_window fixture 3 false (Fin (-10)) (Fin 0)). reflexivity.
Defined.

(** X11.  Called with the bounds at minus and plus infinity, [minimax]
    returns the score and the move of the search without pruning, for
    every board, depth budget and side. *)
Theorem X11_minimax_move_unpruned (b : BoardState) (d : Z) (isMax : bool) :
  exists r, minimax b d isMax NegInf PosInf = Some r /\
            minimax_noprune b d isMax = Some (score r, move r).
Proof. apply minimax_widest. Qed.

(** X12.  On a board that is not terminal, with a depth budget other
    than 0 and the bounds at the infinities, the move that [minimax]
    returns is an empty cell whose board is worth the returned score to
    the search without pruning, and no empty cell is worth more to the
    maximizing side (less to the minimizing side). *)
Theorem X12_minimax_move_optimal (b : BoardState) (d : Z) (isMax : bool) :
  terminal b = false -> d <> 0 ->
  exists r m,
    minimax b d isMax NegInf PosInf = Some r /\
    move r = Some m /\ b !! m = Some None /\
    (exists mv, minimax_noprune (<[m := Some (side_mark isMax)]> b) (d - 1) (negb isMax)
                = Some (score r, mv)) /\
    (forall m', b !! m' = Some None ->
       exists v mv,
         minimax_noprune (<[m' := Some (side_mark isMax)]> b) (d - 1) (negb isMax)
         = Some (v, mv) /\
         (if isMax then num_leb v (score r) else num_leb (score r) v) = true).
Proof.
  intros Hterm Hd. destruct (minimax_widest b d isMax) as (r & Hr & Hv).
  pose proof (minimax_fuel_result _ _ _ _ _ _ _ Hr) as [Hsc Hres].
  rewrite Hterm, bool_decide_false in Hres by done. cbn in Hres.
  destruct Hres as (_ & m & Hm & Hin). exists r, m.
  rewrite (minimax_noprune_loops b d isMax Hterm Hd) in Hv.
  split_and!; [done..|by apply elem_of_getAvailableMoves| |].
  - destruct isMax; cbn.
    + apply max_loop_noprune_spec in Hv as [_ [[Hs _]|(m' & mv & _ & Hm' & Hv')]].
      * rewrite Hs in Hsc. by destruct Hsc as [?|[?|?]].
      * rewrite Hm in Hm'. simplify_eq. eauto.
    + apply min_loop_noprune_spec in Hv as [_ [[Hs _]|(m' & mv & _ & Hm' & Hv')]].
      * rewrite Hs in Hsc. by destruct Hsc as [?|[?|?]].
      * rewrite Hm in Hm'. simplify_eq. eauto.
  - intros m' Hm'%elem_of_getAvailableMoves.
    destruct (minimax_noprune_total (<[m' := Some (side_mark isMax)]> b) (d - 1)
                (negb isMax)) as [[v mv] Hv'].
    exists v, mv. split; [done|]. destruct isMax; cbn in *.
    + apply max_loop_noprune_spec in Hv as [Hall _]. by eapply Hall.
    + apply min_loop_noprune_spec in Hv as [Hall _]. by eapply Hall.
Qed.

Lemma X12_minimax_move_optimal_witness :
  terminal fixture = false /\ 3 <> 0 /\
  exists r m,
    minimax fixture 3 false NegInf PosInf = Some r /\
    move r = Some m /\ fixture !! m = Some None /\
    (exists mv, minimax_noprune (<[m := Some (side_mark false)]> fixture) (3 - 1) (negb false)
                = Some (score r, mv)) /\
    (forall m', fixture !! m' = Some None ->
       exists v mv,
         minimax_noprune (<[m' := Some (side_mark false)]> fixture) (3 - 1) (negb false)
         = Some (v, mv) /\
         (if false then num_leb v (score r) else num_leb (score r) v) = true).
Proof.
  split; [reflexivity|]. split; [lia|].
  apply (X12_minimax_move_optimal fixture 3 false); [reflexivity|lia].
Defined.

(** X13.  On a board that is not terminal, with a depth budget other
    than 0, [minimax] returns a tree node that holds the board, the score
    and the move of the result, and at least one child; the child at
    position [i] holds the board with the [i]-th candidate move made by
    the side to move; and candidates are left without child only after
    the cutoff test [beta <= alpha] has passed with the returned score. *)
Theorem X13_minimax_tree_children (b : BoardState) (d : Z) (isMax : bool)
    (alpha beta : Num) :
  terminal b = false -> d <> 0 ->
  exists r t,
    minimax b d isMax alpha beta = Some r /\ tree r = Some t /\
    node_board t = b /\ node_score t = score r /\ node_move t = move r /\
    node_children t <> [] /\
    (length (node_children t) <= length (getAvailableMoves b))%nat /\
    (forall i c, node_children t !! i = Some c ->
       exists m, getAvailableMoves b !! i = Some m /\
                 node_board c = <[m := Some (side_mark isMax)]> b) /\
    ((length (node_children t) < length (getAvailableMoves b))%nat ->
     (if isMax then num_leb beta (num_max alpha (score r))
      else num_leb (num_min beta (score r)) alpha) = true).
Proof.
  intros Hterm Hd. pose proof (terminal_moves b Hterm) as Hne.
  destruct (minimax_loop_result b d isMax alpha beta Hterm Hd)
    as (bs & bm & ch & Hloop & ->).
  eexists _, _. split; [reflexivity|]. split; [reflexivity|]. cbn.
  destruct isMax.
  - apply (max_loop_children minimax b d minimax_tree_root) in Hloop
      as (new & -> & Hlen & Hnew & Hboards & Hstop & _).
    cbn. split_and!; auto.
  - apply (min_loop_children minimax b d minimax_tree_root) in Hloop
      as (new & -> & Hlen & Hnew & Hboards & Hstop & _).
    cbn. split_and!; auto.
Qed.

Lemma X13_minimax_tree_children_witness :
  terminal lateBoard = false /\ 2 <> 0 /\
  exists r t,
    minimax lateBoard 2 true NegInf PosInf = Some r /\ tree r = Some t /\
    node_board t = lateBoard /\ node_score t = score r /\ node_move t = move r /\
    node_children t <> [] /\
    (length (node_children t) <= length (getAvailableMoves lateBoard))%nat /\
    (forall i c, node_children t !! i = Some c ->
       exists m, getAvailableMoves lateBoard !! i = Some m /\
                 node_board c = <[m := Some (side_mark true)]> lateBoard) /\
    ((length (node_children t) < length (getAvailableMoves lateBoard))%nat ->
     (if true then num_leb PosInf (num_max NegInf (score r))
      else num_leb (num_min PosInf (score r)) NegInf) = true).
Proof.
  split; [reflexivity|]. split; [lia|].
  apply (X13_minimax_tree_children lateBoard 2 true NegInf PosInf); [reflexivity|lia].
Defined.

(** X14.  Called with the bounds at the infinities on a board that is
    not terminal, with a depth budget other than 0, [minimax] leaves no
    candidate out at the root: the children of the returned node are, in
    order, the boards of all the candidate moves. *)
Theorem X14_minimax_root_explores_all (b : BoardState) (d : Z) (isMax : bool) :
  terminal b = false -> d <> 0 ->
  exists r t,
    minimax b d isMax NegInf PosInf = Some r /\ tree r = Some t /\
    node_board <$> node_children t
    = (fun m => <[m := Some (side_mark isMax)]> b) <$> getAvailableMoves b.
Proof.
  intros Hterm Hd.
  destruct (minimax_loop_result b d isMax NegInf PosInf Hterm Hd)
    as (bs & bm & ch & Hloop & Hr).
  pose proof (minimax_fuel_result _ _ _ _ _ _ _ Hr) as [Hsc _]. cbn in Hsc.
  rewrite Hr. eexists _, _. split; [reflexivity|]. split; [reflexivity|]. cbn.
  assert (length ch = length (getAvailableMoves b) /\
          forall i c, ch !! i = Some c ->
            exists m, getAvailableMoves b !! i = Some m /\
                      node_board c = <[m := Some (side_mark isMax)]> b) as [Hlen Hboards].
  { destruct isMax.
    - apply (max_loop_children minimax b d minimax_tree_root) in Hloop
        as (new & -> & Hlen & _ & Hboards & Hstop & _). cbn. split; [|done].
      destruct (decide (length new < length (getAvailableMoves b))%nat) as [Hlt|]; [|lia].
      apply Hstop in Hlt. by destruct Hsc as [->|[->| ->]].
    - apply (min_loop_children minimax b d minimax_tree_root) in Hloop
        as (new & -> & Hlen & _ & Hboards & Hstop & _). cbn. split; [|done].
      destruct (decide (length new < length (getAvailableMoves b))%nat) as [Hlt|]; [|lia].
      apply Hstop in Hlt. by destruct Hsc as [->|[->| ->]]. }
  apply list_eq. intros i. rewrite !list_lookup_fmap.
  destruct (ch !! i) as [c|] eqn:Hc.
  - destruct (Hboards i c Hc) as (m & Hm & Hb). rewrite Hm. cbn. by rewrite Hb.
  - apply lookup_ge_None in Hc. rewrite Hlen in Hc.
    apply lookup_ge_None in Hc. by rewrite Hc.
Qed.

Lemma X14_minimax_root_explores_all_witness :
  terminal fixture = false /\ 3 <> 0 /\
  exists r t,
    minimax fixture 3 false NegInf PosInf = Some r /\ tree r = Some t /\
    node_board <$> node_children t
    = (fun m => <[m := Some (side_mark false)]> fixture) <$> getAvailableMoves fixture.
Proof.
  split; [reflexivity|]. split; [lia|].
  apply (X14_minimax_root_explores_all fixture 3 false); [reflexivity|lia].
Defined.

(** X15.  On a board that is not terminal, with a depth budget other
    than 0, the score that [minimax] returns is the greatest (for the
    maximizing side; the least for the minimizing side) of the scores of
    the children of the returned node, and the returned move is the
    candidate of the first child with that score. *)
Theorem X15_minimax_first_best (b : BoardState) (d : Z) (isMax : bool)
    (alpha beta : Num) :
  terminal b = false -> d <> 0 ->
  exists r t i m c,
    minimax b d isMax alpha beta = Some r /\ tree r = Some t /\
    getAvailableMoves b !! i = Some m /\ node_children t !! i = Some c /\
    move r = Some m /\ node_score c = score r /\
    (forall j c', node_children t !! j = Some c' ->
       (if isMax then num_leb (node_score c') (score r)
        else num_leb (score r) (node_score c')) = true) /\
    (forall j c', (j < i)%nat -> node_children t !! j = Some c' ->
       (if isMax then num_ltb (node_score c') (score r)
        else num_ltb (score r) (node_score c')) = true).
Proof.
  intros Hterm Hd.
  destruct (minimax_loop_result b d isMax alpha beta Hterm Hd)
    as (bs & bm & ch & Hloop & Hr).
  pose proof (minimax_fuel_result _ _ _ _ _ _ _ Hr) as [Hsc _]. cbn in Hsc.
  rewrite Hr. destruct isMax.
  - apply (max_loop_children minimax b d minimax_tree_root) in Hloop
      as (new & -> & _ & _ & _ & _ & _ & Hall & Hbest).
    destruct Hbest as [[-> _]|(i & m & c & Hm & Hc & -> & Hs & _ & Hearlier)].
    { by destruct Hsc as [?|[?|?]]. }
    exists (mkSearchResult bs (Some m) (Some (mkTreeNode b bs (Some m) new))),
      (mkTreeNode b bs (Some m) new), i, m, c. cbn. split_and!; done.
  - apply (min_loop_children minimax b d minimax_tree_root) in Hloop
      as (new & -> & _ & _ & _ & _ & _ & Hall & Hbest).
    destruct Hbest as [[-> _]|(i & m & c & Hm & Hc & -> & Hs & _ & Hearlier)].
    { by destruct Hsc as [?|[?|?]]. }
    exists (mkSearchResult bs (Some m) (Some (mkTreeNode b bs (Some m) new))),
      (mkTreeNode b bs (Some m) new), i, m, c. cbn. split_and!; done.
Qed.

Lemma X15_minimax_first_best_witness :
  terminal fixture = false /\ 3 <> 0 /\
  exists r t i m c,
    minimax fixture 3 false NegInf PosInf = Some r /\ tree r = Some t /\
    getAvailableMoves fixture !! i = Some m /\ node_children t !! i = Some c /\
    move r = Some m /\ node_score c = score r /\
    (forall j c', node_children t !! j = Some c' ->
       (if false then num_leb (node_score c') (score r)
        else num_leb (score r) (node_score c')) = true) /\
    (forall j c', (j < i)%nat -> node_children t !! j = Some c' ->
       (if false then num_ltb (node_score c') (score r)
        else num_ltb (score r) (node_score c')) = true).
Proof.
  split; [reflexivity|]. split; [lia|].
  apply (X15_minimax_first_best fixture 3 false NegInf PosInf); [reflexivity|lia].
Defined.

(** X16.  When the side to move can complete a line with one move, on a
    board that is not terminal and with a depth budget other than 0,
    [minimax] called with the bounds at the infinities returns the score
    of that side's win: 10 for the maximizing side, -10 for the
    minimizing side. *)
Theorem X16_minimax_immediate_win (b : BoardState) (d : Z) (isMax : bool) (m : nat) :
  terminal b = false -> d <> 0 -> b !! m = Some None ->
  winner (checkWinner (<[m := Some (side_mark isMax)]> b)) = Some (side_mark isMax) ->
  exists r, minimax b d isMax NegInf PosInf = Some r /\
            score r = if isMax then Fin 10 else Fin (-10).
Proof.
  intros Hterm Hd Hm%elem_of_getAvailableMoves Hw.
  destruct (minimax_widest b d isMax) as (r & Hr & Hv). exists r. split; [done|].
  pose proof (minimax_fuel_result _ _ _ _ _ _ _ Hr) as [Hsc _].
  rewrite (minimax_noprune_loops b d isMax Hterm Hd) in Hv.
  pose proof (minimax_noprune_win _ (d - 1) (negb isMax) _ Hw) as Hchild.
  destruct isMax; cbn in *.
  - apply max_loop_noprune_spec in Hv as [Hall _].
    pose proof (Hall m _ _ Hm Hchild) as Hle.
    by destruct Hsc as [Hs|[Hs|Hs]]; rewrite Hs in Hle |- *.
  - apply min_loop_noprune_spec in Hv as [Hall _].
    pose proof (Hall m _ _ Hm Hchild) as Hle.
    by destruct Hsc as [Hs|[Hs|Hs]]; rewrite Hs in Hle |- *.
Qed.

Lemma X16_minimax_immediate_win_witness :
  terminal fixture = false /\ 4 <> 0 /\ fixture !! 5%nat = Some None /\
  winner (checkWinner (<[5%nat := Some (side_mark false)]> fixture))
  = Some (side_mark false) /\
  exists r, minimax fixture 4 false NegInf PosInf = Some r /\
            score r = if false then Fin 10 else Fin (-10).
Proof.
  split; [reflexivity|]. split; [lia|]. split; [reflexivity|]. split; [reflexivity|].
  apply (X16_minimax_immediate_win fixture 4 false 5);
    [reflexivity|lia|reflexivity|reflexivity].
Defined.

(** X17.  When it is the bot's turn in a game that goes on, whatever
    the difficulty and whatever [Math.random] would draw, the bot's turn
    plays the move that [minimax] returns: the search always returns a
    move there, the move is an empty cell, it receives an O, and the tree
    of the search is stored.  The random move is never used. *)
Theorem X17_bot_plays_search_move (a : App) (random : nat) :
  playable a -> isXNext (game a) = false -> gameStatus (game a) = playing ->
  exists r m t,
    minimax (board (game a)) (botDepth (difficulty a)) true NegInf PosInf = Some r /\
    move r = Some m /\ tree r = Some t /\
    board (game a) !! m = Some None /\
    botTurn random a = Some (mkApp (makeMove m (game a)) (difficulty a) (Some t)) /\
    board (makeMove m (game a)) = <[m := Some O]> (board (game a)).
Proof.
  intros Ha Hx Hp. pose proof (reachable_inv _ (playable_reachable a Ha)) as Hinv.
  destruct (makeBotMove_playing random a Hinv Hp)
    as (r & m & Hr & Hm & Hcell & [t Ht] & Hbot).
  exists r, m, t. split_and!; [done..| |].
  - unfold botTurn. rewrite Hx, Hp, bool_decide_true by done. cbn [negb andb].
    by rewrite Hbot, Ht.
  - rewrite makeMove_board by done. by rewrite Hx.
Qed.

Lemma X17_bot_plays_search_move_witness :
  playable (mkApp (handlePlayerClick 4 newGame) Hard None) /\
  isXNext (game (mkApp (handlePlayerClick 4 newGame) Hard None)) = false /\
  gameStatus (game (mkApp (handlePlayerClick 4 newGame) Hard None)) = playing /\
  exists r m t,
    minimax (board (game (mkApp (handlePlayerClick 4 newGame) Hard None)))
      (botDepth (difficulty (mkApp (handlePlayerClick 4 newGame) Hard None)))
      true NegInf PosInf = Some r /\
    move r = Some m /\ tree r = Some t /\
    board (game (mkApp (handlePlayerClick 4 newGame) Hard None)) !! m = Some None /\
    botTurn 7 (mkApp (handlePlayerClick 4 newGame) Hard None)
    = Some (mkApp (makeMove m (game (mkApp (handlePlayerClick 4 newGame) Hard None)))
              (difficulty (mkApp (handlePlayerClick 4 newGame) Hard None)) (Some t)) /\
    board (makeMove m (game (mkApp (handlePlayerClick 4 newGame) Hard None)))
    = <[m := Some O]> (board (game (mkApp (handlePlayerClick 4 newGame) Hard None))).
Proof.
  assert (playable (mkApp (handlePlayerClick 4 newGame) Hard None)) as Hplay.
  { apply (playable_click (mkApp newGame Hard None) 4); [apply playable_new|lia]. }
  split; [exact Hplay|]. split; [reflexivity|]. split; [reflexivity|].
  apply (X17_bot_plays_search_move (mkApp (handlePlayerClick 4 newGame) Hard None) 7
           Hplay); reflexivity.
Defined.

(** X18.  Every state that the component reaches through clicks, turns
    of the bot, new games and changes of difficulty holds a game of
    legal play. *)
Theorem X18_playable_is_legal_play (a : App) :
  playable a -> reachable (game a).
Proof. apply playable_reachable. Qed.

Lemma X18_playable_is_legal_play_witness :
  playable (mkApp (handlePlayerClick 4 newGame) Hard None) /\
  reachable (game (mkApp (handlePlayerClick 4 newGame) Hard None)).
Proof.
  assert (playable (mkApp (handlePlayerClick 4 newGame) Hard None)) as Hplay.
  { apply (playable_click (mkApp newGame Hard None) 4); [apply playable_new|lia]. }
  split; [exact Hplay|].
  apply (X18_playable_is_legal_play (mkApp (handlePlayerClick 4 newGame) Hard None) Hplay).
Defined.

(** X19.  [bestChildIndex] is -1 for a node without children.  For a
    node with children it is the index of a child, read without error:
    when the board of the node holds an even number of marks, the first
    child with the greatest score; when it holds an odd number, the
    first child with the least score. *)
Theorem X19_bestChildIndex_first_extreme (node : TreeNode) :
  (node_children node = [] -> bestChildIndex node = Some (-1)) /\
  (node_children node <> [] ->
   exists i c,
     bestChildIndex node = Some (Z.of_nat i) /\
     node_children node !! i = Some c /\
     if isMaximizingNode node
     then (forall j c', node_children node !! j = Some c' ->
             num_leb (node_score c') (node_score c) = true) /\
          (forall j c', (j < i)%nat -> node_children node !! j = Some c' ->
             num_ltb (node_score c') (node_score c) = true)
     else (forall j c', node_children node !! j = Some c' ->
             num_leb (node_score c) (node_score c') = true) /\
          (forall j c', (j < i)%nat -> node_children node !! j = Some c' ->
             num_ltb (node_score c) (node_score c') = true)).
Proof.
  split.
  - intros Hnil. unfold bestChildIndex. rewrite Hnil. done.
  - intros Hne. destruct (bestChildIndex_spec node Hne) as (i & c & Hb & Hc & Hall & Hfirst).
    exists i, c. split; [done|]. split; [done|].
    unfold replaces in Hall, Hfirst. destruct (isMaximizingNode node).
    + split; [|done]. intros j c' Hc'. apply num_ltb_false_leb. by eapply Hall.
    + split; [|done]. intros j c' Hc'. apply num_ltb_false_leb. by eapply Hall.
Qed.

Lemma X19_bestChildIndex_first_extreme_witness :
  exists i c,
    bestChildIndex
      (mkTreeNode emptyBoard (Fin 0) None
         [mkTreeNode emptyBoard (Fin 0) None []; mkTreeNode emptyBoard (Fin 10) None []])
    = Some (Z.of_nat i) /\
    [mkTreeNode emptyBoard (Fin 0) None []; mkTreeNode emptyBoard (Fin 10) None []] !! i
    = Some c /\
    node_score c = Fin 10.
Proof.
  destruct (proj2 (X19_bestChildIndex_first_extreme
              (mkTreeNode emptyBoard (Fin 0) None
                 [mkTreeNode emptyBoard (Fin 0) None [];
                  mkTreeNode emptyBoard (Fin 10) None []])) ltac:(done))
    as (i & c & Hb & Hc & Hrest).
  exists i, c. split; [exact Hb|]. split; [exact Hc|].
  destruct i as [|[|i]]; [| |done].
  - vm_compute in Hb. discriminate Hb.
  - cbn in Hc. by injection Hc as <-.
Defined.

(** X20.  For the tree that the bot's turn stores in legal play, the
    board of the root holds an odd number of marks, so [bestChildIndex]
    takes the minimizing branch at the root: the child it marks is the
    first child with the least score.  The score of the root is the
    greatest score of its children: the first child that has it is the
    board of the move the bot plays, no child has more, and the children
    before it have less.  The marked child is the child of the bot's move
    exactly when all the children have the same score. *)
Theorem X20_bot_tree_marks_least_child (a : App) :
  playable a -> isXNext (game a) = false -> gameStatus (game a) = playing ->
  exists r t i c k m ck,
    minimax (board (game a)) (botDepth (difficulty a)) true NegInf PosInf = Some r /\
    tree r = Some t /\
    (forall random, botTurn random a
                    = Some (mkApp (makeMove m (game a)) (difficulty a) (Some t))) /\
    isMaximizingNode t = false /\
    bestChildIndex t = Some (Z.of_nat i) /\ node_children t !! i = Some c /\
    (forall j c', node_children t !! j = Some c' ->
       num_leb (node_score c) (node_score c') = true) /\
    (forall j c', (j < i)%nat -> node_children t !! j = Some c' ->
       num_ltb (node_score c) (node_score c') = true) /\
    node_score t = score r /\ move r = Some m /\
    getAvailableMoves (board (game a)) !! k = Some m /\
    node_children t !! k = Some ck /\
    node_board ck = <[m := Some O]> (board (game a)) /\
    node_score ck = node_score t /\
    (forall j c', node_children t !! j = Some c' ->
       num_leb (node_score c') (node_score t) = true) /\
    (forall j c', (j < k)%nat -> node_children t !! j = Some c' ->
       num_ltb (node_score c') (node_score t) = true) /\
    (i = k <->
     forall j c', node_children t !! j = Some c' -> node_score c' = node_score t).
Proof.
  intros Ha Hx Hp. pose proof (reachable_inv _ (playable_reachable a Ha)) as Hinv.
  pose proof (game_inv_playing_terminal _ Hinv Hp) as Hterm.
  pose proof (botDepth_pos (difficulty a)) as Hd.
  destruct (minimax_loop_result (board (game a)) (botDepth (difficulty a)) true
              NegInf PosInf Hterm) as (bs & bm & ch & Hloop & Hr); [lia|].
  pose proof (minimax_fuel_result _ _ _ _ _ _ _ Hr) as [Hsc _]. cbn in Hsc.
  apply (max_loop_children minimax _ _ minimax_tree_root) in Hloop
    as (new & -> & _ & Hnew & Hboards & _ & _ & Hall & Hbest).
  destruct Hbest as [[-> _]|(k & m & ck & Hm & Hck & -> & Hs & _ & Hearlier)].
  { by destruct Hsc as [?|[?|?]]. }
  set (t := mkTreeNode (board (game a)) bs (Some m) ([] ++ new)) in *.
  assert (isMaximizingNode t = false) as Hodd.
  { unfold isMaximizingNode, t. cbn [node_board]. rewrite marks_length.
    destruct Hinv as [_ Hst]. rewrite Hp, Hx in Hst. destruct Hst as (_ & _ & -> & _).
    apply bool_decide_false.
    replace (count_mark O (board (game a)) + 1 + count_mark O (board (game a)))%nat
      with (1 + count_mark O (board (game a)) * 2)%nat by lia.
    rewrite Nat.Div0.mod_add. done. }
  assert (node_children t <> []) as Hne.
  { cbn. apply Hnew. by apply terminal_moves. }
  destruct (bestChildIndex_spec t Hne) as (i & c & Hb & Hc & Hleast & Hfirst).
  unfold replaces in Hleast, Hfirst. rewrite Hodd in Hleast, Hfirst.
  assert (forall j c', node_children t !! j = Some c' ->
            num_leb (node_score c) (node_score c') = true) as Hleast'.
  { intros j c' Hc'. apply num_ltb_false_leb. by eapply Hleast. }
  exists (mkSearchResult bs (Some m) (Some t)), t, i, c, k, m, ck.
  split_and!; try done.
  - intros random.
    destruct (makeBotMove_playing random a Hinv Hp)
      as (r' & m' & Hr' & Hm' & _ & _ & Hbot).
    rewrite Hr in Hr'. injection Hr' as <-. cbn in Hm'. injection Hm' as <-.
    unfold botTurn. rewrite Hx, Hp, bool_decide_true by done. cbn [negb andb].
    by rewrite Hbot.
  - destruct (Hboards k ck Hck) as (m' & Hm'' & Hbd). congruence.
  - split.
    + intros -> j c' Hc'. change (node_children t) with new in Hc, Hc'.
      assert (c = ck) as -> by congruence.
      change (node_score t) with bs. apply num_leb_antisym.
      * by eapply Hall.
      * rewrite <- Hs. by eapply Hleast'.
    + intros Hsame.
      assert (i = 0%nat) as ->.
      { destruct i as [|i]; [done|]. exfalso.
        destruct (node_children t) as [|c0 cs] eqn:Hch; [done|].
        pose proof (Hfirst 0%nat c0 ltac:(lia) eq_refl) as Hlt.
        rewrite (Hsame 0%nat c0 eq_refl), (Hsame (S i) c Hc) in Hlt.
        by rewrite num_ltb_irrefl in Hlt. }
      destruct k as [|k]; [done|]. exfalso.
      destruct (node_children t) as [|c0 cs] eqn:Hch; [done|].
      change (node_children t) with new in Hch. rewrite Hch in Hearlier.
      pose proof (Hearlier 0%nat c0 ltac:(lia) eq_refl) as Hlt.
      pose proof (Hsame 0%nat c0 eq_refl) as H0. change (node_score t) with bs in H0.
      rewrite H0 in Hlt. by rewrite num_ltb_irrefl in Hlt.
Qed.

Lemma X20_bot_tree_marks_least_child_witness :
  exists a : App,
    playable a /\ isXNext (game a) = false /\ gameStatus (game a) = playing /\
    exists r t i c k m ck,
      minimax (board (game a)) (botDepth (difficulty a)) true NegInf PosInf = Some r /\
      tree r = Some t /\
      (forall random, botTurn random a
                      = Some (mkApp (makeMove m (game a)) (difficulty a) (Some t))) /\
      isMaximizingNode t = false /\
      bestChildIndex t = Some (Z.of_nat i) /\ node_children t !! i = Some c /\
      node_score t = score r /\ move r = Some m /\
      getAvailableMoves (board (game a)) !! k = Some m /\
      node_children t !! k = Some ck /\
      node_score ck = node_score t /\
      i = 0%nat /\ node_score c = Fin (-10) /\
      k = 3%nat /\ m = 6%nat /\ node_score t = Fin 0.
Proof.
  pose (a0 := mkApp newGame Easy None).
  assert (playable a0) as H0 by apply playable_new.
  pose (a1 := mkApp (handlePlayerClick 0 (game a0)) (difficulty a0) (botTree a0)).
  assert (playable a1) as H1 by (apply playable_click; [exact H0|lia]).
  destruct (botTurn 0 a1) as [a2|] eqn:E2; [|by vm_compute in E2].
  assert (playable a2) as H2 by (eapply playable_bot; [exact H1|exact E2]).
  vm_compute in E2. injection E2 as <-. clear H0 H1. clear a0 a1.
  match type of H2 with playable ?x => set (a2 := x) in * end.
  pose (a3 := mkApp (handlePlayerClick 3 (game a2)) (difficulty a2) (botTree a2)).
  assert (playable a3) as H3 by (apply playable_click; [exact H2|lia]).
  assert ((fun r => (score r, move r,
                     (fun t => (bestChildIndex t, node_score <$> node_children t))
                       <$> tree r))
            <$> minimax (board (game a3)) (botDepth (difficulty a3)) true NegInf PosInf
          = Some (Fin 0, Some 6%nat,
                  Some (Some 0, [Fin (-10); Fin (-10); Fin (-10); Fin 0;
                                 Fin 0; Fin 0]))) as Hval
    by (vm_compute; reflexivity).
  destruct (X20_bot_tree_marks_least_child a3 H3 eq_refl eq_refl)
    as (r & t & i & c & k & m & ck & Hr & Ht & Hbot & Hodd & Hb & Hc & _ & _
        & Hst & Hm & Hk & Hck & _ & Hsck & _).
  rewrite Hr in Hval. cbn [fmap option_fmap option_map] in Hval. rewrite Ht, Hm in Hval.
  cbn [fmap option_fmap option_map] in Hval.
  injection Hval as Hs Hm6 Hbi Hscores.
  rewrite Hb in Hbi. injection Hbi as Hi. apply (Nat2Z.inj i 0) in Hi.
  exists a3. split; [exact H3|]. split; [reflexivity|]. split; [reflexivity|].
  exists r, t, i, c, k, m, ck.
  split; [exact Hr|]. split; [exact Ht|]. split; [exact Hbot|]. split; [exact Hodd|].
  split; [exact Hb|]. split; [exact Hc|]. split; [exact Hst|]. split; [exact Hm|].
  split; [exact Hk|]. split; [exact Hck|]. split; [exact Hsck|].
  split; [exact Hi|]. split.
  { pose proof (list_lookup_fmap node_score (node_children t) i) as Hl.
    rewrite Hscores, Hc, Hi in Hl. cbn in Hl. by injection Hl as <-. }
  split.
  { rewrite Hm6 in Hk.
    change (getAvailableMoves (board (game a3))) with [2; 4; 5; 6; 7; 8]%nat in Hk.
    do 6 (destruct k as [|k]; [by (reflexivity || discriminate Hk)|]).
    discriminate Hk. }
  split; [exact Hm6|]. by rewrite Hst.
Defined.

(** X21.  In the tree that a call of [minimax] returns, every node has
    a board array of its own: the arrays of the nodes are pairwise
    distinct, none existed before the call (so none is the array the call
    was made on), and all exist after it. *)
Theorem X21_tree_boards_not_shared (st : Store) (l : nat) (cells : BoardState)
    (d : Z) (isMax : bool) (alpha beta : Num) :
  arrays st !! l = Some cells ->
  exists r st',
    minimax_st l d isMax alpha beta st = Some (r, st') /\
    match rtree r with
    | Some t =>
      NoDup (tree_addrs t) /\ (l ∉ tree_addrs t) /\
      forall l', l' ∈ tree_addrs t ->
                 arrays st !! l' = None /\ is_Some (arrays st' !! l')
    | None => True
    end.
Proof.
  intros Hl. destruct (minimax_st_total st l cells d isMax alpha beta Hl)
    as (r & st' & Hr & Htop).
  exists r, st'. split; [done|]. destruct (rtree r) as [t|] eqn:Ht; [|done].
  destruct (minimax_st_fuel_addrs _ _ _ _ _ _ _ _ _ _ Hr Ht) as [Hnd Hall].
  rewrite Forall_forall in Hall. split_and!; [done| |done].
  intros Hin. destruct (Hall l Hin) as [Hn _]. congruence.
Qed.

Lemma X21_tree_boards_not_shared_witness :
  arrays fixtureStore !! 0%nat = Some fixture /\
  exists r st',
    minimax_st 0 2 false NegInf PosInf fixtureStore = Some (r, st') /\
    match rtree r with
    | Some t =>
      NoDup (tree_addrs t) /\ (0%nat ∉ tree_addrs t) /\
      forall l', l' ∈ tree_addrs t ->
                 arrays fixtureStore !! l' = None /\ is_Some (arrays st' !! l')
    | None => True
    end.
Proof.
  split; [reflexivity|].
  apply (X21_tree_boards_not_shared fixtureStore 0 fixture 2 false NegInf PosInf).
  reflexivity.
Defined.

(** X22.  On Easy, when it is the bot's turn in a game that goes on and
    some empty cell completes a line of O, the bot's turn wins the game:
    the game is won, by O. *)
Theorem X22_easy_bot_takes_win (a : App) (random m0 : nat) :
  playable a -> difficulty a = Easy ->
  isXNext (game a) = false -> gameStatus (game a) = playing ->
  board (game a) !! m0 = Some None ->
  winner (checkWinner (<[m0 := Some O]> (board (game a)))) = Some O ->
  exists a', botTurn random a = Some a' /\
             gameStatus (game a') = won /\ gameWinner (game a') = Some O.
Proof.
  intros Ha Heasy Hx Hp Hm0 Hw0.
  pose proof (reachable_inv _ (playable_reachable a Ha)) as Hinv.
  pose proof (game_inv_playing_terminal _ Hinv Hp) as Hterm.
  destruct (makeBotMove_playing random a Hinv Hp)
    as (r & m & Hr & Hm & Hcell & _ & Hbot).
  rewrite Heasy in Hr. cbn [botDepth] in Hr.
  destruct (minimax_widest (board (game a)) 2 true) as (r' & Hr' & Hv).
  rewrite Hr in Hr'. simplify_eq.
  assert (score r' = Fin 10) as Hscore.
  { pose proof (minimax_fuel_result _ _ _ _ _ _ _ Hr) as [Hsc _].
    rewrite (minimax_noprune_loops _ 2 true Hterm) in Hv by done.
    apply max_loop_noprune_spec in Hv as [Hall _].
    apply elem_of_getAvailableMoves in Hm0.
    pose proof (Hall m0 _ _ Hm0 (minimax_noprune_win _ (2 - 1) false O Hw0)) as Hle.
    by destruct Hsc as [Hs|[Hs|Hs]]; rewrite Hs in Hle |- *. }
  assert (winner (checkWinner (<[m := Some O]> (board (game a)))) = Some O) as Hw.
  { rewrite (minimax_noprune_loops _ 2 true Hterm) in Hv by done.
    apply max_loop_noprune_spec in Hv as [_ [[Hs _]|(m' & mv & _ & Hm' & Hv')]].
    - rewrite Hscore in Hs. done.
    - rewrite Hm in Hm'. simplify_eq. rewrite Hscore in Hv'.
      by apply minimax_noprune_depth1_win in Hv'. }
  eexists. split.
  - unfold botTurn. rewrite Hx, Hp, bool_decide_true by done. cbn [negb andb].
    exact Hbot.
  - cbn. apply makeMove_win; [done..|]. by rewrite Hx.
Qed.

Lemma X22_easy_bot_takes_win_witness :
  exists a : App,
    playable a /\ difficulty a = Easy /\
    isXNext (game a) = false /\ gameStatus (game a) = playing /\
    board (game a) !! 2%nat = Some None /\
    winner (checkWinner (<[2%nat := Some O]> (board (game a)))) = Some O /\
    exists a', botTurn 0 a = Some a' /\
               gameStatus (game a') = won /\ gameWinner (game a') = Some O.
Proof.
  pose (a0 := mkApp newGame Easy None).
  assert (playable a0) as H0 by apply playable_new.
  pose (a1 := mkApp (handlePlayerClick 0 (game a0)) (difficulty a0) (botTree a0)).
  assert (playable a1) as H1 by (apply playable_click; [exact H0|lia]).
  destruct (botTurn 0 a1) as [a2|] eqn:E2; [|by vm_compute in E2].
  assert (playable a2) as H2 by (eapply playable_bot; [exact H1|exact E2]).
  vm_compute in E2. injection E2 as <-. clear H0 H1. clear a0 a1.
  match type of H2 with playable ?x => set (a2 := x) in * end.
  pose (a3 := mkApp (handlePlayerClick 3 (game a2)) (difficulty a2) (botTree a2)).
  assert (playable a3) as H3 by (apply playable_click; [exact H2|lia]).
  destruct (botTurn 0 a3) as [a4|] eqn:E4; [|by vm_compute in E4].
  assert (playable a4) as H4 by (eapply playable_bot; [exact H3|exact E4]).
  vm_compute in E4. injection E4 as <-. clear H2 H3. clear a2 a3.
  match type of H4 with playable ?x => set (a4 := x) in * end.
  pose (a5 := mkApp (handlePlayerClick 5 (game a4)) (difficulty a4) (botTree a4)).
  assert (playable a5) as H5 by (apply playable_click; [exact H4|lia]).
  destruct (botTurn 0 a5) as [a6|] eqn:E6; [|by vm_compute in E6].
  assert (playable a6) as H6 by (eapply playable_bot; [exact H5|exact E6]).
  vm_compute in E6. injection E6 as <-. clear H4 H5. clear a4 a5.
  match type of H6 with playable ?x => set (a6 := x) in * end.
  pose (a7 := mkApp (handlePlayerClick 8 (game a6)) (difficulty a6) (botTree a6)).
  assert (playable a7) as H7 by (apply playable_click; [exact H6|lia]).
  exists a7. split; [exact H7|].
  split; [reflexivity|]. split; [reflexivity|]. split; [reflexivity|].
  split; [reflexivity|]. split; [reflexivity|].
  apply (X22_easy_bot_takes_win a7 0 2 H7); reflexivity.
Defined.

(** X23.  On Easy, when it is the bot's turn in a game that goes on and
    some empty cell is such that, with an O there, no click makes X the
    winner, then after the bot's turn no click makes X the winner: the
    bot does not leave a win in one move to X when it can prevent it. *)
Theorem X23_easy_bot_blocks (a : App) (random m1 : nat) :
  playable a -> difficulty a = Easy ->
  isXNext (game a) = false -> gameStatus (game a) = playing ->
  board (game a) !! m1 = Some None ->
  (forall index, gameWinner (handlePlayerClick index (makeMove m1 (game a))) <> Some X) ->
  exists a', botTurn random a = Some a' /\
             forall index, gameWinner (handlePlayerClick index (game a')) <> Some X.
Proof.
  intros Ha Heasy Hx Hp Hm1 Hsafe1.
  pose proof (reachable_inv _ (playable_reachable a Ha)) as Hinv.
  pose proof (game_inv_playing_terminal _ Hinv Hp) as Hterm.
  destruct (makeBotMove_playing random a Hinv Hp)
    as (r & m & Hr & Hm & Hcell & _ & Hbot).
  rewrite Heasy in Hr. cbn [botDepth] in Hr.
  destruct (minimax_widest (board (game a)) 2 true) as (r' & Hr' & Hv).
  rewrite Hr in Hr'. simplify_eq.
  rewrite (minimax_noprune_loops _ 2 true Hterm) in Hv by done.
  apply max_loop_noprune_spec in Hv as [Hall Hcase]. change (2 - 1) with 1 in *.
  destruct (minimax_noprune_total (<[m1 := Some O]> (board (game a))) 1 false)
    as [[v1 mv1] Hv1].
  assert (num_leb (Fin 0) v1 = true) as Hge1.
  { eapply minimax_noprune_depth1_nonneg; [|..|exact Hv1].
    - by apply bot_move_no_X_line.
    - intros Hterm1 m2 Hm2 Hw2. apply (Hsafe1 m2).
      by apply click_after_bot_wins. }
  assert (num_leb (Fin 0) (score r') = true) as Hge.
  { eapply num_leb_trans; [exact Hge1|]. eapply Hall; [|exact Hv1].
    by apply elem_of_getAvailableMoves. }
  destruct Hcase as [[Hs _]|(m' & mv & _ & Hm' & Hv')].
  { rewrite Hs in Hge. done. }
  rewrite Hm in Hm'. simplify_eq.
  eexists. split.
  - unfold botTurn. rewrite Hx, Hp, bool_decide_true by done. cbn [negb andb].
    exact Hbot.
  - cbn. intros index Hwin.
    apply click_after_bot in Hwin as (Htermc & Hc & Hw); [|done..].
    by eapply minimax_noprune_depth1_safe.
Qed.

Lemma X23_easy_bot_blocks_witness :
  exists a : App,
    playable a /\ difficulty a = Easy /\
    isXNext (game a) = false /\ gameStatus (game a) = playing /\
    board (game a) !! 6%nat = Some None /\
    (forall index,
       gameWinner (handlePlayerClick index (makeMove 6 (game a))) <> Some X) /\
    exists a', botTurn 0 a = Some a' /\
               forall index, gameWinner (handlePlayerClick index (game a')) <> Some X.
Proof.
  pose (a0 := mkApp newGame Easy None).
  assert (playable a0) as H0 by apply playable_new.
  pose (a1 := mkApp (handlePlayerClick 0 (game a0)) (difficulty a0) (botTree a0)).
  assert (playable a1) as H1 by (apply playable_click; [exact H0|lia]).
  destruct (botTurn 0 a1) as [a2|] eqn:E2; [|by vm_compute in E2].
  assert (playable a2) as H2 by (eapply playable_bot; [exact H1|exact E2]).
  vm_compute in E2. injection E2 as <-. clear H0 H1. clear a0 a1.
  match type of H2 with playable ?x => set (a2 := x) in * end.
  pose (a3 := mkApp (handlePlayerClick 3 (game a2)) (difficulty a2) (botTree a2)).
  assert (playable a3) as H3 by (apply playable_click; [exact H2|lia]).
  assert (forall index,
            gameWinner (handlePlayerClick index (makeMove 6 (game a3))) <> Some X)
    as Hsafe.
  { intros index.
    do 9 (destruct index as [|index]; [by vm_compute|]). by vm_compute. }
  exists a3. split; [exact H3|].
  split; [reflexivity|]. split; [reflexivity|]. split; [reflexivity|].
  split; [reflexivity|]. split; [exact Hsafe|].
  apply (X23_easy_bot_blocks a3 0 6 H3); [reflexivity..|exact Hsafe].
Defined.
